(** * FIACATestBot: the data loader (src/data_loader/loader.py)

    A shallow embedding of [DataLoader]: the per-certificate extraction of
    the streaming XML parser, the address heuristic, the transactional
    scope around a SQLAlchemy session, the natural-key lookup-or-create
    primitive and the two-pass reconciliation [_populate_db], over the
    tables declared in src/models.py.

    Python values are modelled as follows.
    - [str] is a list of Unicode code points.  The case mappings and the
      digit test are exact on Basic Latin and on the Cyrillic range
      U+0400..U+045F (the alphabet of the registry's texts); code points
      outside these ranges are treated as caseless non-digits, and the
      statements about normalized names assume texts within the ranges.
    - A SQLAlchemy session is an identity map: per table, the list of the
      mapped objects in creation order.  An object whose primary key is
      [None] is pending (added, not yet flushed); a reference to an object
      is its position in that list, so that the in-run caches alias the
      objects of the session exactly as the Python dictionaries do.
    - Exceptions are the [Raise] results of a state-and-error monad. *)

From Stdlib Require Import Strings.Ascii Strings.String NArith.
From stdpp Require Import base option list numbers gmap.

Set Warnings "-register-all".

(** ** Python strings *)

Abbreviation str := (list N).

Module PyStr.

Fixpoint bytes_of (s : string) : list N :=
  match s with
  | EmptyString => []
  | String a r => N_of_ascii a :: bytes_of r
  end.

(** The continuation byte [b] contributes its six low bits. *)
Definition cont (acc b : N) : N := (acc * 64 + b `mod` 64)%N.

(** UTF-8 decoding of a source literal into code points. *)
Fixpoint utf8_decode (bs : list N) : str :=
  match bs with
  | [] => []
  | b :: rest =>
    if (b <? 128)%N then b :: utf8_decode rest
    else if (b <? 224)%N then
      match rest with
      | c1 :: rest1 => cont (b `mod` 32) c1 :: utf8_decode rest1
      | _ => []
      end
    else if (b <? 240)%N then
      match rest with
      | c1 :: c2 :: rest2 => cont (cont (b `mod` 16) c1) c2 :: utf8_decode rest2
      | _ => []
      end
    else
      match rest with
      | c1 :: c2 :: c3 :: rest3 =>
        cont (cont (cont (b `mod` 8) c1) c2) c3 :: utf8_decode rest3
      | _ => []
      end
  end.

(** [u "..."] is the Python literal ['...']. *)
Definition u (s : string) : str := utf8_decode (bytes_of s).

(** [bool(s)] for a string: the empty string is falsy. *)
Definition truthy (s : str) : bool :=
  match s with [] => false | _ => true end.

Definition within (lo hi c : N) : bool := ((lo <=? c) && (c <=? hi))%N.

(** [c.isspace()]: the code points of Unicode's White_Space together with
    the separators U+001C..U+001F, as CPython has them. *)
Definition isspace (c : N) : bool :=
  within 9 13 c || within 28 32 c || (c =? 133)%N || (c =? 160)%N
  || (c =? 5760)%N || within 8192 8202 c || within 8232 8233 c
  || (c =? 8239)%N || (c =? 8287)%N || (c =? 12288)%N.

(** [c.isdigit()], [c.lower()] and [c.upper()] for a code point of Basic
    Latin or of the Cyrillic range U+0400..U+045F.  A code point outside
    these ranges is left as it is and is no digit, which is not always
    what Python does: the statements that depend on it are about texts
    written within these ranges. *)
Definition isdigit_cp (c : N) : bool := within 48 57 c.

Definition lower_cp (c : N) : N :=
  if within 65 90 c then (c + 32)%N
  else if within 1024 1039 c then (c + 80)%N
  else if within 1040 1071 c then (c + 32)%N
  else c.

Definition upper_cp (c : N) : N :=
  if within 97 122 c then (c - 32)%N
  else if within 1072 1103 c then (c - 32)%N
  else if within 1104 1119 c then (c - 80)%N
  else c.

(** A cased code point, for [str.title]. *)
Definition cased (c : N) : bool :=
  within 65 90 c || within 97 122 c || within 1024 1119 c.

Fixpoint lstrip (s : str) : str :=
  match s with
  | c :: r => if isspace c then lstrip r else s
  | [] => []
  end.

(** [s.strip()] *)
Definition strip (s : str) : str := rev (lstrip (rev (lstrip s))).

(** [s.lower()] *)
Definition lower (s : str) : str := lower_cp <$> s.

(** [s.capitalize()]: the first character in upper (title) case, the
    rest in lower case. *)
Definition capitalize (s : str) : str :=
  match s with
  | [] => []
  | c :: r => upper_cp c :: lower r
  end.

(** [s.isdigit()]: non-empty and every character a digit. *)
Definition isdigit (s : str) : bool := truthy s && forallb isdigit_cp s.

Fixpoint startswith (p s : str) : bool :=
  match p, s with
  | [], _ => true
  | a :: p', b :: s' => (a =? b)%N && startswith p' s'
  | _ :: _, [] => false
  end.

(** [p in s] for strings: [p] occurs as a substring of [s]. *)
Fixpoint contains (p s : str) : bool :=
  startswith p s ||
  match s with
  | [] => false
  | _ :: s' => contains p s'
  end.

(** [s.split(sep, 1)] for a one-character separator: the text before
    the first separator and the text after it, or [s] alone. *)
Fixpoint split1 (sep : N) (s : str) : list str :=
  match s with
  | [] => [[]]
  | c :: r =>
    if (c =? sep)%N then [[]; r]
    else match split1 sep r with
         | h :: t => (c :: h) :: t
         | [] => [[c]]
         end
  end.

Definition comma : N := 44%N.

End PyStr.

Export PyStr.

(** ** Records produced by the parser *)

(** One entry of [org_data['programs']]. *)
Module ProgData.
Record t := mk {
  specialty_code : str;
  specialty_name : str;
  ugs_code : str;
  ugs_name : str }.
End ProgData.

(** The dictionary [org_data] built for one certificate.  The parser sets
    every key; only [parent_ogrn] can be [None]. *)
Module OrgData.
Record t := mk {
  full_name : str;
  short_name : str;
  ogrn : str;
  inn : str;
  address : str;
  is_branch : bool;
  parent_ogrn : option str;
  region_name : str;
  programs : list ProgData.t }.
End OrgData.

(** ** XML elements (lxml) *)

Inductive Element : Type :=
  Elem (tag : str) (text : option str) (children : list Element).

Definition tag (e : Element) : str := let 'Elem t _ _ := e in t.
Definition text (e : Element) : option str := let 'Elem _ x _ := e in x.
Definition children (e : Element) : list Element := let 'Elem _ _ c := e in c.

(** [e.findall(t)], [e.find(t)] and [e.findtext(t)] for a path that is a
    plain tag name: the direct children with that tag, the first of them,
    and the text of the first one (the empty string when it has none). *)
Definition findall (t : str) (e : Element) : list Element :=
  filter (λ c, tag c = t) (children e).

Definition find (t : str) (e : Element) : option Element := head (findall t e).

Definition findtext (t : str) (e : Element) : option str :=
  (λ c, default [] (text c)) <$> find t e.

(** What [etree.iterparse(path, events=('end',), tag='Certificate')]
    yields for one file: its [Certificate] elements in document order, and
    whether the traversal then stops with an exception. *)
Record XmlFile := mkXmlFile {
  xml_file_path : str;
  certificates : list Element;
  broken : bool }.

(** ** The tables of src/models.py

    The primary key [id] is [None] until the object is flushed.  Columns
    declared [nullable=False] whose value the loader cannot leave out are
    typed without [option]; [Specialty.group_id] and the two columns of
    [EducationalProgram] receive [obj.id] of another object, which can be
    [None], and are checked when the row is inserted. *)

Module Region.
Record t := mk { id : option nat; name : str }.
End Region.

Module SpecialtyGroup.
Record t := mk { id : option nat; code : str; name : str }.
End SpecialtyGroup.

Module Specialty.
Record t := mk {
  id : option nat; code : str; name : str; group_id : option nat }.
End Specialty.

(** [region] is the relationship attribute (backref of
    [Region.organizations]): a reference to a [Region] object of the
    session, from which the flush fills [region_id]. *)
Module EducationalOrganization.
Record t := mk {
  id : option nat;
  full_name : str;
  short_name : option str;
  ogrn : option str;
  inn : option str;
  address : option str;
  region_id : option nat;
  region : option nat;
  parent_id : option nat }.

Definition with_parent_id (p : option nat) (o : t) : t :=
  mk (id o) (full_name o) (short_name o) (ogrn o) (inn o) (address o)
     (region_id o) (region o) p.
End EducationalOrganization.

Module EducationalProgram.
Record t := mk {
  id : option nat; organization_id : option nat; specialty_id : option nat }.
End EducationalProgram.

(** The objects of a session, per table, in creation order. *)
Record Tables := mkTables {
  regions : list Region.t;
  specialty_groups : list SpecialtyGroup.t;
  specialties : list Specialty.t;
  organizations : list EducationalOrganization.t;
  programs : list EducationalProgram.t }.

Definition empty_tables : Tables := mkTables [] [] [] [] [].

(** ** Flushing: INSERT of the pending objects *)

Section FlushRows.
Context {A : Type}.
(** the primary key, the row as stored under a fresh key, and the
    constraints of the table: may [x] be inserted next to [rows]? *)
Variable pk : A → option nat.
Variable persist : nat → A → A.
Variable accepts : list A → A → bool.

(** An integer primary key is one more than the largest key in use. *)
Definition next_id (rows : list A) : nat := S (max_list (omap pk rows)).

Fixpoint flush_rows (done todo : list A) : option (list A) :=
  match todo with
  | [] => Some done
  | x :: rest =>
    match pk x with
    | Some _ => flush_rows (done ++ [x]) rest
    | None =>
      if accepts (done ++ rest) x
      then flush_rows (done ++ [persist (next_id (done ++ rest)) x]) rest
      else None
    end
  end.
End FlushRows.

(** [taken pk key rows k]: a flushed row of [rows] already carries the
    non-NULL value [k] in the unique column [key]. *)
Definition taken {A K : Type} `{EqDecision K}
    (pk : A → option nat) (key : A → option K) (rows : list A) (k : option K) : bool :=
  match k with
  | None => false
  | Some _ => existsb (λ r, bool_decide (is_Some (pk r)) && bool_decide (key r = k)) rows
  end.

Definition Region_persist (n : nat) (r : Region.t) : Region.t :=
  Region.mk (Some n) (Region.name r).
(** [name]: unique *)
Definition Region_accepts (rows : list Region.t) (r : Region.t) : bool :=
  negb (taken Region.id (λ x, Some (Region.name x)) rows (Some (Region.name r))).

Definition SpecialtyGroup_persist (n : nat) (g : SpecialtyGroup.t) : SpecialtyGroup.t :=
  SpecialtyGroup.mk (Some n) (SpecialtyGroup.code g) (SpecialtyGroup.name g).
(** [code]: unique *)
Definition SpecialtyGroup_accepts (rows : list SpecialtyGroup.t) (g : SpecialtyGroup.t) : bool :=
  negb (taken SpecialtyGroup.id (λ x, Some (SpecialtyGroup.code x)) rows
          (Some (SpecialtyGroup.code g))).

Definition Specialty_persist (n : nat) (s : Specialty.t) : Specialty.t :=
  Specialty.mk (Some n) (Specialty.code s) (Specialty.name s) (Specialty.group_id s).
(** [code]: unique; [group_id]: nullable=False *)
Definition Specialty_accepts (rows : list Specialty.t) (s : Specialty.t) : bool :=
  bool_decide (is_Some (Specialty.group_id s))
  && negb (taken Specialty.id (λ x, Some (Specialty.code x)) rows (Some (Specialty.code s))).

(** The flush inserts the regions first, so the key of the related
    [Region] is known when the organization is written. *)
Definition EducationalOrganization_persist (rs : list Region.t) (n : nat)
    (o : EducationalOrganization.t) : EducationalOrganization.t :=
  let region_id :=
    match EducationalOrganization.region o with
    | Some r => rs !! r ≫= Region.id
    | None => EducationalOrganization.region_id o
    end in
  EducationalOrganization.mk (Some n)
    (EducationalOrganization.full_name o) (EducationalOrganization.short_name o)
    (EducationalOrganization.ogrn o) (EducationalOrganization.inn o)
    (EducationalOrganization.address o) region_id
    (EducationalOrganization.region o) (EducationalOrganization.parent_id o).
(** [ogrn]: unique; [inn]: unique (NULLs do not collide) *)
Definition EducationalOrganization_accepts (rows : list EducationalOrganization.t)
    (o : EducationalOrganization.t) : bool :=
  negb (taken EducationalOrganization.id EducationalOrganization.ogrn rows
          (EducationalOrganization.ogrn o))
  && negb (taken EducationalOrganization.id EducationalOrganization.inn rows
             (EducationalOrganization.inn o)).

Definition EducationalProgram_persist (n : nat) (p : EducationalProgram.t) : EducationalProgram.t :=
  EducationalProgram.mk (Some n)
    (EducationalProgram.organization_id p) (EducationalProgram.specialty_id p).
(** [organization_id], [specialty_id]: nullable=False *)
Definition EducationalProgram_accepts (rows : list EducationalProgram.t)
    (p : EducationalProgram.t) : bool :=
  bool_decide (is_Some (EducationalProgram.organization_id p))
  && bool_decide (is_Some (EducationalProgram.specialty_id p)).

(** The unit of work: every pending object is inserted, parents before
    children; [None] when the database refuses a row. *)
Definition flush (t : Tables) : option Tables :=
  rs ← flush_rows Region.id Region_persist Region_accepts [] (regions t);
  gs ← flush_rows SpecialtyGroup.id SpecialtyGroup_persist SpecialtyGroup_accepts []
         (specialty_groups t);
  os ← flush_rows EducationalOrganization.id (EducationalOrganization_persist rs)
         EducationalOrganization_accepts [] (organizations t);
  ss ← flush_rows Specialty.id Specialty_persist Specialty_accepts [] (specialties t);
  ps ← flush_rows EducationalProgram.id EducationalProgram_persist
         EducationalProgram_accepts [] (programs t);
  Some (mkTables rs gs ss os ps).

(** ** Logging, exceptions and the state of a run *)

Inductive Level := DEBUG | INFO | WARNING | ERROR.

Inductive Exn := RuntimeError | IntegrityError | OperationalError | XMLSyntaxError.

(** The messages of the loader, with the values they interpolate. *)
Inductive Message :=
  | MsgParseStart | MsgNoXmlFiles | MsgParseFile (path : str) | MsgMainTag
  | MsgCertificateWithoutOrg (path : str)
  | MsgOrgWithoutOgrn (path : str)
  | MsgProgramWithoutCode (ogrn : str)
  | MsgParseError (path : str)
  | MsgFoundInFile (path : str) (n : nat)
  | MsgParseDone (n : nat)
  | MsgRegionNotExtracted (address : str)
  | MsgDatabaseError (e : Exn)
  | MsgCreated (model : str)
  | MsgPopulateStart | MsgNoData | MsgPass1Start
  | MsgSkipWithoutOgrn (full_name : str)
  | MsgOrgAdded (ogrn : str)
  | MsgOrgFound (ogrn : str)
  | MsgPass1Done
  | MsgPass1FlushError (e : Exn)
  | MsgPass2Start
  | MsgBranchLinked (ogrn parent_ogrn : str)
  | MsgParentNotFound (parent_ogrn ogrn : str)
  | MsgProgramSkipped (ogrn : str)
  | MsgProgramAdded (ogrn specialty_code : str)
  | MsgProgramExists (ogrn specialty_code : str)
  | MsgPass2Done | MsgPopulateDone.

Record LogRecord := mkLog { levelname : Level; message : Message }.

(** The calls made on the Flask application and on the session. *)
Inductive Event :=
  | AppContext | Query | Add | Flush | Commit | Rollback.

#[global] Instance Level_eq_dec : EqDecision Level.
Proof. solve_decision. Defined.
#[global] Instance Exn_eq_dec : EqDecision Exn.
Proof. solve_decision. Defined.
#[global] Instance Message_eq_dec : EqDecision Message.
Proof. solve_decision. Defined.
#[global] Instance LogRecord_eq_dec : EqDecision LogRecord.
Proof. solve_decision. Defined.
#[global] Instance Event_eq_dec : EqDecision Event.
Proof. solve_decision. Defined.

(** The Flask application handed to the loader. *)
Inductive Flask := FlaskApp.

(** [session]: the objects of [db.session], with the uncommitted work of
    the open transaction; [stored]: the committed database; [trace] and
    [log]: the calls and the log records so far, latest first; [faults]:
    for each coming call that reaches the database, whether the database
    fails it (an empty list: no failure). *)
Record State := mkState {
  session : Tables;
  stored : Tables;
  trace : list Event;
  log : list LogRecord;
  faults : list bool }.

Inductive Res (A : Type) : Type :=
  | Ok (a : A)
  | Raise (e : Exn).
Arguments Ok {A} a.
Arguments Raise {A} e.

Definition M (A : Type) : Type := State → Res A * State.

#[global] Instance M_ret : MRet M := λ A a s, (Ok a, s).
#[global] Instance M_bind : MBind M := λ A B f m s,
  match m s with
  | (Ok a, s') => f a s'
  | (Raise e, s') => (Raise e, s')
  end.

Definition raise {A} (e : Exn) : M A := λ s, (Raise e, s).

(** [try: body  except Exception as e: handler e] *)
Definition try_except {A} (body : M A) (handler : Exn → M A) : M A := λ s,
  match body s with
  | (Ok a, s') => (Ok a, s')
  | (Raise e, s') => handler e s'
  end.

Definition gets {A} (f : State → A) : M A := λ s, (Ok (f s), s).

Definition set_session (t : Tables) : M unit := λ s,
  (Ok (), mkState t (stored s) (trace s) (log s) (faults s)).

(** A [for] loop that threads the local variables [b] of its body. *)
Fixpoint foldM {A B} (f : B → A → M B) (l : list A) (b : B) : M B :=
  match l with
  | [] => mret b
  | x :: l' => b' ← f b x; foldM f l' b'
  end.

Definition logging (lvl : Level) (msg : Message) : M unit := λ s,
  (Ok (), mkState (session s) (stored s) (trace s) (mkLog lvl msg :: log s) (faults s)).

Definition record (ev : Event) : M unit := λ s,
  (Ok (), mkState (session s) (stored s) (ev :: trace s) (log s) (faults s)).

(** A call that reaches the database: it is recorded, and it raises when
    the database fails it. *)
Definition storage_call (ev : Event) : M unit := λ s,
  let s' := mkState (session s) (stored s) (ev :: trace s) (log s) (tail (faults s)) in
  match faults s with
  | true :: _ => (Raise OperationalError, s')
  | _ => (Ok (), s')
  end.

(** ** The session *)

(** The flush itself; a refused row raises. *)
Definition autoflush : M unit := λ s,
  match flush (session s) with
  | Some t => set_session t s
  | None => (Raise IntegrityError, s)
  end.

(** Nothing is pending in the session: every object has its key. *)
Definition nothing_pending (t : Tables) : bool :=
  forallb (λ x, bool_decide (is_Some (Region.id x))) (regions t)
  && forallb (λ x, bool_decide (is_Some (SpecialtyGroup.id x))) (specialty_groups t)
  && forallb (λ x, bool_decide (is_Some (Specialty.id x))) (specialties t)
  && forallb (λ x, bool_decide (is_Some (EducationalOrganization.id x))) (organizations t)
  && forallb (λ x, bool_decide (is_Some (EducationalProgram.id x))) (programs t).

(** [session.flush()]: on a session that has no work the call returns at
    once, without reaching the database; otherwise the pending objects
    are written.  The loader calls [flush] in its first pass only, where
    the work of the session is its pending objects (it assigns to an
    attribute of a stored object in the second pass only). *)
Definition session_flush : M unit := λ s,
  if nothing_pending (session s) then record Flush s
  else (storage_call Flush;; autoflush) s.

(** [session.query(model).filter_by(...).first()]: the session flushes,
    then the first matching row is returned. *)
Definition session_query {A} (first : Tables → option A) : M (option A) :=
  storage_call Query;; autoflush;; gets (λ s, first (session s)).

(** [session.commit()] *)
Definition session_commit : M unit :=
  storage_call Commit;; autoflush;;
  ((λ s, (Ok (), mkState (session s) (session s) (trace s) (log s) (faults s))) : M unit).

(** [session.rollback()] *)
Definition session_rollback : M unit := λ s,
  (Ok (), mkState (stored s) (stored s) (Rollback :: trace s) (log s) (faults s)).

(** [session.add(obj)] for each model: the object joins the session and
    the reference to it is returned. *)
Definition add_Region (r : Region.t) : M nat := λ s,
  let t := session s in
  (Ok (length (regions t)),
   mkState (mkTables (regions t ++ [r]) (specialty_groups t) (specialties t)
              (organizations t) (programs t))
     (stored s) (Add :: trace s) (log s) (faults s)).

Definition add_SpecialtyGroup (g : SpecialtyGroup.t) : M nat := λ s,
  let t := session s in
  (Ok (length (specialty_groups t)),
   mkState (mkTables (regions t) (specialty_groups t ++ [g]) (specialties t)
              (organizations t) (programs t))
     (stored s) (Add :: trace s) (log s) (faults s)).

Definition add_Specialty (x : Specialty.t) : M nat := λ s,
  let t := session s in
  (Ok (length (specialties t)),
   mkState (mkTables (regions t) (specialty_groups t) (specialties t ++ [x])
              (organizations t) (programs t))
     (stored s) (Add :: trace s) (log s) (faults s)).

Definition add_EducationalOrganization (o : EducationalOrganization.t) : M nat := λ s,
  let t := session s in
  (Ok (length (organizations t)),
   mkState (mkTables (regions t) (specialty_groups t) (specialties t)
              (organizations t ++ [o]) (programs t))
     (stored s) (Add :: trace s) (log s) (faults s)).

Definition add_EducationalProgram (p : EducationalProgram.t) : M nat := λ s,
  let t := session s in
  (Ok (length (programs t)),
   mkState (mkTables (regions t) (specialty_groups t) (specialties t)
              (organizations t) (programs t ++ [p]))
     (stored s) (Add :: trace s) (log s) (faults s)).

(** [obj.attr] for the object behind a reference. *)
Definition attr {A B} (table : Tables → list A) (f : A → option B) (ref : nat) : M (option B) :=
  gets (λ s, table (session s) !! ref ≫= f).

(** [organization.parent_id = value] *)
Definition set_parent_id (organization : nat) (value : option nat) : M unit := λ s,
  let t := session s in
  set_session
    (mkTables (regions t) (specialty_groups t) (specialties t)
       (alter (EducationalOrganization.with_parent_id value) organization (organizations t))
       (programs t)) s.

(** The position of the first object satisfying [P]. *)
Definition first_ref {A} (P : A → Prop) `{∀ x, Decision (P x)} (l : list A) : option nat :=
  fst <$> list_find P l.

(** [filter_by(name=name)] on Region, [filter_by(code=code)] on
    SpecialtyGroup and Specialty, [filter_by(ogrn=ogrn)] on
    EducationalOrganization, [filter_by(organization_id=.., specialty_id=..)]
    on EducationalProgram. *)
Definition Region_by_name (name : str) (t : Tables) : option nat :=
  first_ref (λ r, Region.name r = name) (regions t).

Definition SpecialtyGroup_by_code (code : str) (t : Tables) : option nat :=
  first_ref (λ g, SpecialtyGroup.code g = code) (specialty_groups t).

Definition Specialty_by_code (code : str) (t : Tables) : option nat :=
  first_ref (λ x, Specialty.code x = code) (specialties t).

Definition EducationalOrganization_by_ogrn (ogrn : str) (t : Tables) : option nat :=
  first_ref (λ o, EducationalOrganization.ogrn o = Some ogrn) (organizations t).

Definition EducationalProgram_by_pair (organization_id specialty_id : option nat)
    (t : Tables) : option nat :=
  first_ref (λ p, EducationalProgram.organization_id p = organization_id
                  ∧ EducationalProgram.specialty_id p = specialty_id) (programs t).

(** ** DataLoader *)

(** [l[i]] where the source guarantees the index. *)
Definition item (l : list str) (i : nat) : str := default [] (l !! i).

(** [DataLoader._get_text] *)
Definition _get_text (element : Element) (xpath : str) (default : str) : str :=
  match findtext xpath element with
  | Some found => if truthy found then strip found else default
  | None => default
  end.

Definition possible_regions : list str :=
  [u "г. москва"; u "московская область"; u "г. санкт-петербург";
   u "ленинградская область"].

(** [DataLoader._extract_region_from_address] *)
Definition _extract_region_from_address (address : str) : M (option str) :=
  let address_lower := lower address in
  match List.find (λ region_name, contains region_name address_lower) possible_regions with
  | Some region_name => mret (Some (capitalize region_name))
  | None =>
    let parts := split1 comma address in
    if bool_decide (1 < length parts) then
      let region_part := strip (item parts 0) in
      if isdigit region_part && bool_decide (length region_part = 6) then
        if bool_decide (1 < length parts) then
          let region_part := strip (item (split1 comma (item parts 1)) 0) in
          mret (Some (capitalize region_part))
        else mret None
      else mret (Some (capitalize region_part))
    else
      logging WARNING (MsgRegionNotExtracted address);;
      mret None
  end.

(** [DataLoader.session_scope], with the body of the [with] statement as
    [body]: the body runs between the [yield] and the commit, inside the
    [try]. *)
Definition session_scope {A} (app : option Flask) (body : M A) : M A :=
  match app with
  | None => raise RuntimeError
  | Some _ =>
    record AppContext;;
    try_except
      (a ← body; session_commit;; mret a)
      (λ e, logging ERROR (MsgDatabaseError e);; session_rollback;; raise e)
  end.

(** A mapped class as [_get_or_create] uses it: its name, the query
    [session.query(model).filter_by(kwargs).first()], and the construction
    of an instance from [{**kwargs, **defaults}] followed by
    [session.add].  The defaults may name the column of the lookup: its
    value then replaces the one of [kwargs] in the new instance. *)
Record Model (K D : Type) := mkModel {
  model_name : str;
  filter_by : K → Tables → option nat;
  create : K → D → M nat }.
Arguments model_name {K D} _.
Arguments filter_by {K D} _ _ _.
Arguments create {K D} _ _ _.

(** [defaults]: the name that they give, if any. *)
Definition RegionModel : Model str (option str) :=
  mkModel _ _ (u "Region") Region_by_name
    (λ name defaults, add_Region (Region.mk None (default name defaults))).

(** [defaults]: the code that they give, if any, and the name. *)
Definition SpecialtyGroupModel : Model str (option str * str) :=
  mkModel _ _ (u "SpecialtyGroup") SpecialtyGroup_by_code
    (λ code '(code_given, name),
       add_SpecialtyGroup (SpecialtyGroup.mk None (default code code_given) name)).

(** [defaults]: the code that they give, if any, the name and the key of
    the group. *)
Definition SpecialtyModel : Model str (option str * str * option nat) :=
  mkModel _ _ (u "Specialty") Specialty_by_code
    (λ code '(code_given, name, group_id),
       add_Specialty (Specialty.mk None (default code code_given) name group_id)).

(** [DataLoader._get_or_create] *)
Definition _get_or_create {K D} (model : Model K D) (defaults : D) (kwargs : K)
    : M (nat * bool) :=
  instance ← session_query (filter_by model kwargs);
  match instance with
  | Some instance => mret (instance, false)
  | None =>
    instance ← create model kwargs defaults;
    logging DEBUG (MsgCreated (model_name model));;
    mret (instance, true)
  end.

(** *** [DataLoader._parse_xml_files] *)

(** The body of the loop over [EducationalProgram] elements;
    [programs] is [org_data['programs']]. *)
Definition parse_program (ogrn : str) (programs : list ProgData.t)
    (program_elem : Element) : M (list ProgData.t) :=
  let is_accredited :=
    bool_decide (_get_text program_elem (u "IsAccredited") (u "1") = u "0") in
  if negb is_accredited then mret programs
  else
    let prog_data :=
      ProgData.mk (_get_text program_elem (u "ProgrammCode") [])
                  (_get_text program_elem (u "ProgrammName") [])
                  (_get_text program_elem (u "UGSCode") [])
                  (_get_text program_elem (u "UGSName") []) in
    if truthy (ProgData.specialty_code prog_data)
    then mret (programs ++ [prog_data])
    else logging DEBUG (MsgProgramWithoutCode ogrn);; mret programs.

(** The body of the loop over [Supplement] elements. *)
Definition parse_supplement (ogrn : str) (programs : list ProgData.t)
    (supp_elem : Element) : M (list ProgData.t) :=
  match find (u "EducationalPrograms") supp_elem with
  | Some programs_elem =>
    foldM (parse_program ogrn) (findall (u "EducationalProgram") programs_elem) programs
  | None => mret programs
  end.

(** The body of the loop over the [Certificate] elements of a file. *)
Definition parse_certificate (path : str) (organizations_in_file : list OrgData.t)
    (cert_elem : Element) : M (list OrgData.t) :=
  match find (u "ActualEducationOrganization") cert_elem with
  | None =>
    logging WARNING (MsgCertificateWithoutOrg path);;
    mret organizations_in_file
  | Some org_elem =>
    let is_branch := bool_decide (_get_text org_elem (u "IsBranch") (u "0") = u "1") in
    let ogrn := _get_text org_elem (u "OGRN") [] in
    if negb (truthy ogrn) then
      logging WARNING (MsgOrgWithoutOgrn path);;
      mret organizations_in_file
    else
      programs ←
        match find (u "Supplements") cert_elem with
        | Some supplements_elem =>
          foldM (parse_supplement ogrn) (findall (u "Supplement") supplements_elem) []
        | None => mret []
        end;
      mret (organizations_in_file ++
        [OrgData.mk (_get_text org_elem (u "FullName") [])
                    (_get_text org_elem (u "ShortName") [])
                    ogrn
                    (_get_text org_elem (u "INN") [])
                    (_get_text org_elem (u "PostAddress") [])
                    is_branch
                    (if is_branch then Some (_get_text cert_elem (u "EduOrgOGRN") []) else None)
                    (_get_text org_elem (u "RegionName") [])
                    programs])
  end.

(** The body of the loop over the files; an exception while a file is
    traversed drops what was collected from that file. *)
Definition parse_file (all_organizations_data : list OrgData.t) (f : XmlFile)
    : M (list OrgData.t) :=
  logging INFO (MsgParseFile (xml_file_path f));;
  try_except
    (logging INFO MsgMainTag;;
     organizations_in_file ← foldM (parse_certificate (xml_file_path f)) (certificates f) [];
     (if broken f then raise XMLSyntaxError else mret ());;
     logging INFO (MsgFoundInFile (xml_file_path f) (length organizations_in_file));;
     mret (all_organizations_data ++ organizations_in_file))
    (λ e, logging ERROR (MsgParseError (xml_file_path f));;
          mret all_organizations_data).

(** [xml_files] stands for the files that [glob] finds in the cache
    directory. *)
Definition _parse_xml_files (xml_files : list XmlFile) : M (list OrgData.t) :=
  logging INFO MsgParseStart;;
  match xml_files with
  | [] => logging WARNING MsgNoXmlFiles;; mret []
  | _ =>
    all_organizations_data ← foldM parse_file xml_files [];
    logging INFO (MsgParseDone (length all_organizations_data));;
    mret all_organizations_data
  end.

(** *** [DataLoader._populate_db] *)

Abbreviation cache := (gmap str nat).

(** [regions_cache[name]], or [_get_or_create(session, Region, name=name)]
    stored in the cache. *)
Definition region_for (regions_cache : cache) (region_name : str)
    : M (option nat * cache) :=
  match regions_cache !! region_name with
  | Some region => mret (Some region, regions_cache)
  | None =>
    '(region, _) ← _get_or_create RegionModel None region_name;
    mret (Some region, <[region_name := region]> regions_cache)
  end.

(** The body of the first loop; the local dictionaries are threaded. *)
Definition pass1 (caches : cache * cache) (org_data : OrgData.t) : M (cache * cache) :=
  let '(regions_cache, organizations_cache) := caches in
  let ogrn := OrgData.ogrn org_data in
  if negb (truthy ogrn) then
    logging WARNING (MsgSkipWithoutOgrn (OrgData.full_name org_data));;
    mret caches
  else
    match organizations_cache !! ogrn with
    | Some organization => mret caches
    | None =>
      organization ← session_query (EducationalOrganization_by_ogrn ogrn);
      match organization with
      | None =>
        let region_name := OrgData.region_name org_data in
        '(region, regions_cache) ←
          (if truthy region_name then
             let region_name := capitalize (strip region_name) in
             region_for regions_cache region_name
           else
             region_name_from_addr ← _extract_region_from_address (OrgData.address org_data);
             match region_name_from_addr with
             | Some region_name_from_addr =>
               if truthy region_name_from_addr
               then region_for regions_cache region_name_from_addr
               else mret (None, regions_cache)
             | None => mret (None, regions_cache)
             end);
        organization ← add_EducationalOrganization
          (EducationalOrganization.mk None
             (OrgData.full_name org_data)
             (Some (OrgData.short_name org_data))
             (Some ogrn)
             (Some (OrgData.inn org_data))
             (Some (OrgData.address org_data))
             None region None);
        logging DEBUG (MsgOrgAdded ogrn);;
        let organizations_cache := <[ogrn := organization]> organizations_cache in
        session_flush;;
        mret (regions_cache, organizations_cache)
      | Some organization =>
        logging DEBUG (MsgOrgFound ogrn);;
        mret (regions_cache, <[ogrn := organization]> organizations_cache)
      end
    end.

(** The statement that links a branch to its head organization. *)
Definition link_parent (organizations_cache : cache) (org_data : OrgData.t)
    (organization : nat) : M unit :=
  let ogrn := OrgData.ogrn org_data in
  match OrgData.parent_ogrn org_data with
  | Some parent_ogrn =>
    if OrgData.is_branch org_data && truthy parent_ogrn then
      parent_organization ←
        match organizations_cache !! parent_ogrn with
        | Some parent => mret (Some parent)
        | None => session_query (EducationalOrganization_by_ogrn parent_ogrn)
        end;
      match parent_organization with
      | Some parent_organization =>
        parent_id ← attr organizations EducationalOrganization.id parent_organization;
        set_parent_id organization parent_id;;
        logging DEBUG (MsgBranchLinked ogrn parent_ogrn)
      | None => logging WARNING (MsgParentNotFound parent_ogrn ogrn)
      end
    else mret ()
  | None => mret ()
  end.

(** The body of the loop over [org_data['programs']]. *)
Definition load_program (ogrn : str) (organization : nat) (caches : cache * cache)
    (prog_data : ProgData.t) : M (cache * cache) :=
  let '(specialty_groups_cache, specialties_cache) := caches in
  let specialty_code := ProgData.specialty_code prog_data in
  let ugs_code := ProgData.ugs_code prog_data in
  if negb (truthy specialty_code) || negb (truthy ugs_code) then
    logging DEBUG (MsgProgramSkipped ogrn);;
    mret caches
  else
    '(group, specialty_groups_cache) ←
      match specialty_groups_cache !! ugs_code with
      | Some group => mret (group, specialty_groups_cache)
      | None =>
        '(group, _) ← _get_or_create SpecialtyGroupModel
                        (None, ProgData.ugs_name prog_data) ugs_code;
        mret (group, <[ugs_code := group]> specialty_groups_cache)
      end;
    '(specialty, specialties_cache) ←
      match specialties_cache !! specialty_code with
      | Some specialty => mret (specialty, specialties_cache)
      | None =>
        group_id ← attr specialty_groups SpecialtyGroup.id group;
        '(specialty, _) ← _get_or_create SpecialtyModel
                            (None, ProgData.specialty_name prog_data, group_id) specialty_code;
        mret (specialty, <[specialty_code := specialty]> specialties_cache)
      end;
    organization_id ← attr organizations EducationalOrganization.id organization;
    specialty_id ← attr specialties Specialty.id specialty;
    existing_program ← session_query (EducationalProgram_by_pair organization_id specialty_id);
    match existing_program with
    | None =>
      organization_id ← attr organizations EducationalOrganization.id organization;
      specialty_id ← attr specialties Specialty.id specialty;
      add_EducationalProgram (EducationalProgram.mk None organization_id specialty_id);;
      logging DEBUG (MsgProgramAdded ogrn specialty_code)
    | Some _ => logging DEBUG (MsgProgramExists ogrn specialty_code)
    end;;
    mret (specialty_groups_cache, specialties_cache).

(** The body of the second loop. *)
Definition pass2 (organizations_cache : cache) (caches : cache * cache)
    (org_data : OrgData.t) : M (cache * cache) :=
  let ogrn := OrgData.ogrn org_data in
  if negb (truthy ogrn) then mret caches
  else
    match organizations_cache !! ogrn with
    | None => mret caches
    | Some organization =>
      link_parent organizations_cache org_data organization;;
      foldM (load_program ogrn organization) (OrgData.programs org_data) caches
    end.

(** The body of [with self.session_scope(app) as session]; [false] when
    the flush closing the first pass failed and the method returned from
    inside the block. *)
Definition reconcile (organizations_data : list OrgData.t) : M bool :=
  logging INFO MsgPass1Start;;
  '(regions_cache, organizations_cache) ← foldM pass1 organizations_data (∅, ∅);
  flushed ← try_except
    (session_flush;; logging INFO MsgPass1Done;; mret true)
    (λ e, logging ERROR (MsgPass1FlushError e);; session_rollback;; mret false);
  if flushed : bool then
    logging INFO MsgPass2Start;;
    foldM (pass2 organizations_cache) organizations_data (∅, ∅);;
    logging INFO MsgPass2Done;;
    mret true
  else mret false.

Definition _populate_db (organizations_data : list OrgData.t) (app : option Flask) : M unit :=
  logging INFO MsgPopulateStart;;
  match organizations_data with
  | [] => logging INFO MsgNoData
  | _ =>
    finished ← session_scope app (reconcile organizations_data);
    if finished : bool then logging INFO MsgPopulateDone else mret ()
  end.

(** A run against the committed database [db]: a fresh session on it. *)
Definition fresh (db : Tables) (faults : list bool) : State :=
  mkState db db [] [] faults.

(** ** Definitions used by the statements *)

(** The code points on which the case mappings and the digit test of the
    model are those of Python: Basic Latin and the Cyrillic range
    U+0400..U+045F. *)
Definition modelled_cp (c : N) : bool := (c <? 128)%N || within 1024 1119 c.

(** A text written with these code points only. *)
Definition modelled (s : str) : bool := forallb modelled_cp s.

(** The texts of a record that the first pass normalizes: its region
    name and its address. *)
Definition modelled_record (c : OrgData.t) : bool :=
  modelled (OrgData.region_name c) && modelled (OrgData.address c).

(** An input of such records. *)
Definition modelled_input (organizations_data : list OrgData.t) : Prop :=
  Forall (λ c, modelled_record c = true) organizations_data.

(** [s.title()]: every character that follows an uncased one in upper
    case, every other character in lower case.  This is the title-casing
    that the specification names for region names; the loader calls
    [capitalize]. *)
Fixpoint title_from (previous_is_cased : bool) (s : str) : str :=
  match s with
  | [] => []
  | c :: r =>
    (if previous_is_cased then lower_cp c else upper_cp c) :: title_from (cased c) r
  end.

Definition title (s : str) : str := title_from false s.

(** *** Sample inputs *)

Definition leaf (t x : string) : Element := Elem (u t) (Some (u x)) [].

(** An [EducationalProgram] element with the given [IsAccredited] text. *)
Definition sample_program (is_accredited code : string) : Element :=
  Elem (u "EducationalProgram") None
    [leaf "IsAccredited" is_accredited; leaf "ProgrammCode" code;
     leaf "ProgrammName" "Informatics"; leaf "UGSCode" "09.00.00";
     leaf "UGSName" "Computing"].

(** A certificate whose supplement lists one program marked ["0"] (not
    accredited) and one marked ["1"] (accredited). *)
Definition sample_certificate : Element :=
  Elem (u "Certificate") None
    [Elem (u "ActualEducationOrganization") None
       [leaf "FullName" "Institute"; leaf "OGRN" "1027700000001"];
     Elem (u "Supplements") None
       [Elem (u "Supplement") None
          [Elem (u "EducationalPrograms") None
             [sample_program "0" "09.03.01"; sample_program "1" "09.03.02"]]]].

Definition sample_file : XmlFile := mkXmlFile (u "data.xml") [sample_certificate] false.

Definition podolsk : str := u "123456, Московская область, г. Подольск".

Definition informatics : ProgData.t :=
  ProgData.mk (u "09.03.01") (u "Informatics") (u "09.00.00") (u "Computing").

(** A head organization, a branch of it, and a branch whose declared
    head is unknown. *)
Definition org_A : OrgData.t :=
  OrgData.mk (u "Institute A") (u "A") (u "1027700000001") (u "7700000001")
    podolsk false None [] [].

Definition org_B : OrgData.t :=
  OrgData.mk (u "Branch B") (u "B") (u "1027700000002") (u "7700000002")
    (u "Тверь") true (Some (u "1027700000001")) (u " тверская область ") [].

Definition org_C : OrgData.t :=
  OrgData.mk (u "Branch C") (u "C") (u "1027700000003") (u "7700000003")
    (u "Тверь") true (Some (u "1027700009999")) [] [].

(** Another head organization, and second records of B and of C (the
    same OGRN in another certificate) that name it as their head. *)
Definition org_H : OrgData.t :=
  OrgData.mk (u "Institute H") (u "H") (u "1027700000005") (u "7700000005")
    podolsk false None [] [].

Definition org_B2 : OrgData.t :=
  OrgData.mk (u "Branch B") (u "B") (u "1027700000002") (u "7700000002")
    (u "Тверь") true (Some (u "1027700000005")) [] [].

Definition org_C2 : OrgData.t :=
  OrgData.mk (u "Branch C") (u "C") (u "1027700000003") (u "7700000003")
    (u "Тверь") true (Some (u "1027700000005")) [] [].

(** An organization that teaches one specialty. *)
Definition org_D : OrgData.t :=
  OrgData.mk (u "Institute D") (u "D") (u "1027700000004") (u "7700000004")
    (u "г. Москва, ул. Ленина") false None [] [informatics].

(** A database that already holds the specialty group 09.00.00. *)
Definition db_with_group : Tables :=
  mkTables [] [SpecialtyGroup.mk (Some 5) (u "09.00.00") (u "Computing")] [] [] [].

(** A database that already holds A and B as unrelated organizations. *)
Definition db_with_A_B : Tables :=
  mkTables [] [] []
    [EducationalOrganization.mk (Some 1) (u "Institute A") None (Some (u "1027700000001"))
       None None None None None;
     EducationalOrganization.mk (Some 2) (u "Branch B") None (Some (u "1027700000002"))
       None None None None None]
    [].

(** The run went through both passes and committed: it returned, and it
    never rolled back. *)
Definition completed (run : Res () * State) : Prop :=
  fst run = Ok () ∧ Rollback ∉ trace (snd run).


(** ** How a session evolves *)

(** [l'] extends [l]: every object of [l] is still at its position, up
    to [same]. *)
Definition ext_list {A} (same : A → A → Prop) (l l' : list A) : Prop :=
  ∀ i x, l !! i = Some x → ∃ x', l' !! i = Some x' ∧ same x x'.

(** A primary key, once assigned, stays. *)
Definition keeps_id (id id' : option nat) : Prop := is_Some id → id' = id.

Definition Region_same (r r' : Region.t) : Prop :=
  Region.name r' = Region.name r ∧ keeps_id (Region.id r) (Region.id r').

Definition SpecialtyGroup_same (g g' : SpecialtyGroup.t) : Prop :=
  SpecialtyGroup.code g' = SpecialtyGroup.code g
  ∧ SpecialtyGroup.name g' = SpecialtyGroup.name g
  ∧ keeps_id (SpecialtyGroup.id g) (SpecialtyGroup.id g').

Definition Specialty_same (x x' : Specialty.t) : Prop :=
  Specialty.code x' = Specialty.code x
  ∧ Specialty.name x' = Specialty.name x
  ∧ Specialty.group_id x' = Specialty.group_id x
  ∧ keeps_id (Specialty.id x) (Specialty.id x').

(** Everything but [parent_id]; [region_id] is settled once the
    organization is flushed. *)
Definition EducationalOrganization_same (o o' : EducationalOrganization.t) : Prop :=
  EducationalOrganization.full_name o' = EducationalOrganization.full_name o
  ∧ EducationalOrganization.short_name o' = EducationalOrganization.short_name o
  ∧ EducationalOrganization.ogrn o' = EducationalOrganization.ogrn o
  ∧ EducationalOrganization.inn o' = EducationalOrganization.inn o
  ∧ EducationalOrganization.address o' = EducationalOrganization.address o
  ∧ EducationalOrganization.region o' = EducationalOrganization.region o
  ∧ keeps_id (EducationalOrganization.id o) (EducationalOrganization.id o')
  ∧ (is_Some (EducationalOrganization.id o) →
     EducationalOrganization.region_id o' = EducationalOrganization.region_id o).

Definition EducationalProgram_same (p p' : EducationalProgram.t) : Prop :=
  EducationalProgram.organization_id p' = EducationalProgram.organization_id p
  ∧ EducationalProgram.specialty_id p' = EducationalProgram.specialty_id p
  ∧ keeps_id (EducationalProgram.id p) (EducationalProgram.id p').

Definition ext (t t' : Tables) : Prop :=
  ext_list Region_same (regions t) (regions t')
  ∧ ext_list SpecialtyGroup_same (specialty_groups t) (specialty_groups t')
  ∧ ext_list Specialty_same (specialties t) (specialties t')
  ∧ ext_list EducationalOrganization_same (organizations t) (organizations t')
  ∧ ext_list EducationalProgram_same (programs t) (programs t').

(** The organizations outside [T] keep their [parent_id]. *)
Definition parents_kept (T : nat → Prop) (t t' : Tables) : Prop :=
  ∀ j o o', ¬ T j →
    organizations t !! j = Some o → organizations t' !! j = Some o' →
    EducationalOrganization.parent_id o' = EducationalOrganization.parent_id o.

(** What every statement of the two passes guarantees, whether it returns
    or raises: the committed database is untouched, the session only
    grows, only the organizations in [T] are re-parented, neither commit
    nor rollback is called, and no ERROR record is logged. *)
Definition evolves (T : nat → Prop) (s s' : State) : Prop :=
  stored s' = stored s
  ∧ ext (session s) (session s')
  ∧ parents_kept T (session s) (session s')
  ∧ (∃ evs, trace s' = evs ++ trace s ∧ (Commit ∉ evs) ∧ (Rollback ∉ evs))
  ∧ (∃ recs, log s' = recs ++ log s ∧ Forall (λ r, levelname r ≠ ERROR) recs).

Definition Respects {A} (R : State → State → Prop) (m : M A) : Prop :=
  ∀ s r s', m s = (r, s') → R s s'.

Definition nobody : nat → Prop := λ _, False.

(** Every object of the session has been flushed. *)
Definition all_flushed (t : Tables) : Prop :=
  Forall (λ x, is_Some (Region.id x)) (regions t)
  ∧ Forall (λ x, is_Some (SpecialtyGroup.id x)) (specialty_groups t)
  ∧ Forall (λ x, is_Some (Specialty.id x)) (specialties t)
  ∧ Forall (λ x, is_Some (EducationalOrganization.id x)) (organizations t)
  ∧ Forall (λ x, is_Some (EducationalProgram.id x)) (programs t).

(** What a flush does to one object. *)
Definition flushed_as {A} (pk : A → option nat) (persist : nat → A → A) (x x' : A) : Prop :=
  (pk x = None ∧ ∃ n, x' = persist n x) ∨ (is_Some (pk x) ∧ x' = x).

(** [t'] is [t] with some objects flushed: the same objects at the same
    positions. *)
Definition rewritten (t t' : Tables) : Prop :=
  Forall2 Region_same (regions t) (regions t')
  ∧ Forall2 SpecialtyGroup_same (specialty_groups t) (specialty_groups t')
  ∧ Forall2 Specialty_same (specialties t) (specialties t')
  ∧ Forall2 (λ o o', EducationalOrganization_same o o'
                     ∧ EducationalOrganization.parent_id o' = EducationalOrganization.parent_id o)
      (organizations t) (organizations t')
  ∧ Forall2 EducationalProgram_same (programs t) (programs t').

(** The record declares a head organization: [is_branch] is set and
    [parent_ogrn] is a non-empty string. *)
Definition declares_parent (org_data : OrgData.t) : Prop :=
  OrgData.is_branch org_data
  && from_option truthy false (OrgData.parent_ogrn org_data) = true.

(** How often [session.commit()] was called. *)
Definition commits (tr : list Event) : nat := length (filter (λ ev, ev = Commit) tr).

Definition anyone : nat → Prop := λ _, True.

(** The state in which the handler of [session_scope] leaves a run that
    raised [e] in state [s]. *)
Definition rolled_back (e : Exn) (s : State) : State :=
  mkState (stored s) (stored s) (Rollback :: trace s)
    (mkLog ERROR (MsgDatabaseError e) :: log s) (faults s).

(** The state in which the handler around the flush that closes the first
    pass leaves the run. *)
Definition abandoned (e : Exn) (s : State) : State :=
  mkState (stored s) (stored s) (Rollback :: trace s)
    (mkLog ERROR (MsgPass1FlushError e) :: log s) (faults s).

(** The state in which the first pass starts. *)
Definition entered (s : State) : State :=
  mkState (session s) (stored s) (AppContext :: trace s)
    (mkLog INFO MsgPopulateStart :: log s) (faults s).

(** The state after [logging.<lvl>(msg)]. *)
Definition logged (lvl : Level) (msg : Message) (s : State) : State :=
  mkState (session s) (stored s) (trace s) (mkLog lvl msg :: log s) (faults s).

(** A table stays in place, up to [same]: the statements that add no
    object to it only rewrite its objects. *)
Definition table_stays {A} (table : Tables → list A) (same : A → A → Prop)
    (s s' : State) : Prop :=
  Forall2 same (table (session s)) (table (session s')).

Abbreviation organizations_stay := (table_stays organizations EducationalOrganization_same).
Abbreviation programs_stay := (table_stays programs EducationalProgram_same).

(** The in-run caches refer to what the session holds under their keys. *)
Definition orgs_cached (oc : gmap str nat) (t : Tables) : Prop :=
  ∀ k i, oc !! k = Some i →
    EducationalOrganization_by_ogrn k t = Some i
    ∧ ∃ o, organizations t !! i = Some o ∧ is_Some (EducationalOrganization.id o).

Definition regions_cached (rc : gmap str nat) (t : Tables) : Prop :=
  ∀ k r, rc !! k = Some r → ∃ x, regions t !! r = Some x ∧ Region.name x = k.

(** The organization [o] carries the values of the record [c]. *)
Definition made_from (c : OrgData.t) (o : EducationalOrganization.t) : Prop :=
  EducationalOrganization.full_name o = OrgData.full_name c
  ∧ EducationalOrganization.short_name o = Some (OrgData.short_name c)
  ∧ EducationalOrganization.ogrn o = Some (OrgData.ogrn c)
  ∧ EducationalOrganization.inn o = Some (OrgData.inn c)
  ∧ EducationalOrganization.address o = Some (OrgData.address c).

(** The organization [o] is related to, and keyed to, a flushed region
    called [name]. *)
Definition region_named (t : Tables) (o : EducationalOrganization.t) (name : str) : Prop :=
  ∃ r x, EducationalOrganization.region o = Some r
         ∧ regions t !! r = Some x
         ∧ Region.name x = name
         ∧ EducationalOrganization.region_id o = Region.id x
         ∧ is_Some (Region.id x).

(** Every organization beyond the first [n0] ones (those created by the
    run) carries the values of a record of the input, and when that record
    has an explicit region name, the organization is keyed to a region
    whose name is that field, normalized. *)
Definition created_from_input (normalize : str → str)
    (organizations_data : list OrgData.t) (n0 : nat) (t : Tables) : Prop :=
  ∀ i o, organizations t !! i = Some o → n0 ≤ i →
    ∃ c, c ∈ organizations_data ∧ made_from c o
         ∧ is_Some (EducationalOrganization.id o)
         ∧ (truthy (OrgData.region_name c) = true →
            region_named t o (normalize (OrgData.region_name c))).

(** C7 as the specification words it: the region name is the explicit
    field, trimmed and title-cased. *)
Definition region_names_are_title_cased : Prop :=
  ∀ organizations_data app db faults,
    let run := _populate_db organizations_data app (fresh db faults) in
    modelled_input organizations_data →
    completed run →
    created_from_input (λ name, title (strip name)) organizations_data
      (length (organizations db)) (stored (snd run)).

(** The organization at [j] has the key of the organization at [i] as its
    [parent_id]. *)
Definition linked (t : Tables) (i j : nat) : Prop :=
  ∃ oa ob, organizations t !! i = Some oa ∧ organizations t !! j = Some ob
           ∧ EducationalOrganization.parent_id ob = EducationalOrganization.id oa
           ∧ is_Some (EducationalOrganization.id oa).

(** C5 as the specification words it: after a completed run, a branch
    [b] that names the OGRN of the record [a], itself without a parent,
    has the key of [a] as its parent_id. *)
Definition branches_are_linked_to_their_head : Prop :=
  ∀ organizations_data app db faults a b,
    let run := _populate_db organizations_data app (fresh db faults) in
    completed run →
    a ∈ organizations_data → b ∈ organizations_data →
    truthy (OrgData.ogrn a) = true → truthy (OrgData.ogrn b) = true →
    OrgData.is_branch a = false →
    OrgData.is_branch b = true →
    OrgData.parent_ogrn b = Some (OrgData.ogrn a) →
    ∃ i j,
      EducationalOrganization_by_ogrn (OrgData.ogrn a) (stored (snd run)) = Some i
      ∧ EducationalOrganization_by_ogrn (OrgData.ogrn b) (stored (snd run)) = Some j
      ∧ linked (stored (snd run)) i j.

(** The organizations that the second pass may re-parent: those cached
    under the OGRN of a record that declares a head organization. *)
Definition branches (organizations_data : list OrgData.t) (oc : gmap str nat) : nat → Prop :=
  λ j, ∃ c, c ∈ organizations_data ∧ declares_parent c ∧ oc !! OrgData.ogrn c = Some j.

(** C4 as the specification words it: a row that exists before the run
    and whose OGRN a record carries is the same row after the run. *)
Definition existing_rows_are_untouched : Prop :=
  ∀ organizations_data app db faults i o,
    organizations db !! i = Some o →
    is_Some (EducationalOrganization.id o) →
    (∃ c, c ∈ organizations_data ∧ EducationalOrganization.ogrn o = Some (OrgData.ogrn c)) →
    organizations (stored (snd (_populate_db organizations_data app (fresh db faults)))) !! i
      = Some o.

(** The NOT NULL columns of EducationalProgram hold a value in every
    program of the session. *)
Definition programs_ok (t : Tables) : Prop :=
  Forall (λ p, is_Some (EducationalProgram.organization_id p)
               ∧ is_Some (EducationalProgram.specialty_id p)) (programs t).

Definition groups_cached (gc : gmap str nat) (t : Tables) : Prop :=
  ∀ k g, gc !! k = Some g → SpecialtyGroup_by_code k t = Some g.

Definition specialties_cached (sc : gmap str nat) (t : Tables) : Prop :=
  ∀ k j, sc !! k = Some j → Specialty_by_code k t = Some j.

(** The program [pd] of the organization with the given OGRN is in [t]:
    its group, its specialty, and a program row that pairs the key of the
    organization with the key of the specialty. *)
Definition program_stored (t : Tables) (ogrn : str) (pd : ProgData.t) : Prop :=
  ∃ i o j x p,
    EducationalOrganization_by_ogrn ogrn t = Some i ∧ organizations t !! i = Some o
    ∧ Specialty_by_code (ProgData.specialty_code pd) t = Some j
    ∧ specialties t !! j = Some x
    ∧ is_Some (SpecialtyGroup_by_code (ProgData.ugs_code pd) t)
    ∧ p ∈ programs t
    ∧ EducationalProgram.organization_id p = EducationalOrganization.id o
    ∧ EducationalProgram.specialty_id p = Specialty.id x
    ∧ is_Some (EducationalOrganization.id o) ∧ is_Some (Specialty.id x).

(** A program that the second pass does not skip. *)
Definition loadable (pd : ProgData.t) : Prop :=
  truthy (ProgData.specialty_code pd) = true ∧ truthy (ProgData.ugs_code pd) = true.

(** Everything that the input asks for is in [t]. *)
Definition loaded (t : Tables) (organizations_data : list OrgData.t) : Prop :=
  ∀ c, c ∈ organizations_data → truthy (OrgData.ogrn c) = true →
    is_Some (EducationalOrganization_by_ogrn (OrgData.ogrn c) t)
    ∧ ∀ pd, pd ∈ OrgData.programs c → loadable pd → program_stored t (OrgData.ogrn c) pd.

Definition row_counts (t : Tables) : nat * nat * nat * nat * nat :=
  (length (regions t), length (specialty_groups t), length (specialties t),
   length (organizations t), length (programs t)).

(** [t] is [t0] up to the parent_id of its organizations. *)
Definition quiet (t0 t : Tables) : Prop :=
  regions t = regions t0 ∧ specialty_groups t = specialty_groups t0
  ∧ specialties t = specialties t0 ∧ programs t = programs t0
  ∧ Forall2 (λ o o', o' = EducationalOrganization.with_parent_id
                             (EducationalOrganization.parent_id o') o)
      (organizations t0) (organizations t).

(** The caches of a run on a database [D] that holds everything already:
    they point at the rows that the queries find. *)
Definition caches_on (D : Tables) (oc gc sc : gmap str nat) : Prop :=
  (∀ k i, oc !! k = Some i → EducationalOrganization_by_ogrn k D = Some i)
  ∧ (∀ k g, gc !! k = Some g → SpecialtyGroup_by_code k D = Some g)
  ∧ (∀ k j, sc !! k = Some j → Specialty_by_code k D = Some j).

(** No organization of [t] has the OGRN [p]. *)
Definition no_ogrn (p : str) (t : Tables) : Prop :=
  Forall (λ o, EducationalOrganization.ogrn o ≠ Some p) (organizations t).

(** The warning of the second pass about the branch [c] whose head [p]
    is not found. *)
Definition parent_not_found (p : str) (c : OrgData.t) : LogRecord :=
  mkLog WARNING (MsgParentNotFound p (OrgData.ogrn c)).

(** Every call that reached the database between [s] and [s'] was
    answered: none of the failures scheduled for them was set. *)
Definition answered (s s' : State) : Prop :=
  ∃ used, faults s = used ++ faults s' ∧ Forall (λ failed, failed = false) used.

(** When [m] returns, every call that reached the database was
    answered. *)
Definition Answered {A} (m : M A) : Prop :=
  ∀ s a s', m s = (Ok a, s') → answered s s'.

(** C6 as the specification words it: after a completed run, the
    organization of a branch [c] whose declared head [p] is carried by no
    record of the input and by no stored organization has the parent_id
    it had before the run, null when the run created it. *)
Definition unknown_head_leaves_the_parent : Prop :=
  ∀ organizations_data app db faults c p,
    let run := _populate_db organizations_data app (fresh db faults) in
    completed run →
    c ∈ organizations_data → truthy (OrgData.ogrn c) = true →
    OrgData.is_branch c = true → OrgData.parent_ogrn c = Some p → truthy p = true →
    (∀ c', c' ∈ organizations_data → OrgData.ogrn c' ≠ p) →
    no_ogrn p db →
    ∃ j o,
      EducationalOrganization_by_ogrn (OrgData.ogrn c) (stored (snd run)) = Some j
      ∧ organizations (stored (snd run)) !! j = Some o
      ∧ EducationalOrganization.parent_id o
        = organizations db !! j ≫= EducationalOrganization.parent_id.

(** ** Further definitions used by the statements *)

(** A string without leading or trailing whitespace. *)
Definition trimmed (s : str) : Prop := strip s = s.

(** What the parser guarantees of a program: a non-empty, trimmed code
    and a trimmed group code. *)
Definition program_ok (p : ProgData.t) : Prop :=
  truthy (ProgData.specialty_code p) = true
  ∧ trimmed (ProgData.specialty_code p) ∧ trimmed (ProgData.ugs_code p).

(** What the parser guarantees of a record: a non-empty OGRN, every text
    trimmed, a declared head exactly for a branch, and no program without
    code. *)
Definition record_ok (c : OrgData.t) : Prop :=
  truthy (OrgData.ogrn c) = true
  ∧ (trimmed (OrgData.full_name c) ∧ trimmed (OrgData.short_name c)
     ∧ trimmed (OrgData.ogrn c) ∧ trimmed (OrgData.inn c)
     ∧ trimmed (OrgData.address c) ∧ trimmed (OrgData.region_name c))
  ∧ (is_Some (OrgData.parent_ogrn c) ↔ OrgData.is_branch c = true)
  ∧ Forall program_ok (OrgData.programs c).

(** Some known region name occurs in the address, whatever the case of
    its letters. *)
Definition names_known_region (address : str) : Prop :=
  ∃ region_name, region_name ∈ possible_regions
                 ∧ contains region_name (lower address) = true.

(** The string looks like a postal index: six digits. *)
Definition postal_index (s : str) : bool := isdigit s && bool_decide (length s = 6).

(** The statement did nothing but logging: session, committed database,
    calls and failure schedule are as they were. *)
Definition only_logs (s s' : State) : Prop :=
  session s' = session s ∧ stored s' = stored s ∧ trace s' = trace s
  ∧ faults s' = faults s ∧ ∃ recs, log s' = recs ++ log s.

(** [m] returns a value that satisfies [P] and does not depend on the
    state, having done nothing but logging. *)
Definition returns {A} (P : A → Prop) (m : M A) : Prop :=
  ∃ a, P a ∧ ∀ s, ∃ s', m s = (Ok a, s') ∧ only_logs s s'.

(** The records that [_parse_xml_files] returns for the given files. *)
Definition parsed (xml_files : list XmlFile) : list OrgData.t :=
  match fst (_parse_xml_files xml_files (fresh empty_tables [])) with
  | Ok all_organizations_data => all_organizations_data
  | Raise _ => []
  end.

(** The number of [Certificate] elements in the files. *)
Definition certificate_count (xml_files : list XmlFile) : nat :=
  sum_list ((λ f, length (certificates f)) <$> xml_files).

(** The state in which the body of [session_scope] starts. *)
Definition in_context (s : State) : State :=
  mkState (session s) (stored s) (AppContext :: trace s) (log s) (faults s).

(** The lookup of [model] under [kwargs] finds what [_get_or_create]
    creates from [kwargs] and [defaults]: a lookup that succeeds keeps
    succeeding as the session evolves, and the object created while the
    session holds none under [kwargs] is then found under [kwargs].  This
    is so when the defaults do not replace the key of the lookup. *)
Definition keyed {K D} (model : Model K D) (defaults : D) (kwargs : K) : Prop :=
  (∀ t t' instance,
     ext t t' → filter_by model kwargs t = Some instance →
     filter_by model kwargs t' = Some instance)
  ∧ (∀ s instance s',
       create model kwargs defaults s = (Ok instance, s') →
       filter_by model kwargs (session s) = None →
       filter_by model kwargs (session s') = Some instance).

(** The rows of [l] that have their key are in [l'], at their position,
    unchanged. *)
Definition kept_rows {A} (pk : A → option nat) (l l' : list A) : Prop :=
  ∀ i x, l !! i = Some x → is_Some (pk x) → l' !! i = Some x.

(** What [_extract_region_from_address] answers for an address. *)
Definition region_from_address (address : str) : option str :=
  match fst (_extract_region_from_address address (fresh empty_tables [])) with
  | Ok region => region
  | Raise _ => None
  end.

(** The name of the region that the first pass resolves for a record: the
    explicit region name, trimmed and capitalized; failing that, the
    non-empty answer of the address heuristic; failing that, none. *)
Definition expected_region (c : OrgData.t) : option str :=
  if truthy (OrgData.region_name c) then Some (capitalize (strip (OrgData.region_name c)))
  else match region_from_address (OrgData.address c) with
       | Some name => if truthy name then Some name else None
       | None => None
       end.

(** The organization [o] has the region that the first pass resolves for
    the record [c]. *)
Definition region_as_resolved (t : Tables) (c : OrgData.t)
    (o : EducationalOrganization.t) : Prop :=
  match expected_region c with
  | Some name => region_named t o name
  | None => EducationalOrganization.region o = None
            ∧ EducationalOrganization.region_id o = None
  end.

(** Every organization beyond the first [n0] ones carries the values of
    a record of the input, has its key, and has the region resolved for
    that record. *)
Definition created_with_region (organizations_data : list OrgData.t) (n0 : nat)
    (t : Tables) : Prop :=
  ∀ i o, organizations t !! i = Some o → n0 ≤ i →
    ∃ c, c ∈ organizations_data ∧ made_from c o
         ∧ is_Some (EducationalOrganization.id o)
         ∧ region_as_resolved t c o.

(** The numbers of SpecialtyGroup, Specialty and EducationalProgram
    objects. *)
Definition classifier_counts (t : Tables) : nat * nat * nat :=
  (length (specialty_groups t), length (specialties t), length (programs t)).

(** The statement adds no SpecialtyGroup, Specialty or EducationalProgram
    to the session. *)
Definition classifiers_stay (s s' : State) : Prop :=
  classifier_counts (session s') = classifier_counts (session s).

(** ** The update cycle: [DataLoader.run_update] and the command [data load]

    The calls that leave the program (the HTTP request, the file system,
    the ZIP archive) are the operations of a [Platform] over an abstract
    world: each returns or raises, and changes the world as it pleases.
    The constants of the missing module config.py are the fields of
    [Config].  Every call is recorded, as the calls on the session are. *)

(** [s.endswith(suffix)] *)
Definition endswith (suffix s : str) : bool := startswith (rev suffix) (rev s).

(** The exceptions of the library calls.  [RequestException] is a subclass
    of [OSError]; every one of them is an [Exception]. *)
Inductive LibExn :=
  OSError | RequestException | BadZipFile | ValueError | OtherException.

Definition is_OSError (e : LibExn) : bool :=
  match e with OSError | RequestException => true | _ => false end.

(** What [run_update] can raise: an exception of the parser or of the
    reconciliation, or one of a library call. *)
Inductive Error := LoaderError (e : Exn) | LibraryError (e : LibExn).

Inductive Outcome (E A : Type) : Type :=
  | Done (a : A)
  | Failed (e : E).
Arguments Done {E A} a.
Arguments Failed {E A} e.

Record Config := mkConfig {
  DATA_CACHE_PATH : str;
  ROSOBRNADZOR_DATA_URL : str }.

Class Platform (World Response : Type) := {
  (** [urlparse(url).path]: [urlparse] raises [ValueError] on a URL
      that it cannot split *)
  urlparse_path : str → Outcome LibExn str;
  (** [os.path.basename], [os.path.join] *)
  os_path_basename : str → str;
  os_path_join : str → str → str;
  (** [os.makedirs(path, exist_ok=True)] *)
  os_makedirs : str → World → Outcome LibExn () * World;
  (** [requests.get(url, stream=True, timeout=60)] *)
  requests_get : str → World → Outcome LibExn Response * World;
  (** [response.raise_for_status()] *)
  raise_for_status : Response → World → Outcome LibExn () * World;
  (** [open(path, 'wb')] and the writing of the chunks of the response *)
  write_response : str → Response → World → Outcome LibExn () * World;
  (** [zipfile.is_zipfile(path)] *)
  zipfile_is_zipfile : str → World → Outcome LibExn bool * World;
  (** [zipfile.ZipFile(path, 'r')] and [extractall(directory)] *)
  zipfile_extractall : str → str → World → Outcome LibExn () * World;
  (** [os.remove(path)] *)
  os_remove : str → World → Outcome LibExn () * World;
  (** The files that [glob] finds under [directory/*.xml], each with
      what [etree.iterparse] yields for it. *)
  xml_files_in : str → World → list XmlFile }.

(** The calls that reach the platform. *)
Inductive Syscall :=
  | MakeDirs (path : str)
  | HttpGet (url : str)
  | RaiseForStatus
  | WriteFile (path : str)
  | IsZipFile (path : str)
  | ExtractAll (archive directory : str)
  | Glob (directory : str)
  | Remove (path : str).

(** The messages of the update cycle. *)
Inductive Notice :=
  | NoticeCacheDirectory (path : str)
  | NoticeNoFilenameInUrl
  | NoticeDownloadStart (url : str)
  | NoticeDownloaded (path : str)
  | NoticeRequestError (e : LibExn)
  | NoticeDownloadError (e : Error)
  | NoticeUnpackStart (path : str)
  | NoticeNotAZipFile (path : str)
  | NoticeUnpacked (directory : str)
  | NoticeBadZipFile (path : str)
  | NoticeUnpackError (path : str) (e : Error)
  | NoticeCheckForUpdates
  | NoticeUrlNotConfigured
  | NoticeDownloadNeeded
  | NoticeUpdateStart
  | NoticeUpdateNotNeeded
  | NoticeNoArchiveName
  | NoticeDownloadFailed
  | NoticeRemovingOldFiles
  | NoticeOldFileRemoved (path : str)
  | NoticeOldFileNotRemoved (path : str) (e : LibExn)
  | NoticeUnpackFailed
  | NoticeArchiveRemoved (path : str)
  | NoticeArchiveNotRemoved (path : str) (e : LibExn)
  | NoticeNotAnArchive (filename : str)
  | NoticeNothingParsed
  | NoticeUpdateDone.

Record NoticeRecord := mkNotice { notice_level : Level; notice : Notice }.

(** A line written by [click.echo], to the standard error for [err=True]. *)
Inductive EchoText :=
  | EchoStart
  | EchoCriticalError (e : Error)
  | EchoFinished
  | EchoFinishedWithErrors.

Record EchoLine := mkEcho { text_of : EchoText; err : bool }.

#[global] Instance LibExn_eq_dec : EqDecision LibExn.
Proof. solve_decision. Defined.
#[global] Instance Error_eq_dec : EqDecision Error.
Proof. solve_decision. Defined.
#[global] Instance Syscall_eq_dec : EqDecision Syscall.
Proof. solve_decision. Defined.
#[global] Instance Notice_eq_dec : EqDecision Notice.
Proof. solve_decision. Defined.
#[global] Instance NoticeRecord_eq_dec : EqDecision NoticeRecord.
Proof. solve_decision. Defined.
#[global] Instance EchoText_eq_dec : EqDecision EchoText.
Proof. solve_decision. Defined.
#[global] Instance EchoLine_eq_dec : EqDecision EchoLine.
Proof. solve_decision. Defined.

(** The state of the update cycle: the world outside, the state of the
    loader (session, database, its log), and what the cycle itself logged,
    called and echoed, latest first. *)
Record Env (World : Type) := mkEnv {
  world : World;
  loader_state : State;
  notices : list NoticeRecord;
  syscalls : list Syscall;
  echoed : list EchoLine }.
Arguments mkEnv {World} _ _ _ _ _.
Arguments world {World} _.
Arguments loader_state {World} _.
Arguments notices {World} _.
Arguments syscalls {World} _.
Arguments echoed {World} _.

Definition IO (World A : Type) : Type := Env World → Outcome Error A * Env World.

#[global] Instance IO_ret {World} : MRet (IO World) := λ A a env, (Done a, env).
#[global] Instance IO_bind {World} : MBind (IO World) := λ A B f m env,
  match m env with
  | (Done a, env') => f a env'
  | (Failed e, env') => (Failed e, env')
  end.

(** [try: body  except <class> as e: handler e], for the exceptions that
    [caught] selects. *)
Definition try_catch {World A} (caught : Error → bool) (body : IO World A)
    (handler : Error → IO World A) : IO World A := λ env,
  match body env with
  | (Done a, env') => (Done a, env')
  | (Failed e, env') => if caught e then handler e env' else (Failed e, env')
  end.

Definition every_Exception (e : Error) : bool := true.

Definition an_OSError (e : Error) : bool :=
  match e with LibraryError e => is_OSError e | LoaderError _ => false end.

(** A statement of the parser or of the reconciliation. *)
Definition lift {World A} (m : M A) : IO World A := λ env,
  let '(r, s) := m (loader_state env) in
  (match r with Ok a => Done a | Raise e => Failed (LoaderError e) end,
   mkEnv (world env) s (notices env) (syscalls env) (echoed env)).

(** A call of the platform: it is recorded, then returns or raises. *)
Definition syscall {World A} (call : Syscall)
    (run : World → Outcome LibExn A * World) : IO World A := λ env,
  let '(r, w) := run (world env) in
  (match r with Done a => Done a | Failed e => Failed (LibraryError e) end,
   mkEnv w (loader_state env) (notices env) (call :: syscalls env) (echoed env)).

(** A function of a library that computes without touching the world:
    it returns or raises. *)
Definition library_call {World A} (r : Outcome LibExn A) : IO World A := λ env,
  (match r with Done a => Done a | Failed e => Failed (LibraryError e) end, env).

Definition notify {World} (lvl : Level) (n : Notice) : IO World unit := λ env,
  (Done (), mkEnv (world env) (loader_state env) (mkNotice lvl n :: notices env)
              (syscalls env) (echoed env)).

(** The state after a notice. *)
Definition noted {World} (lvl : Level) (n : Notice) (env : Env World) : Env World :=
  mkEnv (world env) (loader_state env) (mkNotice lvl n :: notices env)
    (syscalls env) (echoed env).

Definition click_echo {World} (t : EchoText) (to_err : bool) : IO World unit := λ env,
  (Done (), mkEnv (world env) (loader_state env) (notices env) (syscalls env)
              (mkEcho t to_err :: echoed env)).

Fixpoint for_each {World A} (body : A → IO World unit) (l : list A) : IO World unit :=
  match l with
  | [] => mret ()
  | x :: l' => body x;; for_each body l'
  end.

(** The attributes that [DataLoader.__init__] sets. *)
Record DataLoader := mkDataLoader {
  config : Config;
  cache_path : str;
  data_url : str;
  metadata_file : str;
  db_session : option () }.

Section Updater.
Context {World Response : Type} `{!Platform World Response}.

(** [DataLoader.__init__] *)
Definition DataLoader_init (config : Config) : IO World DataLoader :=
  let self :=
    mkDataLoader config (DATA_CACHE_PATH config) (ROSOBRNADZOR_DATA_URL config)
      (os_path_join (DATA_CACHE_PATH config) (u "metadata.json")) None in
  syscall (MakeDirs (cache_path self)) (os_makedirs (cache_path self));;
  notify INFO (NoticeCacheDirectory (cache_path self));;
  mret self.

(** [DataLoader._get_filename_from_url] *)
Definition _get_filename_from_url (self : DataLoader) : IO World str :=
  parsed_url_path ← library_call (urlparse_path (data_url self));
  let filename := os_path_basename parsed_url_path in
  if negb (truthy filename) then
    notify WARNING NoticeNoFilenameInUrl;;
    mret (u "data.zip")
  else mret filename.

(** [DataLoader._download_data] *)
Definition _download_data (self : DataLoader) (archive_path : str) : IO World bool :=
  notify INFO (NoticeDownloadStart (data_url self));;
  try_catch every_Exception
    (response ← syscall (HttpGet (data_url self)) (requests_get (data_url self));
     syscall RaiseForStatus (raise_for_status response);;
     syscall (WriteFile archive_path) (write_response archive_path response);;
     notify INFO (NoticeDownloaded archive_path);;
     mret true)
    (λ e, match e with
          | LibraryError RequestException =>
            notify ERROR (NoticeRequestError RequestException);; mret false
          | _ => notify ERROR (NoticeDownloadError e);; mret false
          end).

(** [DataLoader._unpack_archive] *)
Definition _unpack_archive (self : DataLoader) (archive_path : str) : IO World bool :=
  notify INFO (NoticeUnpackStart archive_path);;
  try_catch every_Exception
    (is_zip ← syscall (IsZipFile archive_path) (zipfile_is_zipfile archive_path);
     if negb is_zip then
       notify ERROR (NoticeNotAZipFile archive_path);;
       mret false
     else
       syscall (ExtractAll archive_path (cache_path self))
         (zipfile_extractall archive_path (cache_path self));;
       notify INFO (NoticeUnpacked (cache_path self));;
       mret true)
    (λ e, match e with
          | LibraryError BadZipFile =>
            notify ERROR (NoticeBadZipFile archive_path);; mret false
          | _ => notify ERROR (NoticeUnpackError archive_path e);; mret false
          end).

(** The placeholder that stands for a URL that was not configured. *)
Definition url_placeholder : str := u "URL_К_ДАННЫМ_РОСОБРНАДЗОРА".

(** [DataLoader._check_for_updates] *)
Definition _check_for_updates (self : DataLoader) : IO World bool :=
  notify INFO NoticeCheckForUpdates;;
  if negb (truthy (data_url self)) || bool_decide (data_url self = url_placeholder) then
    notify WARNING NoticeUrlNotConfigured;;
    mret false
  else
    notify INFO NoticeDownloadNeeded;;
    mret true.

(** [glob.glob(os.path.join(self.cache_path, '*.xml'))] *)
Definition glob_xml (self : DataLoader) : IO World (list XmlFile) := λ env,
  (Done (xml_files_in (cache_path self) (world env)),
   mkEnv (world env) (loader_state env) (notices env)
     (Glob (cache_path self) :: syscalls env) (echoed env)).

(** The removal of one file, with its [except OSError]. *)
Definition remove_file (removed : str → Notice) (not_removed : str → LibExn → Notice)
    (removed_level : Level) (path : str) : IO World unit :=
  try_catch an_OSError
    (syscall (Remove path) (os_remove path);;
     notify removed_level (removed path))
    (λ e, match e with
          | LibraryError e => notify WARNING (not_removed path e)
          | LoaderError _ => mret ()
          end).

(** [DataLoader.run_update] *)
Definition run_update (self : DataLoader) (app : option Flask) : IO World unit :=
  notify INFO NoticeUpdateStart;;
  needed ← _check_for_updates self;
  if negb needed then notify INFO NoticeUpdateNotNeeded
  else
    archive_filename ← _get_filename_from_url self;
    if negb (truthy archive_filename) then notify ERROR NoticeNoArchiveName
    else
      let archive_path := os_path_join (cache_path self) archive_filename in
      downloaded ← _download_data self archive_path;
      if negb downloaded then notify ERROR NoticeDownloadFailed
      else
        unpacked ←
          (if endswith (u ".zip") (lower archive_filename) then
             notify INFO NoticeRemovingOldFiles;;
             existing_xml_files ← glob_xml self;
             for_each (remove_file NoticeOldFileRemoved NoticeOldFileNotRemoved DEBUG)
               (xml_file_path <$> existing_xml_files);;
             unpacked ← _unpack_archive self archive_path;
             if negb unpacked then
               notify ERROR NoticeUnpackFailed;;
               mret false
             else
               remove_file NoticeArchiveRemoved NoticeArchiveNotRemoved INFO archive_path;;
               mret true
           else
             notify WARNING (NoticeNotAnArchive archive_filename);;
             mret true);
        if negb unpacked then mret ()
        else
          xml_files ← glob_xml self;
          parsed_data ← lift (_parse_xml_files xml_files);
          match parsed_data with
          | [] => notify WARNING NoticeNothingParsed
          | _ => lift (_populate_db parsed_data app)
          end;;
          notify INFO NoticeUpdateDone.

(** [load_data_command] of src/commands.py; [obj] is what
    [click.get_current_context().obj] holds. *)
Definition load_data_command (config : Config) (obj : option Flask) : IO World unit :=
  click_echo EchoStart false;;
  loader ← DataLoader_init config;
  success ← try_catch every_Exception
    (run_update loader obj;; mret true)
    (λ e, click_echo (EchoCriticalError e) true;; mret false);
  if success : bool then click_echo EchoFinished false
  else click_echo EchoFinishedWithErrors true.

End Updater.

(** *** Definitions used by the statements about the update cycle *)

Section UpdaterStatements.
Context {World Response : Type} `{!Platform World Response}.

(** [urlparse] accepts the URL of the loader. *)
Definition url_parses (self : DataLoader) : Prop :=
  ∃ parsed_url_path, urlparse_path (data_url self) = Done parsed_url_path.

(** The name and the path under which [run_update] saves the archive,
    for a URL that [urlparse] accepts. *)
Definition archive_filename (self : DataLoader) : str :=
  match urlparse_path (data_url self) with
  | Done parsed_url_path =>
    let filename := os_path_basename parsed_url_path in
    if truthy filename then filename else u "data.zip"
  | Failed _ => []
  end.

Definition archive_path (self : DataLoader) : str :=
  os_path_join (cache_path self) (archive_filename self).

(** The URL is configured. *)
Definition url_configured (self : DataLoader) : Prop :=
  truthy (data_url self) = true ∧ data_url self ≠ url_placeholder.

(** The three calls of the download succeed from the world [w], and
    leave the world [w']. *)
Definition download_succeeds (self : DataLoader) (path : str) (w w' : World) : Prop :=
  ∃ response w1 w2,
    requests_get (data_url self) w = (Done response, w1)
    ∧ raise_for_status response w1 = (Done (), w2)
    ∧ write_response path response w2 = (Done (), w').

(** The archive at [path] is found to be a ZIP file and is extracted,
    from the world [w] to the world [w']. *)
Definition unpack_succeeds (self : DataLoader) (path : str) (w w' : World) : Prop :=
  ∃ w1, zipfile_is_zipfile path w = (Done true, w1)
        ∧ zipfile_extractall path (cache_path self) w1 = (Done (), w').

(** Only the world, the notices and the recorded calls differ. *)
Definition loader_untouched (env env' : Env World) : Prop :=
  loader_state env' = loader_state env ∧ echoed env' = echoed env
  ∧ (∃ recs, notices env' = recs ++ notices env)
  ∧ (∃ calls, syscalls env' = calls ++ syscalls env).

(** Every run of [m] relates the state before to the state after. *)
Definition io_respects {A} (R : Env World → Env World → Prop) (m : IO World A) : Prop :=
  ∀ env r env', m env = (r, env') → R env env'.

(** Nothing was echoed. *)
Definition same_echo (env env' : Env World) : Prop := echoed env' = echoed env.

(** The calls recorded before are still recorded. *)
Definition calls_grow (env env' : Env World) : Prop :=
  ∃ calls, syscalls env' = calls ++ syscalls env.

(** The state after a call of the platform that leaves the world [w]. *)
Definition called (call : Syscall) (w : World) (env : Env World) : Env World :=
  mkEnv w (loader_state env) (notices env) (call :: syscalls env) (echoed env).

(** The state after a statement of the loader that leaves it in [s]. *)
Definition loaded_to (s : State) (env : Env World) : Env World :=
  mkEnv (world env) s (notices env) (syscalls env) (echoed env).

(** The calls of the download. *)
Definition download_call (c : Syscall) : bool :=
  match c with HttpGet _ | RaiseForStatus | WriteFile _ => true | _ => false end.

(** The world after the removal of the files, one after the other. *)
Definition after_removals (paths : list str) (w : World) : World :=
  foldl (λ w path, snd (os_remove path w)) w paths.

(** [os.remove] raises nothing but [OSError]. *)
Definition remove_raises_OSError : Prop :=
  ∀ path w e w', os_remove path w = (Failed e, w') → is_OSError e = true.


End UpdaterStatements.

(** *** A platform in memory

    A world small enough to run the update cycle on: the portal serves a
    ZIP archive of XML files, or something that is no archive, or is
    unreachable; the cache directory holds XML files and possibly the
    file saved by the download. *)
Inductive Served := ZipOf (members : list XmlFile) | NotAnArchive.

Record MemoryWorld := mkMemoryWorld {
  served : option Served;
  cached : list XmlFile;
  saved : option (str * Served) }.

Definition slash : N := 47%N.

(** The text after the last slash. *)
Definition after_last_slash (p : str) : str :=
  rev (item (split1 slash (rev p)) 0).

Definition memory_is_zipfile (path : str) (w : MemoryWorld) : bool :=
  match saved w with
  | Some (p, ZipOf _) => bool_decide (p = path)
  | _ => false
  end.

Definition memory_extractall (path directory : str) (w : MemoryWorld)
    : Outcome LibExn () * MemoryWorld :=
  match saved w with
  | Some (p, ZipOf members) =>
    if bool_decide (p = path)
    then (Done (), mkMemoryWorld (served w) (cached w ++ members) (saved w))
    else (Failed OSError, w)
  | Some (_, NotAnArchive) => (Failed BadZipFile, w)
  | None => (Failed OSError, w)
  end.

Definition memory_remove (path : str) (w : MemoryWorld)
    : Outcome LibExn () * MemoryWorld :=
  if bool_decide (path ∈ xml_file_path <$> cached w) then
    (Done (), mkMemoryWorld (served w)
                (filter (λ f, xml_file_path f ≠ path) (cached w)) (saved w))
  else if bool_decide (fst <$> saved w = Some path) then
    (Done (), mkMemoryWorld (served w) (cached w) None)
  else (Failed OSError, w).

(** The URLs are paths; one with an opening bracket and no closing one
    is refused, as [urlparse] refuses the host of [http://[::1/data.zip]. *)
Definition memory_urlparse (url : str) : Outcome LibExn str :=
  if bool_decide (91%N ∈ url) && negb (bool_decide (93%N ∈ url))
  then Failed ValueError else Done url.

#[global] Instance MemoryPlatform : Platform MemoryWorld Served := {|
  urlparse_path := memory_urlparse;
  os_path_basename := after_last_slash;
  os_path_join := λ directory name, directory ++ slash :: name;
  os_makedirs := λ path w, (Done (), w);
  requests_get := λ url w,
    match served w with
    | Some response => (Done response, w)
    | None => (Failed RequestException, w)
    end;
  raise_for_status := λ response w, (Done (), w);
  write_response := λ path response w,
    (Done (), mkMemoryWorld (served w) (cached w) (Some (path, response)));
  zipfile_is_zipfile := λ path w, (Done (memory_is_zipfile path w), w);
  zipfile_extractall := memory_extractall;
  os_remove := memory_remove;
  xml_files_in := λ directory w, cached w |}.

Definition sample_config : Config :=
  mkConfig (u "cache") (u "https://portal.example/opendata/data.zip").

(** A loader whose URL is configured and malformed. *)
Definition malformed_loader : DataLoader :=
  mkDataLoader (mkConfig (u "cache") (u "https://[::1/opendata/data.zip")) (u "cache")
    (u "https://[::1/opendata/data.zip") (u "cache/metadata.json") None.

Definition sample_loader : DataLoader :=
  mkDataLoader sample_config (u "cache") (u "https://portal.example/opendata/data.zip")
    (u "cache/metadata.json") None.

(** A certificate of an institute that teaches nothing. *)
Definition plain_certificate : Element :=
  Elem (u "Certificate") None
    [Elem (u "ActualEducationOrganization") None
       [leaf "FullName" "Institute"; leaf "OGRN" "1027700000001"]].

Definition old_file : XmlFile := mkXmlFile (u "cache/old.xml") [] false.
Definition new_file : XmlFile := mkXmlFile (u "cache/data.xml") [plain_certificate] false.

(** The state before the command runs, on the given world and database. *)
Definition boot {World} (w : World) (db : Tables) : Env World :=
  mkEnv w (fresh db []) [] [] [].

(** * Properties *)

(** ** The monad *)

Lemma bind_Ok {A B} (m : M A) (f : A → M B) s b s' :
  (m ≫= f) s = (Ok b, s') ↔ ∃ a s1, m s = (Ok a, s1) ∧ f a s1 = (Ok b, s').
Proof.
  unfold mbind, M_bind. destruct (m s) as [[a|e] s1]; split.
  - eauto.
  - by intros (? & ? & [= <- <-] & ?).
  - done.
  - by intros (? & ? & ? & ?).
Qed.

Lemma bind_eq {A B} (m : M A) (f : A → M B) s :
  (m ≫= f) s = match m s with (Ok a, s1) => f a s1 | (Raise e, s1) => (Raise e, s1) end.
Proof. reflexivity. Qed.

Lemma bind_run_Ok {A B} (m : M A) (f : A → M B) s a s1 :
  m s = (Ok a, s1) → (m ≫= f) s = f a s1.
Proof. intros H. by rewrite bind_eq, H. Qed.

Lemma bind_run_Raise {A B} (m : M A) (f : A → M B) s e s1 :
  m s = (Raise e, s1) → (m ≫= f) s = (Raise e, s1).
Proof. intros H. by rewrite bind_eq, H. Qed.

Lemma ret_run {A} (a : A) s : (mret a : M A) s = (Ok a, s).
Proof. reflexivity. Qed.


Lemma logging_run lvl msg s : logging lvl msg s = (Ok (), logged lvl msg s).
Proof. reflexivity. Qed.

Lemma logging_bind {B} lvl msg (f : () → M B) s :
  (logging lvl msg ≫= f) s = f () (logged lvl msg s).
Proof. reflexivity. Qed.

Lemma foldM_cons {A B} (f : B → A → M B) x l b :
  foldM f (x :: l) b = (b' ← f b x; foldM f l b').
Proof. reflexivity. Qed.

(** ** Strings *)

Lemma split1_without_sep sep (s : str) : sep ∉ s → split1 sep s = [s].
Proof.
  induction s as [|c r IH]; intros Hs; [done|].
  apply not_elem_of_cons in Hs as [Hne Hr]. simpl.
  destruct (N.eqb_spec c sep) as [->|_]; [done|]. by rewrite IH.
Qed.

Lemma find_none_iff {A} (f : A → bool) (l : list A) :
  (∀ x, x ∈ l → f x = false) → List.find f l = None.
Proof.
  induction l as [|x l IH]; intros H; [done|]. simpl.
  rewrite (H x) by apply list_elem_of_here. apply IH. intros y Hy.
  apply H. by apply list_elem_of_further.
Qed.

(** ** The parser keeps the programs marked ["0"] *)

(** Which program elements reach [org_data['programs']]: exactly those
    whose [IsAccredited] text is ["0"] and whose code is not empty. *)
Lemma parse_program_kept ogrn programs program_elem s :
  _get_text program_elem (u "IsAccredited") (u "1") = u "0" →
  truthy (_get_text program_elem (u "ProgrammCode") []) = true →
  ∃ prog_data,
    parse_program ogrn programs program_elem s = (Ok (programs ++ [prog_data]), s)
    ∧ ProgData.specialty_code prog_data = _get_text program_elem (u "ProgrammCode") [].
Proof.
  intros Hacc Hcode. unfold parse_program. rewrite Hacc.
  rewrite bool_decide_eq_true_2 by done. simpl. rewrite Hcode. eauto.
Qed.

Lemma parse_program_dropped ogrn programs program_elem s :
  _get_text program_elem (u "IsAccredited") (u "1") ≠ u "0" →
  parse_program ogrn programs program_elem s = (Ok programs, s).
Proof.
  intros Hacc. unfold parse_program. by rewrite bool_decide_eq_false_2.
Qed.

(** C1 (the code departs from the claim): on a certificate that lists a
    program marked [IsAccredited = 0] (not accredited) and a program
    marked [IsAccredited = 1], the parsed record holds the program marked
    not accredited, and only that one. *)
Theorem C1_not_accredited_program_is_kept :
  ∀ s, ∃ org_data,
    fst (_parse_xml_files [sample_file] s) = Ok [org_data]
    ∧ ProgData.specialty_code <$> OrgData.programs org_data = [u "09.03.01"]
    ∧ _get_text (sample_program "0" "09.03.01") (u "IsAccredited") (u "1") = u "0".
Proof. intros s. eexists. vm_compute. split; [reflexivity|]. split; reflexivity. Qed.

(** ** The address heuristic *)

(** C8: the address "123456, Московская область, г. Подольск" yields the
    region name "Московская область", and an address in which no known
    region name occurs (whatever the case of its letters) and which has no
    comma yields [None]. *)
Theorem C8_region_from_address :
  (∀ s, fst (_extract_region_from_address podolsk s) = Ok (Some (u "Московская область"))
        ∧ contains (u "Московская область") (u "Московская область") = true)
  ∧ (∀ address s,
       (∀ region_name, region_name ∈ possible_regions →
                       contains region_name (lower address) = false) →
       comma ∉ address →
       fst (_extract_region_from_address address s) = Ok None).
Proof.
  split.
  - intros s. split; by vm_compute.
  - intros address s Hnone Hcomma. unfold _extract_region_from_address.
    rewrite find_none_iff by done.
    rewrite split1_without_sep by done. reflexivity.
Qed.

Lemma C8_region_from_address_witness :
  fst (_extract_region_from_address (u "Тверь") (fresh empty_tables [])) = Ok None.
Proof.
  apply (proj2 C8_region_from_address).
  - intros region_name Hin. revert region_name Hin. apply Forall_forall.
    vm_compute. repeat constructor.
  - apply (bool_decide_unpack _). by vm_compute.
Defined.

(** ** Empty input *)

(** C10: with no record to load, [_populate_db] returns normally whatever
    [app] is, touching neither the session nor the database: no call is
    recorded, only two INFO records are logged.  With at least one record
    and no application it raises [RuntimeError]. *)
Theorem C10_empty_input_needs_no_context :
  (∀ app s,
     _populate_db [] app s =
       (Ok (), mkState (session s) (stored s) (trace s)
                 (mkLog INFO MsgNoData :: mkLog INFO MsgPopulateStart :: log s) (faults s)))
  ∧ (∀ org_data organizations_data s,
       fst (_populate_db (org_data :: organizations_data) None s) = Raise RuntimeError
       ∧ trace (snd (_populate_db (org_data :: organizations_data) None s)) = trace s
       ∧ session (snd (_populate_db (org_data :: organizations_data) None s)) = session s).
Proof. split; [intros app s | intros org_data l s; split_and!]; reflexivity. Qed.

(** ** Extension of tables *)

Lemma ext_list_refl {A} (same : A → A → Prop) l :
  (∀ x, same x x) → ext_list same l l.
Proof. intros Hr i x Hx. eauto. Qed.

Lemma ext_list_trans {A} (same : A → A → Prop) l1 l2 l3 :
  (∀ x y z, same x y → same y z → same x z) →
  ext_list same l1 l2 → ext_list same l2 l3 → ext_list same l1 l3.
Proof.
  intros Ht H12 H23 i x Hx.
  destruct (H12 i x Hx) as (y & Hy & Hxy).
  destruct (H23 i y Hy) as (z & Hz & Hyz). eauto.
Qed.

Lemma ext_list_app {A} (same : A → A → Prop) l k :
  (∀ x, same x x) → ext_list same l (l ++ k).
Proof. intros Hr i x Hx. exists x. split; [by apply lookup_app_l_Some | done]. Qed.

Lemma ext_list_alter {A} (same : A → A → Prop) (f : A → A) j l :
  (∀ x, same x x) → (∀ x, same x (f x)) → ext_list same l (alter f j l).
Proof.
  intros Hr Hf i x Hx. destruct (decide (i = j)) as [->|Hne].
  - exists (f x). by rewrite list_lookup_alter_eq, Hx.
  - exists x. by rewrite list_lookup_alter_ne.
Qed.

Lemma ext_list_Forall2 {A} (same : A → A → Prop) l l' :
  Forall2 same l l' → ext_list same l l'.
Proof.
  intros H i x Hx. destruct (Forall2_lookup_l _ _ _ _ _ H Hx) as (y & ? & ?). eauto.
Qed.

Lemma ext_list_length {A} (same : A → A → Prop) l l' :
  ext_list same l l' → length l ≤ length l'.
Proof.
  intros H. destruct (decide (length l ≤ length l')) as [|Hn]; [done|].
  destruct (lookup_lt_is_Some_2 l (length l')) as [x Hx]; [lia|].
  destruct (H _ _ Hx) as (x' & Hx' & _).
  apply lookup_lt_Some in Hx'. lia.
Qed.

Lemma lookup_last_added {A} (l : list A) x : (l ++ [x]) !! length l = Some x.
Proof. by rewrite lookup_app_r, Nat.sub_diag. Qed.

(** ** The first matching row *)

Lemma first_ref_Some {A} (P : A → Prop) `{∀ x, Decision (P x)} (l : list A) i :
  first_ref P l = Some i ↔
  ∃ x, l !! i = Some x ∧ P x ∧ ∀ j y, l !! j = Some y → j < i → ¬ P y.
Proof.
  unfold first_ref. split.
  - destruct (list_find P l) as [[i' x]|] eqn:E; [|done].
    intros [= <-]. apply list_find_Some in E. by exists x.
  - intros (x & Hx & HP & Hmin).
    assert (list_find P l = Some (i, x)) as ->; [|done].
    apply list_find_Some. naive_solver.
Qed.

Lemma first_ref_None {A} (P : A → Prop) `{∀ x, Decision (P x)} (l : list A) :
  first_ref P l = None ↔ Forall (λ x, ¬ P x) l.
Proof.
  unfold first_ref. rewrite fmap_None. apply list_find_None.
Qed.

Lemma first_ref_lt {A} (P : A → Prop) `{∀ x, Decision (P x)} (l : list A) i :
  first_ref P l = Some i → i < length l.
Proof.
  intros (x & Hx & _)%first_ref_Some. by eapply lookup_lt_Some.
Qed.

(** A match found stays the first match when the table is extended. *)
Lemma first_ref_ext {A} (same : A → A → Prop) (P : A → Prop) `{∀ x, Decision (P x)} l l' i :
  (∀ x x', same x x' → P x ↔ P x') →
  ext_list same l l' → first_ref P l = Some i → first_ref P l' = Some i.
Proof.
  intros HP Hext (x & Hx & HPx & Hmin)%first_ref_Some.
  apply first_ref_Some. destruct (Hext _ _ Hx) as (x' & Hx' & Hsame).
  exists x'. split_and!; [done|by apply (HP x x')|].
  intros j y' Hy' Hlt HPy'.
  destruct (lookup_lt_is_Some_2 l j) as [y Hy].
  { apply lookup_lt_Some in Hx. lia. }
  destruct (Hext _ _ Hy) as (y'' & Hy'' & Hsame'). simplify_eq.
  apply (Hmin j y Hy Hlt). by apply (HP y y').
Qed.

(** No match stays no match when the rows are only rewritten. *)
Lemma first_ref_None_Forall2 {A} (same : A → A → Prop) (P : A → Prop)
    `{∀ x, Decision (P x)} l l' :
  (∀ x x', same x x' → P x ↔ P x') →
  Forall2 same l l' → first_ref P l = None → first_ref P l' = None.
Proof.
  intros HP H2 Hn%first_ref_None. apply first_ref_None.
  induction H2 as [|x x' l l' Hs _ IH]; [done|].
  inversion_clear Hn. constructor; [|by apply IH].
  by rewrite <- (HP x x').
Qed.

(** The object appended after an unsuccessful search is the first match. *)
Lemma first_ref_app_new {A} (P : A → Prop) `{∀ x, Decision (P x)} l x :
  first_ref P l = None → P x → first_ref P (l ++ [x]) = Some (length l).
Proof.
  intros Hn%first_ref_None HPx. apply first_ref_Some. exists x. split_and!.
  - by rewrite lookup_app_r, Nat.sub_diag.
  - done.
  - intros j y Hy Hlt. rewrite lookup_app_l in Hy by done.
    rewrite Forall_forall in Hn. apply Hn. by eapply list_elem_of_lookup_2.
Qed.

Lemma first_ref_app_other {A} (P : A → Prop) `{∀ x, Decision (P x)} l x :
  first_ref P l = None → ¬ P x → first_ref P (l ++ [x]) = None.
Proof.
  intros Hn%first_ref_None HPx. apply first_ref_None.
  apply Forall_app. split; [done|]. by constructor.
Qed.

(** ** Flushing one table *)

Section FlushRowsFacts.
Context {A : Type} (pk : A → option nat) (persist : nat → A → A)
        (accepts : list A → A → bool).
Hypothesis pk_persist : ∀ n x, pk (persist n x) = Some n.

Lemma flush_rows_spec done todo l' :
  flush_rows pk persist accepts done todo = Some l' →
  ∃ todo', l' = done ++ todo' ∧ Forall2 (flushed_as pk persist) todo todo'.
Proof.
  revert done. induction todo as [|x rest IH]; intros done Hf; simpl in Hf.
  - exists []. simplify_eq. by rewrite app_nil_r.
  - destruct (pk x) as [n|] eqn:Hpk.
    + destruct (IH _ Hf) as (todo' & -> & H2). exists (x :: todo').
      rewrite <- app_assoc. split; [done|]. constructor; [|done].
      right. by rewrite Hpk.
    + destruct (accepts (done ++ rest) x); [|done].
      destruct (IH _ Hf) as (todo' & -> & H2).
      exists (persist (next_id pk (done ++ rest)) x :: todo').
      rewrite <- app_assoc. split; [done|]. constructor; [|done].
      left. eauto.
Qed.

Lemma flush_rows_flushed done todo :
  Forall (λ x, is_Some (pk x)) todo →
  flush_rows pk persist accepts done todo = Some (done ++ todo).
Proof.
  revert done. induction todo as [|x rest IH]; intros done Hall; simpl.
  - by rewrite app_nil_r.
  - inversion_clear Hall as [|?? [n Hn] Hrest]. rewrite Hn.
    rewrite IH by done. by rewrite <- app_assoc.
Qed.

Lemma flushed_as_is_Some l l' :
  Forall2 (flushed_as pk persist) l l' → Forall (λ x, is_Some (pk x)) l'.
Proof.
  induction 1 as [|x x' l l' Hx _ IH]; constructor; [|done].
  destruct Hx as [(_ & n & ->)|[? ->]]; [|done]. rewrite pk_persist. eauto.
Qed.

(** The last object is pending, the others are flushed. *)
Lemma flush_rows_last l x :
  Forall (λ y, is_Some (pk y)) l → pk x = None →
  flush_rows pk persist accepts [] (l ++ [x]) =
    if accepts l x then Some (l ++ [persist (next_id pk l) x]) else None.
Proof.
  intros Hall Hx.
  assert (∀ done, flush_rows pk persist accepts done (l ++ [x]) =
                  if accepts (done ++ l) x
                  then Some (done ++ l ++ [persist (next_id pk (done ++ l)) x]) else None) as Hgen.
  { induction Hall as [|y l [n Hn] _ IH]; intros done; simpl.
    - rewrite Hx, !app_nil_r. destruct (accepts done x); [|done]. done.
    - rewrite Hn, IH. rewrite <- !app_assoc. done. }
  apply (Hgen []).
Qed.

End FlushRowsFacts.

(** ** The relations are preorders *)

Lemma keeps_id_refl a : keeps_id a a.
Proof. by intros ?. Qed.

Lemma keeps_id_trans a b c : keeps_id a b → keeps_id b c → keeps_id a c.
Proof. unfold keeps_id. intros Hab Hbc Ha. rewrite Hbc; rewrite Hab; done. Qed.

Lemma Region_same_refl r : Region_same r r.
Proof. split; [done|apply keeps_id_refl]. Qed.

Lemma Region_same_trans a b c : Region_same a b → Region_same b c → Region_same a c.
Proof.
  intros [? ?] [? ?]. split; [congruence|by eapply keeps_id_trans].
Qed.

Lemma SpecialtyGroup_same_refl g : SpecialtyGroup_same g g.
Proof. split_and!; [done..|apply keeps_id_refl]. Qed.

Lemma SpecialtyGroup_same_trans a b c :
  SpecialtyGroup_same a b → SpecialtyGroup_same b c → SpecialtyGroup_same a c.
Proof.
  intros (?&?&?) (?&?&?). split_and!; [congruence..|by eapply keeps_id_trans].
Qed.

Lemma Specialty_same_refl x : Specialty_same x x.
Proof. split_and!; [done..|apply keeps_id_refl]. Qed.

Lemma Specialty_same_trans a b c :
  Specialty_same a b → Specialty_same b c → Specialty_same a c.
Proof.
  intros (?&?&?&?) (?&?&?&?). split_and!; [congruence..|by eapply keeps_id_trans].
Qed.

Lemma EducationalOrganization_same_refl o : EducationalOrganization_same o o.
Proof. split_and!; [done..|apply keeps_id_refl|done]. Qed.

Lemma EducationalOrganization_same_trans a b c :
  EducationalOrganization_same a b → EducationalOrganization_same b c →
  EducationalOrganization_same a c.
Proof.
  intros (?&?&?&?&?&?&Hk1&Hr1) (?&?&?&?&?&?&Hk2&Hr2).
  split_and!; [congruence..|by eapply keeps_id_trans|].
  intros Ha. rewrite Hr2, Hr1; [done..|]. rewrite (Hk1 Ha). done.
Qed.

Lemma EducationalProgram_same_refl p : EducationalProgram_same p p.
Proof. split_and!; [done..|apply keeps_id_refl]. Qed.

Lemma EducationalProgram_same_trans a b c :
  EducationalProgram_same a b → EducationalProgram_same b c → EducationalProgram_same a c.
Proof.
  intros (?&?&?) (?&?&?). split_and!; [congruence..|by eapply keeps_id_trans].
Qed.

Lemma ext_refl t : ext t t.
Proof.
  split_and!; apply ext_list_refl;
    auto using Region_same_refl, SpecialtyGroup_same_refl, Specialty_same_refl,
      EducationalOrganization_same_refl, EducationalProgram_same_refl.
Qed.

Lemma ext_trans t1 t2 t3 : ext t1 t2 → ext t2 t3 → ext t1 t3.
Proof.
  intros (?&?&?&?&?) (?&?&?&?&?).
  split_and!; eapply ext_list_trans;
    eauto using Region_same_trans, SpecialtyGroup_same_trans, Specialty_same_trans,
      EducationalOrganization_same_trans, EducationalProgram_same_trans.
Qed.

Lemma evolves_refl T s : evolves T s s.
Proof.
  split_and!; [done|apply ext_refl| |by exists []; split_and!; [|apply not_elem_of_nil..]|by exists []].
  intros j o o' _ Ho Ho'. congruence.
Qed.

Lemma evolves_trans T s1 s2 s3 : evolves T s1 s2 → evolves T s2 s3 → evolves T s1 s3.
Proof.
  intros (Hst1 & Hext1 & Hp1 & (evs1 & Ht1 & Hc1 & Hr1) & (l1 & Hl1 & He1))
         (Hst2 & Hext2 & Hp2 & (evs2 & Ht2 & Hc2 & Hr2) & (l2 & Hl2 & He2)).
  split_and!.
  - congruence.
  - by eapply ext_trans.
  - intros j o o'' HT Ho Ho''.
    destruct Hext1 as (_&_&_&Hext1&_). destruct (Hext1 _ _ Ho) as (o' & Ho' & _).
    rewrite (Hp2 j o' o'' HT Ho' Ho''). by apply (Hp1 j o o').
  - exists (evs2 ++ evs1). rewrite Ht2, Ht1, app_assoc.
    split_and!; [done|..]; rewrite elem_of_app; tauto.
  - exists (l2 ++ l1). rewrite Hl2, Hl1, app_assoc. split; [done|by apply Forall_app].
Qed.

Lemma evolves_mono (T T' : nat → Prop) s s' :
  (∀ j, T j → T' j) → evolves T s s' → evolves T' s s'.
Proof.
  intros HT (?&?&Hp&?&?). split_and!; [done..| |done|done].
  intros j o o' Hn. apply Hp. intros ?. apply Hn. auto.
Qed.

(** ** Closure of [Respects] under the constructs of the monad *)

Section RespectsClosure.
Context (R : State → State → Prop).
Hypothesis R_refl : ∀ s, R s s.
Hypothesis R_trans : ∀ s1 s2 s3, R s1 s2 → R s2 s3 → R s1 s3.

Lemma respects_ret {A} (a : A) : Respects R (mret a).
Proof using R_refl. intros s r s' [= <- <-]. apply R_refl. Qed.

Lemma respects_raise {A} e : Respects R (raise e : M A).
Proof using R_refl. intros s r s' [= <- <-]. apply R_refl. Qed.

Lemma respects_gets {A} (f : State → A) : Respects R (gets f).
Proof using R_refl. intros s r s' [= <- <-]. apply R_refl. Qed.

Lemma respects_bind {A B} (m : M A) (f : A → M B) :
  Respects R m → (∀ a, Respects R (f a)) → Respects R (m ≫= f).
Proof using R_trans.
  intros Hm Hf s r s'. rewrite bind_eq.
  destruct (m s) as [[a|e] s1] eqn:E.
  - intros Hfa. eapply R_trans; [by eapply Hm|by eapply Hf].
  - intros [= <- <-]. by eapply Hm.
Qed.

Lemma respects_foldM {A B} (f : B → A → M B) l b :
  (∀ b x, Respects R (f b x)) → Respects R (foldM f l b).
Proof using R_refl R_trans.
  intros Hf. revert b. induction l as [|x l IH]; intros b; simpl.
  - apply respects_ret.
  - apply respects_bind; [apply Hf|intros b'; apply IH].
Qed.

Lemma respects_try_except {A} (body : M A) handler :
  Respects R body → (∀ e, Respects R (handler e)) → Respects R (try_except body handler).
Proof using R_trans.
  intros Hb Hh s r s'. unfold try_except.
  destruct (body s) as [[a|e] s1] eqn:E.
  - intros [= <- <-]. by eapply Hb.
  - intros He. eapply R_trans; [by eapply Hb|by eapply Hh].
Qed.

End RespectsClosure.

(** ** What a flush does to the session *)

Lemma flush_inv t t' :
  flush t = Some t' →
  Forall2 (flushed_as Region.id Region_persist) (regions t) (regions t')
  ∧ Forall2 (flushed_as SpecialtyGroup.id SpecialtyGroup_persist)
      (specialty_groups t) (specialty_groups t')
  ∧ Forall2 (flushed_as Specialty.id Specialty_persist) (specialties t) (specialties t')
  ∧ Forall2 (flushed_as EducationalOrganization.id
               (EducationalOrganization_persist (regions t')))
      (organizations t) (organizations t')
  ∧ Forall2 (flushed_as EducationalProgram.id EducationalProgram_persist)
      (programs t) (programs t').
Proof.
  unfold flush. intros H.
  destruct (flush_rows Region.id _ _ _ _) as [rs|] eqn:Er; [simpl in H|done].
  destruct (flush_rows SpecialtyGroup.id _ _ _ _) as [gs|] eqn:Eg; [simpl in H|done].
  destruct (flush_rows EducationalOrganization.id _ _ _ _) as [os|] eqn:Eo; [simpl in H|done].
  destruct (flush_rows Specialty.id _ _ _ _) as [ss|] eqn:Es; [simpl in H|done].
  destruct (flush_rows EducationalProgram.id _ _ _ _) as [ps|] eqn:Ep; [simpl in H|done].
  injection H as <-. simpl.
  apply flush_rows_spec in Er as (? & -> & ?), Eg as (? & -> & ?), Eo as (? & -> & ?),
    Es as (? & -> & ?), Ep as (? & -> & ?).
  done.
Qed.

Lemma flush_rewritten t t' : flush t = Some t' → rewritten t t'.
Proof.
  intros (Hr & Hg & Hs & Ho & Hp)%flush_inv. split_and!.
  - eapply Forall2_impl; [exact Hr|]. intros x x' [(Hx & n & ->)|[_ ->]].
    + split; [done|]. intros [? ?]. congruence.
    + apply Region_same_refl.
  - eapply Forall2_impl; [exact Hg|]. intros x x' [(Hx & n & ->)|[_ ->]].
    + split_and!; [done..|]. intros [? ?]. congruence.
    + apply SpecialtyGroup_same_refl.
  - eapply Forall2_impl; [exact Hs|]. intros x x' [(Hx & n & ->)|[_ ->]].
    + split_and!; [done..|]. intros [? ?]. congruence.
    + apply Specialty_same_refl.
  - eapply Forall2_impl; [exact Ho|]. intros x x' [(Hx & n & ->)|[_ ->]].
    + split; [|done]. split_and!; [done..| |]; intros [? ?]; congruence.
    + split; [apply EducationalOrganization_same_refl|done].
  - eapply Forall2_impl; [exact Hp|]. intros x x' [(Hx & n & ->)|[_ ->]].
    + split_and!; [done..|]. intros [? ?]. congruence.
    + apply EducationalProgram_same_refl.
Qed.

Lemma flush_all_flushed t t' : flush t = Some t' → all_flushed t'.
Proof.
  intros (Hr & Hg & Hs & Ho & Hp)%flush_inv.
  split_and!; eapply flushed_as_is_Some; try eassumption; done.
Qed.

Lemma flush_id t : all_flushed t → flush t = Some t.
Proof.
  intros (Hr & Hg & Hs & Ho & Hp). destruct t as [rs gs ss os ps]. simpl in *.
  unfold flush. simpl.
  rewrite (flush_rows_flushed Region.id) by done. simpl.
  rewrite (flush_rows_flushed SpecialtyGroup.id) by done. simpl.
  rewrite (flush_rows_flushed EducationalOrganization.id) by done. simpl.
  rewrite (flush_rows_flushed Specialty.id) by done. simpl.
  rewrite (flush_rows_flushed EducationalProgram.id) by done. done.
Qed.

Lemma rewritten_ext t t' : rewritten t t' → ext t t'.
Proof.
  intros (Hr & Hg & Hs & Ho & Hp). split_and!; apply ext_list_Forall2; try done.
  eapply Forall2_impl; [exact Ho|]. by intros ?? [? _].
Qed.

Lemma rewritten_parents T t t' : rewritten t t' → parents_kept T t t'.
Proof.
  intros (_ & _ & _ & Ho & _) j o o' _ Hj Hj'.
  destruct (Forall2_lookup_l _ _ _ _ _ Ho Hj) as (o'' & ? & _ & ?). congruence.
Qed.

(** ** The primitive statements respect [evolves] *)

Lemma evolves_intro T s s' evs recs :
  stored s' = stored s →
  ext (session s) (session s') →
  parents_kept T (session s) (session s') →
  trace s' = evs ++ trace s → Commit ∉ evs → Rollback ∉ evs →
  log s' = recs ++ log s → Forall (λ r, levelname r ≠ ERROR) recs →
  evolves T s s'.
Proof. intros. split_and!; eauto. Qed.

Lemma parents_kept_refl T t : parents_kept T t t.
Proof. intros j o o' _ ??. congruence. Qed.

Lemma parents_kept_same T t t' :
  organizations t' = organizations t → parents_kept T t t'.
Proof. intros E j o o' _ ??. congruence. Qed.

Lemma respects_logging T lvl msg :
  lvl ≠ ERROR → Respects (evolves T) (logging lvl msg).
Proof.
  intros Hlvl s r s' [= <- <-].
  apply (evolves_intro _ _ _ [] [mkLog lvl msg]); simpl;
    auto using ext_refl, parents_kept_refl, not_elem_of_nil.
Qed.

Lemma respects_record T ev :
  ev ≠ Commit → ev ≠ Rollback → Respects (evolves T) (record ev).
Proof.
  intros ?? s r s' [= <- <-].
  apply (evolves_intro _ _ _ [ev] []); simpl;
    auto using ext_refl, parents_kept_refl; by apply not_elem_of_cons; split; [|apply not_elem_of_nil].
Qed.

Lemma respects_storage_call T ev :
  ev ≠ Commit → ev ≠ Rollback → Respects (evolves T) (storage_call ev).
Proof.
  intros ?? s r s' Hrun.
  assert (s' = mkState (session s) (stored s) (ev :: trace s) (log s) (tail (faults s))) as ->.
  { unfold storage_call in Hrun. destruct (faults s) as [|[] ?]; by simplify_eq. }
  apply (evolves_intro _ _ _ [ev] []); simpl;
    auto using ext_refl, parents_kept_refl; by apply not_elem_of_cons; split; [|apply not_elem_of_nil].
Qed.

Lemma respects_autoflush T : Respects (evolves T) autoflush.
Proof.
  intros s r s'. unfold autoflush, set_session.
  destruct (flush (session s)) as [t|] eqn:E; intros [= <- <-].
  - apply flush_rewritten in E.
    apply (evolves_intro _ _ _ [] []); simpl;
      auto using rewritten_ext, rewritten_parents, not_elem_of_nil.
  - apply evolves_refl.
Qed.

Lemma nothing_pending_all_flushed t : nothing_pending t = true ↔ all_flushed t.
Proof.
  unfold nothing_pending, all_flushed.
  rewrite !andb_true_iff, !forallb_forall, !Forall_forall.
  setoid_rewrite bool_decide_eq_true. setoid_rewrite <- list_elem_of_In. tauto.
Qed.

(** The two ways of [session.flush()]. *)
Lemma respects_flush_cases (R : State → State → Prop) :
  Respects R (record Flush) → Respects R (storage_call Flush;; autoflush) →
  Respects R session_flush.
Proof.
  intros Hclean Hwork s r s'. unfold session_flush.
  destruct (nothing_pending (session s)); [apply Hclean|apply Hwork].
Qed.

Lemma respects_session_flush T : Respects (evolves T) session_flush.
Proof.
  apply respects_flush_cases; [by apply respects_record|].
  apply respects_bind; [apply evolves_trans|by apply respects_storage_call|].
  intros _. apply respects_autoflush.
Qed.

Lemma respects_session_query T {A} (first : Tables → option A) :
  Respects (evolves T) (session_query first).
Proof.
  unfold session_query.
  apply respects_bind; [apply evolves_trans|by apply respects_storage_call|intros _].
  apply respects_bind; [apply evolves_trans|by apply respects_autoflush|intros _].
  apply respects_gets, evolves_refl.
Qed.

Lemma respects_attr T {A B} (table : Tables → list A) (f : A → option B) ref :
  Respects (evolves T) (attr table f ref).
Proof. apply respects_gets, evolves_refl. Qed.

Ltac respects_add :=
  let s := fresh "s" in let r := fresh in let s' := fresh in
  intros s r s' [= <- <-];
  apply (evolves_intro _ _ _ [Add] []); simpl;
  [done
  |destruct (ext_refl (session s)) as (?&?&?&?&?); split_and!; simpl;
     first [done | apply ext_list_app;
       auto using Region_same_refl, SpecialtyGroup_same_refl, Specialty_same_refl,
         EducationalOrganization_same_refl, EducationalProgram_same_refl]
  |
  |done
  |by apply not_elem_of_cons; split; [|apply not_elem_of_nil]
  |by apply not_elem_of_cons; split; [|apply not_elem_of_nil]
  |done
  |done].

Lemma respects_add_Region T r : Respects (evolves T) (add_Region r).
Proof. respects_add. by apply parents_kept_same. Qed.

Lemma respects_add_SpecialtyGroup T g : Respects (evolves T) (add_SpecialtyGroup g).
Proof. respects_add. by apply parents_kept_same. Qed.

Lemma respects_add_Specialty T x : Respects (evolves T) (add_Specialty x).
Proof. respects_add. by apply parents_kept_same. Qed.

Lemma respects_add_EducationalProgram T p : Respects (evolves T) (add_EducationalProgram p).
Proof. respects_add. by apply parents_kept_same. Qed.

Lemma respects_add_EducationalOrganization T o :
  Respects (evolves T) (add_EducationalOrganization o).
Proof.
  respects_add. intros j x x' _ Hx Hx'. simpl in *.
  rewrite (lookup_app_l_Some _ _ _ _ Hx) in Hx'. congruence.
Qed.

Lemma respects_set_parent_id (T : nat → Prop) organization value :
  T organization → Respects (evolves T) (set_parent_id organization value).
Proof.
  intros HT s r s' [= <- <-].
  apply (evolves_intro _ _ _ [] []); simpl; auto using not_elem_of_nil.
  - destruct (ext_refl (session s)) as (?&?&?&?&?). split_and!; simpl; try done.
    apply ext_list_alter; [apply EducationalOrganization_same_refl|].
    intros o. by split_and!.
  - intros j o o' Hn Ho Ho'. simpl in *.
    rewrite list_lookup_alter_ne in Ho' by (intros ->; done). congruence.
Qed.

(** ** The two passes respect [evolves] *)

Section TableStays.
Context {A : Type} (table : Tables → list A) (same : A → A → Prop).
Hypothesis same_refl : ∀ x, same x x.
Hypothesis same_trans : ∀ x y z, same x y → same y z → same x z.
Hypothesis rewritten_table : ∀ t t', rewritten t t' → Forall2 same (table t) (table t').

Lemma table_stays_refl s : table_stays table same s s.
Proof using same_refl.
  apply Forall2_same_length_lookup. split; [done|].
  intros i x y ??. by simplify_eq.
Qed.

Lemma table_stays_trans s1 s2 s3 :
  table_stays table same s1 s2 → table_stays table same s2 s3 →
  table_stays table same s1 s3.
Proof using same_trans. unfold table_stays. by apply Forall2_trans. Qed.

(** A statement that leaves the table as it is. *)
Lemma stays_frame {B} (m : M B) :
  (∀ s r s', m s = (r, s') → table (session s') = table (session s)) →
  Respects (table_stays table same) m.
Proof using same_refl.
  intros Hm s r s' Hrun. unfold table_stays. rewrite (Hm _ _ _ Hrun).
  apply (table_stays_refl s).
Qed.

Lemma stays_logging lvl msg : Respects (table_stays table same) (logging lvl msg).
Proof using same_refl. apply stays_frame. by intros s r s' [= <- <-]. Qed.

Lemma stays_storage_call ev : Respects (table_stays table same) (storage_call ev).
Proof using same_refl.
  apply stays_frame. intros s r s'. unfold storage_call.
  destruct (faults s) as [|[] ?]; by intros [= <- <-].
Qed.

Lemma stays_autoflush : Respects (table_stays table same) autoflush.
Proof using same_refl rewritten_table.
  intros s r s'. unfold autoflush, set_session.
  destruct (flush (session s)) as [t|] eqn:E; intros [= <- <-].
  - by apply rewritten_table, flush_rewritten.
  - apply table_stays_refl.
Qed.

Lemma stays_session_flush : Respects (table_stays table same) session_flush.
Proof using same_refl same_trans rewritten_table.
  apply respects_flush_cases.
  { apply stays_frame. by intros s r s' [= <- <-]. }
  apply respects_bind; [apply table_stays_trans|apply stays_storage_call|].
  intros _. apply stays_autoflush.
Qed.

Lemma stays_session_query {B} (first : Tables → option B) :
  Respects (table_stays table same) (session_query first).
Proof using same_refl same_trans rewritten_table.
  unfold session_query.
  apply respects_bind; [apply table_stays_trans|apply stays_storage_call|intros _].
  apply respects_bind; [apply table_stays_trans|apply stays_autoflush|intros _].
  apply respects_gets, table_stays_refl.
Qed.

Lemma stays_attr {B C} (tbl : Tables → list B) (f : B → option C) ref :
  Respects (table_stays table same) (attr tbl f ref).
Proof using same_refl. apply respects_gets, table_stays_refl. Qed.

End TableStays.

Lemma rewritten_organizations t t' :
  rewritten t t' → Forall2 EducationalOrganization_same (organizations t) (organizations t').
Proof. intros (_&_&_&Ho&_). eapply Forall2_impl; [exact Ho|]. by intros ?? [? _]. Qed.

Lemma rewritten_programs t t' :
  rewritten t t' → Forall2 EducationalProgram_same (programs t) (programs t').
Proof. by intros (_&_&_&_&?). Qed.

Lemma organizations_stay_refl s : organizations_stay s s.
Proof. apply table_stays_refl, EducationalOrganization_same_refl. Qed.

Lemma organizations_stay_trans s1 s2 s3 :
  organizations_stay s1 s2 → organizations_stay s2 s3 → organizations_stay s1 s3.
Proof. apply table_stays_trans, EducationalOrganization_same_trans. Qed.

Lemma programs_stay_refl s : programs_stay s s.
Proof. apply table_stays_refl, EducationalProgram_same_refl. Qed.

Lemma programs_stay_trans s1 s2 s3 :
  programs_stay s1 s2 → programs_stay s2 s3 → programs_stay s1 s3.
Proof. apply table_stays_trans, EducationalProgram_same_trans. Qed.

Lemma stay_add_Region {A} (table : Tables → list A) same r :
  (∀ x, same x x) →
  (∀ t, table (mkTables (regions t ++ [r]) (specialty_groups t) (specialties t)
                 (organizations t) (programs t)) = table t) →
  Respects (table_stays table same) (add_Region r).
Proof. intros ? Ht. apply stays_frame; [done|]. intros s ? s' [= <- <-]. apply Ht. Qed.

Lemma stay_add_SpecialtyGroup {A} (table : Tables → list A) same g :
  (∀ x, same x x) →
  (∀ t, table (mkTables (regions t) (specialty_groups t ++ [g]) (specialties t)
                 (organizations t) (programs t)) = table t) →
  Respects (table_stays table same) (add_SpecialtyGroup g).
Proof. intros ? Ht. apply stays_frame; [done|]. intros s ? s' [= <- <-]. apply Ht. Qed.

Lemma stay_add_Specialty {A} (table : Tables → list A) same x :
  (∀ x, same x x) →
  (∀ t, table (mkTables (regions t) (specialty_groups t) (specialties t ++ [x])
                 (organizations t) (programs t)) = table t) →
  Respects (table_stays table same) (add_Specialty x).
Proof. intros ? Ht. apply stays_frame; [done|]. intros s ? s' [= <- <-]. apply Ht. Qed.

Lemma stay_add_EducationalProgram p :
  Respects organizations_stay (add_EducationalProgram p).
Proof.
  apply stays_frame; [apply EducationalOrganization_same_refl|].
  by intros s ? s' [= <- <-].
Qed.

Lemma stay_add_EducationalOrganization o :
  Respects programs_stay (add_EducationalOrganization o).
Proof.
  apply stays_frame; [apply EducationalProgram_same_refl|].
  by intros s ? s' [= <- <-].
Qed.

Lemma stay_set_parent_id organization value :
  Respects organizations_stay (set_parent_id organization value).
Proof.
  intros s ? s' [= <- <-]. unfold table_stays. simpl.
  apply Forall2_alter_r; [apply (organizations_stay_refl s)|].
  intros x y _ _ (?&?&?&?&?&?&?&?). by split_and!.
Qed.

Lemma programs_stay_set_parent_id organization value :
  Respects programs_stay (set_parent_id organization value).
Proof.
  apply stays_frame; [apply EducationalProgram_same_refl|].
  by intros s ? s' [= <- <-].
Qed.

Create HintDb respects discriminated.

#[export] Hint Resolve evolves_refl evolves_trans organizations_stay_refl
  organizations_stay_trans programs_stay_refl programs_stay_trans : respects.
#[export] Hint Resolve EducationalOrganization_same_refl EducationalOrganization_same_trans
  EducationalProgram_same_refl EducationalProgram_same_trans
  rewritten_organizations rewritten_programs : respects.
#[export] Hint Resolve respects_session_query respects_session_flush respects_attr
  respects_add_Region respects_add_SpecialtyGroup respects_add_Specialty
  respects_add_EducationalOrganization respects_add_EducationalProgram
  stays_logging stays_attr
  stay_add_EducationalProgram stay_add_EducationalOrganization
  stay_set_parent_id programs_stay_set_parent_id : respects.
#[export] Hint Extern 1 (Respects (table_stays _ _) (add_Region _)) =>
  (apply stay_add_Region; [solve [auto with respects]|done]) : respects.
#[export] Hint Extern 1 (Respects (table_stays _ _) (add_SpecialtyGroup _)) =>
  (apply stay_add_SpecialtyGroup; [solve [auto with respects]|done]) : respects.
#[export] Hint Extern 1 (Respects (table_stays _ _) (add_Specialty _)) =>
  (apply stay_add_Specialty; [solve [auto with respects]|done]) : respects.
#[export] Hint Extern 1 (Respects (table_stays _ _) (session_query _)) =>
  (apply stays_session_query; solve [eauto with respects]) : respects.
#[export] Hint Extern 1 (Respects (table_stays _ _) session_flush) =>
  (apply stays_session_flush; solve [eauto with respects]) : respects.
#[export] Hint Extern 1 (Respects (evolves _) (logging _ _)) =>
  (by apply respects_logging) : respects.

Ltac respects :=
  repeat match goal with
  | |- Respects _ (mbind _ _) =>
      apply respects_bind; [solve [eauto with respects]| |intros ?]
  | |- Respects _ (mret _) => apply respects_ret; solve [eauto with respects]
  | |- Respects _ (raise _) => apply respects_raise; solve [eauto with respects]
  | |- Respects _ (foldM _ _ _) =>
      apply respects_foldM;
        [solve [eauto with respects]|solve [eauto with respects]|intros ? ?]
  | |- Respects _ (match ?x with _ => _ end) => destruct x eqn:?
  | |- Respects _ _ => solve [auto with respects]
  end.

Lemma respects_extract_region T address :
  Respects (evolves T) (_extract_region_from_address address).
Proof. unfold _extract_region_from_address. respects. Qed.

Lemma respects_get_or_create T {K D} (model : Model K D) defaults kwargs :
  (∀ k d, Respects (evolves T) (create model k d)) →
  Respects (evolves T) (_get_or_create model defaults kwargs).
Proof. intros Hc. unfold _get_or_create. respects. Qed.

Lemma respects_region_for T regions_cache region_name :
  Respects (evolves T) (region_for regions_cache region_name).
Proof.
  unfold region_for. respects.
  apply respects_get_or_create. intros k d. simpl. respects.
Qed.

Lemma respects_pass1 T caches org_data : Respects (evolves T) (pass1 caches org_data).
Proof.
  unfold pass1. respects;
    first [apply respects_region_for | apply respects_extract_region].
Qed.

Lemma respects_link_parent (T : nat → Prop) organizations_cache org_data organization :
  (declares_parent org_data → T organization) →
  Respects (evolves T) (link_parent organizations_cache org_data organization).
Proof.
  intros HT. unfold link_parent. respects.
  apply respects_set_parent_id, HT. unfold declares_parent.
  match goal with H : OrgData.parent_ogrn _ = Some _ |- _ => by rewrite H end.
Qed.

Lemma respects_load_program T ogrn organization caches prog_data :
  Respects (evolves T) (load_program ogrn organization caches prog_data).
Proof.
  unfold load_program. respects.
  all: apply respects_get_or_create; intros k d; simpl; respects.
Qed.

Lemma respects_pass2 (T : nat → Prop) organizations_cache caches org_data :
  (∀ j, declares_parent org_data →
        organizations_cache !! OrgData.ogrn org_data = Some j → T j) →
  Respects (evolves T) (pass2 organizations_cache caches org_data).
Proof.
  intros HT. unfold pass2. respects.
  - apply respects_link_parent; eauto.
  - apply respects_load_program.
Qed.

(** Apart from the insertion of an organization in the first pass, the
    statements leave the organizations in place; apart from the insertion
    of a program in the second pass, they leave the programs in place. *)
Section CompositeStays.
Context {A : Type} (table : Tables → list A) (same : A → A → Prop).
Hypothesis same_refl : ∀ x, same x x.
Hypothesis same_trans : ∀ x y z, same x y → same y z → same x z.
Hypothesis rewritten_table : ∀ t t', rewritten t t' → Forall2 same (table t) (table t').

Lemma stay_extract_region address :
  Respects (table_stays table same) (_extract_region_from_address address).
Proof using same_refl same_trans.
  pose proof (table_stays_refl table same same_refl).
  pose proof (table_stays_trans table same same_trans).
  unfold _extract_region_from_address. respects.
Qed.

Lemma stay_get_or_create {K D} (model : Model K D) defaults kwargs :
  (∀ k d, Respects (table_stays table same) (create model k d)) →
  Respects (table_stays table same) (_get_or_create model defaults kwargs).
Proof using same_refl same_trans rewritten_table.
  pose proof (table_stays_refl table same same_refl).
  pose proof (table_stays_trans table same same_trans).
  intros Hc. unfold _get_or_create. respects.
Qed.

End CompositeStays.

Lemma stay_region_for regions_cache region_name :
  Respects organizations_stay (region_for regions_cache region_name).
Proof.
  unfold region_for. respects.
  apply stay_get_or_create; [eauto with respects..|]. intros k d. simpl. respects.
Qed.

Lemma programs_stay_region_for regions_cache region_name :
  Respects programs_stay (region_for regions_cache region_name).
Proof.
  unfold region_for. respects.
  apply stay_get_or_create; [eauto with respects..|]. intros k d. simpl. respects.
Qed.

Lemma programs_stay_pass1 caches org_data : Respects programs_stay (pass1 caches org_data).
Proof.
  unfold pass1. respects;
    first [apply programs_stay_region_for
          |apply stay_extract_region; eauto with respects].
Qed.

Lemma programs_stay_link_parent organizations_cache org_data organization :
  Respects programs_stay (link_parent organizations_cache org_data organization).
Proof. unfold link_parent. respects. Qed.

Lemma stay_link_parent organizations_cache org_data organization :
  Respects organizations_stay (link_parent organizations_cache org_data organization).
Proof. unfold link_parent. respects. Qed.

Lemma stay_load_program ogrn organization caches prog_data :
  Respects organizations_stay (load_program ogrn organization caches prog_data).
Proof.
  unfold load_program. respects.
  all: apply stay_get_or_create; [eauto with respects..|]; intros k d; simpl; respects.
Qed.

Lemma stay_pass2 organizations_cache caches org_data :
  Respects organizations_stay (pass2 organizations_cache caches org_data).
Proof.
  unfold pass2. respects; [apply stay_link_parent|apply stay_load_program].
Qed.

Lemma respects_foldM_in (R : State → State → Prop) {A B} (f : B → A → M B) l b :
  (∀ s, R s s) → (∀ s1 s2 s3, R s1 s2 → R s2 s3 → R s1 s3) →
  (∀ b x, x ∈ l → Respects R (f b x)) → Respects R (foldM f l b).
Proof.
  intros Hr Ht. revert b. induction l as [|x l IH]; intros b Hf; simpl.
  - by apply respects_ret.
  - apply respects_bind; [done|apply Hf, list_elem_of_here|].
    intros b'. apply IH. intros b'' y Hy. apply Hf. by apply list_elem_of_further.
Qed.

(** ** The shape of a run *)

Lemma respects_pass1_loop T l caches : Respects (evolves T) (foldM pass1 l caches).
Proof.
  apply respects_foldM; [apply evolves_refl|apply evolves_trans|].
  intros. apply respects_pass1.
Qed.

Lemma respects_load_programs T ogrn organization l caches :
  Respects (evolves T) (foldM (load_program ogrn organization) l caches).
Proof.
  apply respects_foldM; [apply evolves_refl|apply evolves_trans|].
  intros. apply respects_load_program.
Qed.

Lemma respects_pass2_loop organizations_cache l caches :
  Respects (evolves anyone) (foldM (pass2 organizations_cache) l caches).
Proof.
  apply respects_foldM; [apply evolves_refl|apply evolves_trans|].
  intros. by apply respects_pass2.
Qed.

(** [reconcile] either respects [evolves] (it raised, or it went through
    both passes), or it abandoned the run after the first pass. *)
Lemma reconcile_shape organizations_data s r s' :
  reconcile organizations_data s = (r, s') →
  (r ≠ Ok false ∧ evolves anyone s s')
  ∨ (r = Ok false ∧ ∃ e s1, evolves anyone s s1 ∧ s' = abandoned e s1).
Proof.
  unfold reconcile. rewrite logging_bind.
  set (s0 := logged INFO MsgPass1Start s).
  assert (evolves anyone s s0) as H0
    by (by eapply (respects_logging anyone INFO MsgPass1Start)).
  rewrite bind_eq.
  destruct (foldM pass1 organizations_data (∅, ∅) s0) as [[[rc oc]|e1] s1] eqn:E1.
  2:{ intros [= <- <-]. left. split; [done|].
      eapply evolves_trans; [done|]. by eapply respects_pass1_loop. }
  assert (evolves anyone s s1) as H1.
  { eapply evolves_trans; [done|]. by eapply respects_pass1_loop. }
  rewrite bind_eq. unfold try_except at 1.
  destruct ((session_flush;; logging INFO MsgPass1Done;; mret true) s1)
    as [[b|e2] s2] eqn:E2.
  - assert (evolves anyone s1 s2) as H2.
    { revert E2. apply (respects_bind (evolves anyone)); [apply evolves_trans|..].
      - apply respects_session_flush.
      - intros _. apply respects_bind; [apply evolves_trans|by apply respects_logging|].
        intros _. apply respects_ret, evolves_refl. }
    assert (b = true) as ->.
    { apply bind_Ok in E2 as (? & ? & _ & E2). apply bind_Ok in E2 as (? & ? & _ & E2).
      by injection E2. }
    intros Hrest. left.
    assert (evolves anyone s2 s' ∧ r ≠ Ok false) as [H3 ?].
    { revert Hrest. rewrite logging_bind.
      set (s3 := logged INFO MsgPass2Start s2).
      assert (evolves anyone s2 s3) as H3
        by (by eapply (respects_logging anyone INFO MsgPass2Start)).
      rewrite bind_eq.
      destruct (foldM (pass2 oc) organizations_data (∅, ∅) s3) as [[c|e4] s4] eqn:E4.
      - assert (evolves anyone s3 s4) as H4 by (by eapply respects_pass2_loop).
        rewrite logging_bind. intros [= <- <-]. split; [|done].
        eapply evolves_trans; [done|]. eapply evolves_trans; [done|].
        by eapply (respects_logging anyone INFO MsgPass2Done).
      - intros [= <- <-]. split; [|done].
        eapply evolves_trans; [done|]. by eapply respects_pass2_loop. }
    split; [done|]. eapply evolves_trans; [done|]. by eapply evolves_trans.
  - assert (evolves anyone s1 s2) as H2.
    { revert E2. apply (respects_bind (evolves anyone)); [apply evolves_trans|..].
      - apply respects_session_flush.
      - intros _. apply respects_bind; [apply evolves_trans|by apply respects_logging|].
        intros _. apply respects_ret, evolves_refl. }
    intros [= <- <-]. right. split; [done|]. exists e2, s2.
    split; [by eapply evolves_trans|done].
Qed.

Lemma session_commit_shape s r s' :
  session_commit s = (r, s') →
  (r = Ok () ∧ ∃ t, flush (session s) = Some t
     ∧ s' = mkState t t (Commit :: trace s) (log s) (tail (faults s)))
  ∨ (∃ e, r = Raise e
     ∧ s' = mkState (session s) (stored s) (Commit :: trace s) (log s) (tail (faults s))).
Proof.
  unfold session_commit. rewrite bind_eq. unfold storage_call at 1.
  destruct (faults s) as [|[] fs] eqn:Ef; simpl.
  - rewrite bind_eq. unfold autoflush at 1, set_session. simpl.
    destruct (flush (session s)) as [t|]; intros [= <- <-]; [left|right]; eauto.
  - intros [= <- <-]. right. eauto.
  - rewrite bind_eq. unfold autoflush at 1, set_session. simpl.
    destruct (flush (session s)) as [t|]; intros [= <- <-]; [left|right]; eauto.
Qed.

(** The run of [_populate_db] on a non-empty input, within an
    application: the reconciliation, then the commit, and the handler of
    the scope when either raised. *)
Lemma populate_shape x l a s r s' :
  _populate_db (x :: l) (Some a) s = (r, s') →
  ∃ r2 s2, reconcile (x :: l) (entered s) = (r2, s2) ∧
    match r2 with
    | Raise e => r = Raise e ∧ s' = rolled_back e s2
    | Ok finished =>
      ∃ r3 s3, session_commit s2 = (r3, s3) ∧
        match r3 with
        | Raise e => r = Raise e ∧ s' = rolled_back e s3
        | Ok _ =>
          r = Ok () ∧
          s' = if finished : bool
               then mkState (session s3) (stored s3) (trace s3)
                      (mkLog INFO MsgPopulateDone :: log s3) (faults s3)
               else s3
        end
    end.
Proof.
  unfold _populate_db, session_scope. rewrite bind_eq. simpl. rewrite bind_eq.
  rewrite bind_eq. simpl. unfold try_except. rewrite bind_eq. fold (entered s).
  destruct (reconcile (x :: l) (entered s)) as [[finished|e] s2] eqn:E2.
  - rewrite bind_eq. destruct (session_commit s2) as [[[]|e] s3] eqn:E3.
    + simpl. intros H. exists (Ok finished), s2. split; [done|].
      exists (Ok ()), s3. split; [done|].
      destruct finished; cbv [logging mret M_ret] in H; by simplify_eq.
    + simpl. intros [= <- <-]. exists (Ok finished), s2. split; [done|].
      exists (Raise e), s3. done.
  - simpl. intros [= <- <-]. exists (Raise e), s2. done.
Qed.

(** ** Rollback and commit *)

Lemma commits_without l : Commit ∉ l → commits l = 0.
Proof.
  intros Hn. unfold commits. induction l as [|ev l IH]; [done|].
  apply not_elem_of_cons in Hn as [? ?]. rewrite filter_cons_False by done. auto.
Qed.

Lemma commits_app l k : commits (l ++ k) = commits l + commits k.
Proof. unfold commits. by rewrite filter_app, length_app. Qed.

Lemma evolves_error_log T s s' m :
  evolves T s s' → mkLog ERROR m ∈ log s' → mkLog ERROR m ∈ log s.
Proof.
  intros (_&_&_&_&(recs & -> & Hrecs)) [Hin|Hin]%elem_of_app; [|done].
  rewrite Forall_forall in Hrecs. by destruct (Hrecs _ Hin).
Qed.

Lemma evolves_commits T s s' : evolves T s s' → commits (trace s') = commits (trace s).
Proof.
  intros (_&_&_&(evs & -> & Hc & _)&_). by rewrite commits_app, commits_without.
Qed.

Lemma reconcile_facts organizations_data db faults r2 s2 :
  reconcile organizations_data (entered (fresh db faults)) = (r2, s2) →
  stored s2 = db
  ∧ commits (trace s2) = 0
  ∧ (∀ e, mkLog ERROR (MsgDatabaseError e) ∉ log s2)
  ∧ (r2 = Ok false → session s2 = db ∧ Rollback ∈ trace s2)
  ∧ (r2 ≠ Ok false → ∀ e, mkLog ERROR (MsgPass1FlushError e) ∉ log s2).
Proof.
  intros [[Hne Hev]|(-> & e & s1 & Hev & ->)]%reconcile_shape.
  - split_and!.
    + by destruct Hev as (-> & _).
    + by rewrite (evolves_commits _ _ _ Hev).
    + intros e Hin. eapply evolves_error_log in Hin; [|done]. simpl in Hin.
      apply list_elem_of_singleton in Hin. done.
    + done.
    + intros _ e Hin. eapply evolves_error_log in Hin; [|done]. simpl in Hin.
      apply list_elem_of_singleton in Hin. done.
  - split_and!.
    + simpl. by destruct Hev as (-> & _).
    + unfold abandoned, commits. simpl. rewrite filter_cons_False by done.
      fold (commits (trace s1)). by rewrite (evolves_commits _ _ _ Hev).
    + simpl. intros e' [Hin|Hin]%elem_of_cons; [done|].
      eapply evolves_error_log in Hin; [|done]. simpl in Hin.
      apply list_elem_of_singleton in Hin. done.
    + intros _. simpl. split; [by destruct Hev as (-> & _)|apply list_elem_of_here].
    + done.
Qed.

Ltac absurd_in H :=
  repeat (apply elem_of_cons in H as [H|H]; [done|]); by apply elem_of_nil in H.

(** ** What the statements do when they return *)

Lemma storage_call_Ok ev s u s' :
  storage_call ev s = (Ok u, s') → session s' = session s.
Proof. unfold storage_call. destruct (faults s) as [|[] ?]; by intros [= <- <-]. Qed.

Lemma autoflush_Ok s u s' :
  autoflush s = (Ok u, s') → flush (session s) = Some (session s').
Proof.
  unfold autoflush, set_session. destruct (flush (session s)); by intros [= <- <-].
Qed.

Lemma session_flush_Ok s u s' :
  session_flush s = (Ok u, s') → flush (session s) = Some (session s').
Proof.
  unfold session_flush.
  destruct (nothing_pending (session s)) eqn:E.
  - intros [= <- <-]. simpl. by apply flush_id, nothing_pending_all_flushed.
  - intros (? & s1 & H1 & H2)%bind_Ok.
    apply storage_call_Ok in H1. apply autoflush_Ok in H2. congruence.
Qed.

Lemma session_query_Ok {A} (first : Tables → option A) s r s' :
  session_query first s = (Ok r, s') →
  flush (session s) = Some (session s') ∧ r = first (session s').
Proof.
  unfold session_query. intros (? & s1 & H1 & (? & s2 & H2 & H3)%bind_Ok)%bind_Ok.
  apply storage_call_Ok in H1. apply autoflush_Ok in H2.
  injection H3 as <- <-. split; congruence.
Qed.

Lemma get_or_create_Ok {K D} (model : Model K D) defaults kwargs s instance created s' :
  _get_or_create model defaults kwargs s = (Ok (instance, created), s') →
  ∃ s1, flush (session s) = Some (session s1) ∧
    ((filter_by model kwargs (session s1) = Some instance ∧ session s' = session s1)
     ∨ (filter_by model kwargs (session s1) = None
        ∧ ∃ s2, create model kwargs defaults s1 = (Ok instance, s2)
                ∧ session s' = session s2)).
Proof.
  unfold _get_or_create. intros (found & s1 & H1 & H2)%bind_Ok.
  apply session_query_Ok in H1 as [Hf ->]. exists s1. split; [done|].
  destruct (filter_by model kwargs (session s1)) as [i|] eqn:E.
  - injection H2 as <- <- <-. by left.
  - apply bind_Ok in H2 as (i & s2 & H2 & H3). right. split; [done|].
    exists s2. split; [|by injection H3 as <- <- <-].
    by injection H3 as <- _ _.
Qed.

Lemma run_ext {A} (m : M A) T s r s' :
  Respects (evolves T) m → m s = (r, s') → ext (session s) (session s').
Proof. intros Hm Hrun. by destruct (Hm _ _ _ Hrun) as (_ & ? & _). Qed.

Lemma flush_ext t t' : flush t = Some t' → ext t t'.
Proof. intros. by apply rewritten_ext, flush_rewritten. Qed.

(** ** The caches follow the session *)

Lemma by_ogrn_ext k t t' i :
  ext t t' → EducationalOrganization_by_ogrn k t = Some i →
  EducationalOrganization_by_ogrn k t' = Some i.
Proof.
  intros (_&_&_&Ho&_). apply (first_ref_ext EducationalOrganization_same); [|done].
  intros x x' (_&_&E&_). by rewrite E.
Qed.

Lemma orgs_cached_ext oc t t' : orgs_cached oc t → ext t t' → orgs_cached oc t'.
Proof.
  intros Hc Hext k i Hk. destruct (Hc k i Hk) as (Hf & o & Ho & Hid).
  split; [by eapply by_ogrn_ext|].
  destruct Hext as (_&_&_&Hext&_). destruct (Hext _ _ Ho) as (o' & Ho' & Hs).
  exists o'. split; [done|]. destruct Hs as (_&_&_&_&_&_&Hk'&_). by rewrite (Hk' Hid).
Qed.

Lemma regions_cached_ext rc t t' : regions_cached rc t → ext t t' → regions_cached rc t'.
Proof.
  intros Hc (Hext&_) k r Hk. destruct (Hc k r Hk) as (x & Hx & Hn).
  destruct (Hext _ _ Hx) as (x' & Hx' & Hs & _). exists x'. split; [done|congruence].
Qed.

Lemma region_named_ext t t' o o' name :
  ext t t' → EducationalOrganization_same o o' →
  is_Some (EducationalOrganization.id o) →
  region_named t o name → region_named t' o' name.
Proof.
  intros (Hext&_) (_&_&_&_&_&Hr&_&Hrid) Hid (r & x & Hor & Hx & Hn & Hri & Hxid).
  destruct (Hext _ _ Hx) as (x' & Hx' & Hname & Hk).
  exists r, x'. split_and!; [congruence|done|congruence| |].
  - rewrite (Hrid Hid), Hri. symmetry. by apply Hk.
  - by rewrite (Hk Hxid).
Qed.

Lemma orgs_cached_empty t : orgs_cached ∅ t.
Proof. intros k i Hk. by rewrite lookup_empty in Hk. Qed.

Lemma regions_cached_empty t : regions_cached ∅ t.
Proof. intros k i Hk. by rewrite lookup_empty in Hk. Qed.

(** [region_for] returns a region called [region_name]. *)
Lemma region_for_Ok regions_cache region_name s region regions_cache' s' :
  region_for regions_cache region_name s = (Ok (region, regions_cache'), s') →
  regions_cached regions_cache (session s) →
  regions_cached regions_cache' (session s')
  ∧ ∃ i x, region = Some i ∧ regions (session s') !! i = Some x
           ∧ Region.name x = region_name.
Proof.
  intros Hrun Hc. unfold region_for in Hrun.
  destruct (regions_cache !! region_name) as [i|] eqn:E.
  - injection Hrun as <- <- <-. split; [done|]. destruct (Hc _ _ E) as (x & ? & ?). eauto.
  - apply bind_Ok in Hrun as ([i created] & s1 & H1 & H2). injection H2 as <- <- <-.
    apply get_or_create_Ok in H1 as (s0 & Hfl & [[Hfound Hs]|(Hnone & s2 & Hadd & Hs)]).
    + rewrite Hs. apply flush_ext in Hfl.
      simpl in Hfound. apply first_ref_Some in Hfound as (x & Hx & Hn & _).
      split; [|by eauto].
      intros k r. rewrite lookup_insert. case_decide as Hk.
      * intros [= <-]. subst k. eauto.
      * intros Hr. by eapply regions_cached_ext.
    + simpl in Hadd. injection Hadd as <- <-. rewrite Hs. simpl.
      apply flush_ext in Hfl.
      assert (∀ k r, regions_cache !! k = Some r →
                ∃ x, (regions (session s0) ++ [Region.mk None region_name]) !! r = Some x
                     ∧ Region.name x = k) as Hold.
      { intros k r Hk. destruct (regions_cached_ext _ _ _ Hc Hfl k r Hk) as (x & Hx & Hn).
        exists x. split; [by apply lookup_app_l_Some|done]. }
      split.
      * intros k r. rewrite lookup_insert. case_decide as Hk; [|by apply Hold].
        intros [= <-]. subst k. eexists. split; [apply lookup_last_added|done].
      * eexists _, _. split_and!; [done|apply lookup_last_added|done].
Qed.

(** ** What the statements do when the database answers *)

Lemma storage_call_run ev s :
  head (faults s) ≠ Some true →
  storage_call ev s =
    (Ok (), mkState (session s) (stored s) (ev :: trace s) (log s) (tail (faults s))).
Proof. intros H. unfold storage_call. by destruct (faults s) as [|[] ?]. Qed.

Lemma session_query_run {A} (first : Tables → option A) s t :
  head (faults s) ≠ Some true → flush (session s) = Some t →
  session_query first s =
    (Ok (first t), mkState t (stored s) (Query :: trace s) (log s) (tail (faults s))).
Proof.
  intros Hf Ht. unfold session_query.
  rewrite (bind_run_Ok _ _ _ _ _ (storage_call_run Query s Hf)).
  unfold autoflush. rewrite bind_eq. simpl. rewrite Ht. reflexivity.
Qed.

(** ** The first pass *)

Lemma run_stay {A} (m : M A) s r s' :
  Respects organizations_stay m → m s = (r, s') →
  length (organizations (session s')) = length (organizations (session s)).
Proof. intros Hm Hrun. symmetry. by eapply Forall2_length, Hm. Qed.

Lemma by_ogrn_Some k t i :
  EducationalOrganization_by_ogrn k t = Some i →
  ∃ o, organizations t !! i = Some o ∧ EducationalOrganization.ogrn o = Some k.
Proof. intros (o & ? & ? & _)%first_ref_Some. eauto. Qed.

Lemma all_flushed_org t i o :
  all_flushed t → organizations t !! i = Some o → is_Some (EducationalOrganization.id o).
Proof.
  intros (_&_&_&Ho&_) Hi. rewrite Forall_forall in Ho. apply Ho.
  by eapply list_elem_of_lookup_2.
Qed.

(** The statements that resolve the region of a new organization. *)
Lemma region_block_Ok rc c s region rc' s' :
  (if truthy (OrgData.region_name c)
   then region_for rc (capitalize (strip (OrgData.region_name c)))
   else
     region_name_from_addr ← _extract_region_from_address (OrgData.address c);
     match region_name_from_addr with
     | Some region_name_from_addr =>
       if truthy region_name_from_addr
       then region_for rc region_name_from_addr
       else mret (None, rc)
     | None => mret (None, rc)
     end) s = (Ok (region, rc'), s') →
  regions_cached rc (session s) →
  regions_cached rc' (session s')
  ∧ ext (session s) (session s')
  ∧ organizations_stay s s'
  ∧ (truthy (OrgData.region_name c) = true →
     ∃ i x, region = Some i ∧ regions (session s') !! i = Some x
            ∧ Region.name x = capitalize (strip (OrgData.region_name c))).
Proof.
  intros Hrun Hc.
  assert (ext (session s) (session s') ∧ organizations_stay s s') as [Hext Hstay].
  { split.
    - revert Hrun. apply (run_ext _ nobody). respects;
        auto using respects_region_for, respects_extract_region.
    - revert Hrun.
      match goal with |- ?m s = _ → _ => assert (Respects organizations_stay m) as Hm end.
      { respects;
          first [apply stay_region_for|apply stay_extract_region; eauto with respects]. }
      apply Hm. }
  destruct (truthy (OrgData.region_name c)) eqn:Et.
  - apply region_for_Ok in Hrun as [? ?]; [|done]. by split_and!.
  - split_and!; [|done..]. apply bind_Ok in Hrun as (name & s1 & H1 & H2).
    assert (ext (session s) (session s1)) as Hext1.
    { revert H1. apply (run_ext _ nobody), respects_extract_region. }
    destruct name as [name|].
    + destruct (truthy name).
      * apply region_for_Ok in H2 as [? _]; [done|]. by eapply regions_cached_ext.
      * injection H2 as <- <- <-. by eapply regions_cached_ext.
    + injection H2 as <- <- <-. by eapply regions_cached_ext.
Qed.

Lemma pass1_Ok rc oc c s rc' oc' s' :
  pass1 (rc, oc) c s = (Ok (rc', oc'), s') →
  orgs_cached oc (session s) → regions_cached rc (session s) →
  orgs_cached oc' (session s') ∧ regions_cached rc' (session s')
  ∧ (∀ k i, oc !! k = Some i → oc' !! k = Some i)
  ∧ (truthy (OrgData.ogrn c) = true → is_Some (oc' !! OrgData.ogrn c))
  ∧ (∀ i o, organizations (session s') !! i = Some o →
       length (organizations (session s)) ≤ i →
       made_from c o ∧ is_Some (EducationalOrganization.id o)
       ∧ (truthy (OrgData.region_name c) = true →
          region_named (session s') o (capitalize (strip (OrgData.region_name c))))).
Proof.
  intros Hrun Hoc Hrc.
  assert (ext (session s) (session s')) as Hext.
  { revert Hrun. apply (run_ext _ nobody), respects_pass1. }
  unfold pass1 in Hrun.
  destruct (truthy (OrgData.ogrn c)) eqn:Eogrn; simpl in Hrun.
  2:{ rewrite logging_bind in Hrun. injection Hrun as <- <- <-. simpl.
      split_and!; [done..|]. intros i o Hi Hlen. apply lookup_lt_Some in Hi. lia. }
  destruct (oc !! OrgData.ogrn c) as [cached|] eqn:Ecache.
  { injection Hrun as <- <- <-. split_and!; [done..|eauto|].
    intros i o Hi Hlen. apply lookup_lt_Some in Hi. lia. }
  apply bind_Ok in Hrun as (found & s1 & Hq & Hrun).
  assert (length (organizations (session s1)) = length (organizations (session s))) as Hlen1.
  { revert Hq. apply run_stay. auto with respects. }
  apply session_query_Ok in Hq as [Hfl1 ->].
  destruct (EducationalOrganization_by_ogrn (OrgData.ogrn c) (session s1)) as [i|] eqn:Efound.
  - (* the organization is in storage *)
    rewrite logging_bind in Hrun. injection Hrun as <- <- <-. simpl.
    split_and!.
    + intros k j. rewrite lookup_insert. case_decide as Hk.
      * intros [= <-]. subst k. split; [done|].
        destruct (by_ogrn_Some _ _ _ Efound) as (o & Ho & _). exists o. split; [done|].
        eapply all_flushed_org; [by eapply flush_all_flushed|done].
      * intros Hj. by eapply orgs_cached_ext.
    + by eapply regions_cached_ext.
    + intros k j Hj. rewrite lookup_insert_ne; [done|]. intros <-. congruence.
    + intros _. rewrite lookup_insert_eq. eauto.
    + intros j o Hj Hlen. apply lookup_lt_Some in Hj. lia.
  - (* the organization is created *)
    apply bind_Ok in Hrun as ([region rc1] & s2 & Hregion & Hrun).
    apply flush_ext in Hfl1 as Hext1.
    apply region_block_Ok in Hregion as (Hrc2 & Hext2 & Hstay2 & Hname);
      [|by eapply regions_cached_ext].
    apply bind_Ok in Hrun as (organization & s3 & Hadd & Hrun).
    injection Hadd as <- <-.
    rewrite logging_bind in Hrun.
    apply bind_Ok in Hrun as (? & s4 & Hflush & Hrun). injection Hrun as <- <- <-.
    apply session_flush_Ok in Hflush. simpl in Hflush.
    set (new := EducationalOrganization.mk None (OrgData.full_name c)
                  (Some (OrgData.short_name c)) (Some (OrgData.ogrn c))
                  (Some (OrgData.inn c)) (Some (OrgData.address c)) None region None) in *.
    set (n := length (organizations (session s2))) in *.
    assert (EducationalOrganization_by_ogrn (OrgData.ogrn c) (session s2) = None) as Hnone2.
    { revert Efound. apply (first_ref_None_Forall2 EducationalOrganization_same); [|done].
      intros y y' (_&_&E&_). by rewrite E. }
    pose proof (flush_all_flushed _ _ Hflush) as Hall.
    pose proof (flush_ext _ _ Hflush) as Hext4.
    pose proof (flush_inv _ _ Hflush) as (Hfr & _ & _ & Hfo & _). simpl in Hfr, Hfo.
    assert (∃ o', organizations (session s4) !! n = Some o'
                  ∧ flushed_as EducationalOrganization.id
                      (EducationalOrganization_persist (regions (session s4))) new o')
      as (o' & Ho' & Hfa).
    { eapply Forall2_lookup_l; [exact Hfo|]. apply lookup_last_added. }
    assert (n = length (organizations (session s))) as Hn.
    { unfold n. rewrite <- Hlen1. symmetry. by eapply Forall2_length. }
    assert (EducationalOrganization_by_ogrn (OrgData.ogrn c) (session s4) = Some n) as Hby.
    { eapply by_ogrn_ext; [exact Hext4|]. simpl.
      apply first_ref_app_new; [exact Hnone2|done]. }
    split_and!.
    + intros k j. rewrite lookup_insert. case_decide as Hk.
      * intros [= <-]. subst k. split; [done|]. exists o'. split; [done|].
        by eapply all_flushed_org.
      * intros Hj. by eapply orgs_cached_ext.
    + eapply regions_cached_ext; [exact Hrc2|]. eapply ext_trans; [|exact Hext4].
      destruct (ext_refl (session s2)) as (?&?&?&?&?). split_and!; simpl; try done.
      apply ext_list_app, EducationalOrganization_same_refl.
    + intros k j Hj. rewrite lookup_insert_ne; [done|]. intros <-. congruence.
    + intros _. rewrite lookup_insert_eq. eauto.
    + intros j o Hj Hlen.
      assert (j = n) as ->.
      { apply lookup_lt_Some in Hj. apply Forall2_length in Hfo.
        rewrite length_app in Hfo. simpl in Hfo. lia. }
      assert (o = o') as -> by congruence.
      destruct Hfa as [(_ & m & ->)|[[? Hid] _]]; [|done].
      split_and!; [done..|by eexists|].
      intros Ht. destruct (Hname Ht) as (r & rg & -> & Hrg & Hrgn).
      assert (∃ rg', regions (session s4) !! r = Some rg'
                     ∧ flushed_as Region.id Region_persist rg rg') as (rg' & Hrg' & Hfx).
      { eapply Forall2_lookup_l; [exact Hfr|done]. }
      assert (is_Some (Region.id rg')) as Hxid.
      { destruct Hall as (Hr&_). rewrite Forall_forall in Hr. apply Hr.
        by eapply list_elem_of_lookup_2. }
      exists r, rg'. split_and!; [done|done| |by simpl; rewrite Hrg'|done].
      destruct Hfx as [(_ & ? & ->)|[_ ->]]; done.
Qed.

(** ** A completed run *)

Lemma made_from_same c o o' :
  EducationalOrganization_same o o' → made_from c o → made_from c o'.
Proof.
  intros (E1&E2&E3&E4&E5&_) (?&?&?&?&?). unfold made_from.
  rewrite E1, E2, E3, E4, E5. done.
Qed.

Lemma pass1_loop_Ok organizations_data : ∀ rc oc s rc' oc' s',
  foldM pass1 organizations_data (rc, oc) s = (Ok (rc', oc'), s') →
  orgs_cached oc (session s) → regions_cached rc (session s) →
  orgs_cached oc' (session s') ∧ regions_cached rc' (session s')
  ∧ (∀ k i, oc !! k = Some i → oc' !! k = Some i)
  ∧ (∀ c, c ∈ organizations_data → truthy (OrgData.ogrn c) = true →
          is_Some (oc' !! OrgData.ogrn c))
  ∧ (∀ i o, organizations (session s') !! i = Some o →
       length (organizations (session s)) ≤ i →
       ∃ c, c ∈ organizations_data ∧ made_from c o
            ∧ is_Some (EducationalOrganization.id o)
            ∧ (truthy (OrgData.region_name c) = true →
               region_named (session s') o (capitalize (strip (OrgData.region_name c))))).
Proof.
  induction organizations_data as [|x l IH]; intros rc oc s rc' oc' s' Hrun Hoc Hrc.
  - injection Hrun as <- <- <-. split_and!; [done..| |].
    + intros c Hc. by apply elem_of_nil in Hc.
    + intros i o Hi Hlen. apply lookup_lt_Some in Hi. lia.
  - simpl in Hrun. apply bind_Ok in Hrun as ([rc1 oc1] & s1 & Hx & Hrest).
    pose proof (respects_pass1_loop nobody l (rc1, oc1) _ _ _ Hrest) as (_ & Hext & _).
    apply pass1_Ok in Hx as (Hoc1 & Hrc1 & Hsub1 & Hin1 & Hnew1); [|done..].
    apply IH in Hrest as (Hoc' & Hrc' & Hsub' & Hin' & Hnew'); [|done..].
    split_and!; [done|done|by auto| |].
    + intros c [->|Hc]%elem_of_cons Ht; [|by apply Hin'].
      destruct (Hin1 Ht) as [i Hi]. rewrite (Hsub' _ _ Hi). eauto.
    + intros i o Hi Hlen.
      destruct (decide (length (organizations (session s1)) ≤ i)) as [Hge|Hlt].
      * destruct (Hnew' i o Hi Hge) as (c & ? & ?). exists c. split; [|done].
        by apply list_elem_of_further.
      * destruct (lookup_lt_is_Some_2 (organizations (session s1)) i) as [o1 Ho1]; [lia|].
        destruct (Hnew1 i o1 Ho1 Hlen) as (Hm & Hid & Hreg).
        pose proof Hext as (Hr&_&_&Ho&_).
        destruct (Ho _ _ Ho1) as (o2 & Ho2 & Hsame). assert (o2 = o) as -> by congruence.
        exists x. split_and!; [apply list_elem_of_here|by eapply made_from_same| |].
        -- destruct Hsame as (_&_&_&_&_&_&Hk&_). by rewrite (Hk Hid).
        -- intros Ht. by eapply (region_named_ext (session s1)); [..|apply Hreg].
Qed.

Lemma reconcile_true organizations_data s s' :
  reconcile organizations_data s = (Ok true, s') →
  ∃ rc oc s1 s2 caches s3,
    foldM pass1 organizations_data (∅, ∅) (logged INFO MsgPass1Start s) = (Ok (rc, oc), s1)
    ∧ flush (session s1) = Some (session s2)
    ∧ foldM (pass2 oc) organizations_data (∅, ∅) s2 = (Ok caches, s3)
    ∧ session s' = session s3
    ∧ log s' = mkLog INFO MsgPass2Done :: log s3.
Proof.
  unfold reconcile. rewrite logging_bind.
  intros ([rc oc] & s1 & H1 & H2)%bind_Ok.
  apply bind_Ok in H2 as (flushed & s2 & H2 & H3).
  unfold try_except in H2.
  destruct ((session_flush;; logging INFO MsgPass1Done;; mret true) s1)
    as [[b|e] s2'] eqn:E.
  - injection H2 as -> ->.
    apply bind_Ok in E as (? & s1' & Hfl & E). rewrite logging_bind in E.
    injection E as <- <-. apply session_flush_Ok in Hfl.
    rewrite logging_bind in H3.
    apply bind_Ok in H3 as (caches & s3 & H3 & H4). rewrite logging_bind in H4.
    injection H4 as <-.
    exists rc, oc, s1, (logged INFO MsgPass2Start (logged INFO MsgPass1Done s1')), caches, s3.
    done.
  - rewrite logging_bind in H2. apply bind_Ok in H2 as (? & ? & _ & H2).
    injection H2 as <- <-. done.
Qed.

Lemma populate_completed x l a s s' :
  _populate_db (x :: l) (Some a) s = (Ok (), s') → Rollback ∉ trace s' →
  ∃ rc oc s1 s2 caches s3,
    foldM pass1 (x :: l) (∅, ∅) (logged INFO MsgPass1Start (entered s)) = (Ok (rc, oc), s1)
    ∧ flush (session s1) = Some (session s2)
    ∧ foldM (pass2 oc) (x :: l) (∅, ∅) s2 = (Ok caches, s3)
    ∧ flush (session s3) = Some (stored s')
    ∧ session s' = stored s'
    ∧ log s' = mkLog INFO MsgPopulateDone :: mkLog INFO MsgPass2Done :: log s3.
Proof.
  intros (r2 & s2 & Hrec & Hcase)%populate_shape Hroll.
  destruct r2 as [finished|e]; [|by destruct Hcase].
  destruct Hcase as (r3 & s3 & Hcommit & Hcase).
  destruct r3 as [[]|e]; [|by destruct Hcase]. destruct Hcase as [_ ->].
  apply session_commit_shape in Hcommit as [(_ & t & Ht & ->)|(? & ? & _)]; [|done].
  destruct finished.
  - apply reconcile_true in Hrec as (rc & oc & s1 & s2' & caches & s3 & H1 & H2 & H3 & H4 & H5).
    exists rc, oc, s1, s2', caches, s3. simpl. rewrite <- H4, H5. done.
  - exfalso. apply Hroll. simpl.
    apply reconcile_shape in Hrec as [[? _]|(_ & e & s1 & _ & ->)]; [done|].
    simpl. apply list_elem_of_further, list_elem_of_here.
Qed.
(** ** Every failure of the database is raised to the caller *)

Lemma answered_refl s : answered s s.
Proof. by exists []. Qed.

Lemma answered_trans s1 s2 s3 : answered s1 s2 → answered s2 s3 → answered s1 s3.
Proof.
  intros (u1 & E1 & H1) (u2 & E2 & H2). exists (u1 ++ u2).
  split; [by rewrite E1, E2, app_assoc|by apply Forall_app].
Qed.

Lemma answered_same s s' : faults s' = faults s → answered s s'.
Proof. intros E. exists []. by rewrite E. Qed.

Lemma answered_ret {A} (a : A) : Answered (mret a).
Proof. intros s ? s' [= <- <-]. apply answered_refl. Qed.

Lemma answered_raise {A} e : Answered (raise e : M A).
Proof. by intros s ? s'. Qed.

Lemma answered_bind {A B} (m : M A) (f : A → M B) :
  Answered m → (∀ a, Answered (f a)) → Answered (m ≫= f).
Proof.
  intros Hm Hf s b s' (a & s1 & H1 & H2)%bind_Ok.
  eapply answered_trans; [by eapply Hm|by eapply Hf].
Qed.

Lemma answered_foldM {A B} (f : B → A → M B) l b :
  (∀ b x, Answered (f b x)) → Answered (foldM f l b).
Proof.
  intros Hf. revert b. induction l as [|x l IH]; intros b; simpl.
  - apply answered_ret.
  - apply answered_bind; [apply Hf|intros b'; apply IH].
Qed.

(** A statement that reaches the database by no call of its own. *)
Lemma answered_keep {A} (m : M A) :
  (∀ s r s', m s = (r, s') → faults s' = faults s) → Answered m.
Proof. intros Hm s a s' Hrun. eapply answered_same, Hm, Hrun. Qed.

Lemma answered_logging lvl msg : Answered (logging lvl msg).
Proof. apply answered_keep. by intros s r s' [= <- <-]. Qed.

Lemma answered_gets {A} (f : State → A) : Answered (gets f).
Proof. apply answered_keep. by intros s r s' [= <- <-]. Qed.

Lemma answered_attr {A B} (table : Tables → list A) (f : A → option B) ref :
  Answered (attr table f ref).
Proof. apply answered_gets. Qed.

Lemma answered_add_Region r : Answered (add_Region r).
Proof. apply answered_keep. by intros s ? s' [= <- <-]. Qed.

Lemma answered_add_SpecialtyGroup g : Answered (add_SpecialtyGroup g).
Proof. apply answered_keep. by intros s ? s' [= <- <-]. Qed.

Lemma answered_add_Specialty x : Answered (add_Specialty x).
Proof. apply answered_keep. by intros s ? s' [= <- <-]. Qed.

Lemma answered_add_EducationalOrganization o : Answered (add_EducationalOrganization o).
Proof. apply answered_keep. by intros s ? s' [= <- <-]. Qed.

Lemma answered_add_EducationalProgram p : Answered (add_EducationalProgram p).
Proof. apply answered_keep. by intros s ? s' [= <- <-]. Qed.

Lemma answered_set_parent_id organization value :
  Answered (set_parent_id organization value).
Proof. apply answered_keep. by intros s ? s' [= <- <-]. Qed.

Lemma answered_autoflush : Answered autoflush.
Proof.
  apply answered_keep. intros s r s'. unfold autoflush, set_session.
  destruct (flush (session s)); by intros [= <- <-].
Qed.

(** A call that reaches the database returns only when the database
    answers it. *)
Lemma answered_storage_call ev : Answered (storage_call ev).
Proof.
  intros s a s'. unfold storage_call. destruct (faults s) as [|[] fs] eqn:E.
  - intros [= <- <-]. apply answered_same. simpl. by rewrite E.
  - done.
  - intros [= <- <-]. exists [false]. simpl. rewrite E. by split; [|repeat constructor].
Qed.

Lemma answered_session_flush : Answered session_flush.
Proof.
  intros s a s'. unfold session_flush. destruct (nothing_pending (session s)).
  - intros [= <- <-]. by apply answered_same.
  - apply answered_bind; [apply answered_storage_call|intros _; apply answered_autoflush].
Qed.

Lemma answered_session_query {A} (first : Tables → option A) :
  Answered (session_query first).
Proof.
  unfold session_query.
  apply answered_bind; [apply answered_storage_call|intros _].
  apply answered_bind; [apply answered_autoflush|intros _]. apply answered_gets.
Qed.

Lemma answered_session_commit : Answered session_commit.
Proof.
  unfold session_commit.
  apply answered_bind; [apply answered_storage_call|intros _].
  apply answered_bind; [apply answered_autoflush|intros _].
  apply answered_keep. by intros s r s' [= <- <-].
Qed.

Create HintDb answered discriminated.

#[export] Hint Resolve answered_logging answered_gets answered_attr answered_add_Region
  answered_add_SpecialtyGroup answered_add_Specialty answered_add_EducationalOrganization
  answered_add_EducationalProgram answered_set_parent_id answered_session_flush
  answered_session_query : answered.

Ltac answered :=
  repeat match goal with
  | |- Answered (mbind _ _) => apply answered_bind; [|intros ?]
  | |- Answered (mret _) => apply answered_ret
  | |- Answered (raise _) => apply answered_raise
  | |- Answered (foldM _ _ _) => apply answered_foldM; intros ? ?
  | |- Answered (match ?x with _ => _ end) => destruct x eqn:?
  | |- Answered _ => solve [auto with answered]
  end.

Lemma answered_extract_region address : Answered (_extract_region_from_address address).
Proof. unfold _extract_region_from_address. answered. Qed.

Lemma answered_get_or_create {K D} (model : Model K D) defaults kwargs :
  (∀ k d, Answered (create model k d)) →
  Answered (_get_or_create model defaults kwargs).
Proof. intros Hc. unfold _get_or_create. answered. Qed.

Lemma answered_region_for regions_cache region_name :
  Answered (region_for regions_cache region_name).
Proof.
  unfold region_for. answered.
  apply answered_get_or_create. intros k d. simpl. answered.
Qed.

Lemma answered_pass1 caches org_data : Answered (pass1 caches org_data).
Proof.
  unfold pass1. answered;
    first [apply answered_region_for | apply answered_extract_region].
Qed.

Lemma answered_link_parent organizations_cache org_data organization :
  Answered (link_parent organizations_cache org_data organization).
Proof. unfold link_parent. answered. Qed.

Lemma answered_load_program ogrn organization caches prog_data :
  Answered (load_program ogrn organization caches prog_data).
Proof.
  unfold load_program. answered.
  all: apply answered_get_or_create; intros k d; simpl; answered.
Qed.

Lemma answered_pass2 organizations_cache caches org_data :
  Answered (pass2 organizations_cache caches org_data).
Proof.
  unfold pass2. answered; [apply answered_link_parent|apply answered_load_program].
Qed.

(** The first pass leaves nothing pending: it flushes each organization
    that it creates. *)
Lemma pass1_all_flushed caches c s caches' s' :
  pass1 caches c s = (Ok caches', s') →
  all_flushed (session s) → all_flushed (session s').
Proof.
  destruct caches as [rc oc]. unfold pass1. intros Hrun Hall.
  destruct (truthy (OrgData.ogrn c)); simpl in Hrun.
  2:{ rewrite logging_bind in Hrun. by injection Hrun as <- <-. }
  destruct (oc !! OrgData.ogrn c); [by injection Hrun as <- <-|].
  apply bind_Ok in Hrun as (found & s1 & Hq & Hrun).
  apply session_query_Ok in Hq as [Hfl1 ->].
  destruct (EducationalOrganization_by_ogrn (OrgData.ogrn c) (session s1)).
  - rewrite logging_bind in Hrun. injection Hrun as <- <-. simpl.
    by eapply flush_all_flushed.
  - apply bind_Ok in Hrun as ([region rc1] & s2 & _ & Hrun).
    apply bind_Ok in Hrun as (organization & s3 & _ & Hrun).
    rewrite logging_bind in Hrun.
    apply bind_Ok in Hrun as (? & s4 & Hflush & Hrun). injection Hrun as <- <-.
    apply session_flush_Ok in Hflush. by eapply flush_all_flushed.
Qed.

Lemma pass1_loop_all_flushed l : ∀ caches s caches' s',
  foldM pass1 l caches s = (Ok caches', s') →
  all_flushed (session s) → all_flushed (session s').
Proof.
  induction l as [|x l IH]; intros caches s caches' s' Hrun Hall.
  - by injection Hrun as <- <-.
  - simpl in Hrun. apply bind_Ok in Hrun as (caches1 & s1 & Hx & Hrest).
    eapply IH; [exact Hrest|]. by eapply pass1_all_flushed.
Qed.

(** On a session without pending objects, the flush that closes the
    first pass has nothing to write and does not reach the database: the
    handler around it is never entered, and the reconciliation returns
    only from the end of the second pass, every call having been
    answered. *)
Lemma reconcile_flushed organizations_data s r s' :
  all_flushed (session s) →
  reconcile organizations_data s = (r, s') →
  evolves anyone s s' ∧ r ≠ Ok false ∧ (r = Ok true → answered s s').
Proof.
  intros Hall Hrun.
  assert (r ≠ Ok false ∧ (r = Ok true → answered s s')) as [Hne Hans].
  { revert Hrun. unfold reconcile. rewrite logging_bind, bind_eq.
    destruct (foldM pass1 organizations_data (∅, ∅) (logged INFO MsgPass1Start s))
      as [[[rc oc]|e1] s1] eqn:E1; [|by intros [= <- <-]].
    assert (answered s s1) as H1.
    { eapply answered_trans; [|eapply answered_foldM; [|exact E1]].
      - by apply answered_same.
      - intros. apply answered_pass1. }
    apply pass1_loop_all_flushed in E1; [|done].
    apply nothing_pending_all_flushed in E1.
    rewrite bind_eq. unfold try_except at 1. rewrite bind_eq.
    unfold session_flush at 1. rewrite E1. cbn [record]. rewrite logging_bind.
    cbn [mret M_ret]. rewrite logging_bind, bind_eq.
    match goal with
    | |- context [foldM (pass2 oc) organizations_data (∅, ∅) ?s2] =>
      destruct (foldM (pass2 oc) organizations_data (∅, ∅) s2) as [[c|e4] s4] eqn:E4
    end; [|by intros [= <- <-]].
    rewrite logging_bind. intros [= <- <-]. split; [done|]. intros _.
    eapply answered_trans; [exact H1|].
    eapply answered_trans; [|eapply answered_trans;
      [eapply answered_foldM; [|exact E4]; intros; apply answered_pass2|]];
      by apply answered_same. }
  split_and!; [|done..].
  apply reconcile_shape in Hrun as [[_ ?]|[-> _]]; done.
Qed.

(** C3: on a database whose rows have their primary key, whatever the
    input and whichever calls the database fails.  A run that raises
    leaves the committed database and the session as they were before it:
    no row of the run remains; within an application the transaction was
    rolled back as the last call on the session and the error was logged
    by the handler of the session scope.  A run returns normally only
    when every call that reached the database was answered, and then it
    rolled nothing back and logged no error: a failure of the database at
    any point of either pass, or of the commit, is raised to the caller.
    The handler around the flush that closes the first pass is never
    entered, as that flush finds nothing to write.  Commit is called at
    most once, and exactly once, as the last call on the session, in a
    run on a non-empty input that returns normally. *)
Theorem C3_rollback_and_single_commit organizations_data app db faults :
  all_flushed db →
  let run := _populate_db organizations_data app (fresh db faults) in
  (∀ e, fst run = Raise e →
        stored (snd run) = db ∧ session (snd run) = db
        ∧ (is_Some app →
           head (trace (snd run)) = Some Rollback
           ∧ head (log (snd run)) = Some (mkLog ERROR (MsgDatabaseError e))))
  ∧ (fst run = Ok () →
     answered (fresh db faults) (snd run)
     ∧ (Rollback ∉ trace (snd run))
     ∧ Forall (λ r, levelname r ≠ ERROR) (log (snd run)))
  ∧ (∀ e, mkLog ERROR (MsgPass1FlushError e) ∉ log (snd run))
  ∧ commits (trace (snd run)) ≤ 1
  ∧ (fst run = Ok () → organizations_data ≠ [] →
     head (trace (snd run)) = Some Commit ∧ commits (trace (snd run)) = 1).
Proof.
  intros Hall run. subst run.
  destruct organizations_data as [|x l].
  { simpl. split_and!; try done.
    - intros _. split_and!; [by apply answered_same|apply not_elem_of_nil|].
      by repeat constructor.
    - intros e Hin. absurd_in Hin.
    - unfold commits. simpl. lia. }
  destruct app as [a|].
  2:{ simpl. split_and!; try done.
      - intros e Hin. absurd_in Hin.
      - unfold commits. simpl. lia. }
  destruct (_populate_db (x :: l) (Some a) (fresh db faults)) as [r s'] eqn:E.
  apply populate_shape in E as (r2 & s2 & E2 & H2). simpl.
  pose proof (reconcile_facts _ _ _ _ _ E2) as (Hst & Hc & _ & _ & Htrue).
  apply reconcile_flushed in E2 as (Hev & Hne & Hans); [|done].
  specialize (Htrue Hne).
  assert (Rollback ∉ trace s2) as Hroll.
  { destruct Hev as (_&_&_&(evs & -> & _ & Hr)&_). simpl.
    intros [?|Hin]%elem_of_app; [done|]. absurd_in Hin. }
  assert (Forall (λ r, levelname r ≠ ERROR) (log s2)) as Hlog.
  { destruct Hev as (_&_&_&_&(recs & -> & Hrecs)). simpl.
    apply Forall_app. split; [done|]. by repeat constructor. }
  destruct r2 as [finished|e2].
  - destruct finished; [|done]. specialize (Hans eq_refl).
    destruct H2 as (r3 & s3 & E3 & H3).
    pose proof (answered_session_commit s2) as Hcommit.
    apply session_commit_shape in E3 as E3'.
    destruct E3' as [(-> & t & Ht & ->)|(e3 & -> & ->)].
    + destruct H3 as [-> ->]. specialize (Hcommit _ _ E3). simpl in *. split_and!.
      * done.
      * intros _. split_and!.
        -- eapply answered_trans; [|eapply answered_trans; [exact Hans|exact Hcommit]].
           by apply answered_same.
        -- by intros [?|?]%elem_of_cons.
        -- by constructor.
      * intros e [?|Hin]%elem_of_cons; [done|]. by destruct (Htrue e).
      * unfold commits in *. rewrite filter_cons_True by done. simpl. lia.
      * intros _ _. split; [done|].
        unfold commits in *. rewrite filter_cons_True by done. simpl. lia.
    + destruct H3 as [-> ->]. simpl. split_and!.
      * intros e [= <-]. split_and!; [done..|]. by intros _.
      * done.
      * intros e [?|Hin]%elem_of_cons; [done|]. by destruct (Htrue e).
      * unfold commits in *. rewrite filter_cons_False by done.
        rewrite filter_cons_True by done. simpl. lia.
      * done.
  - destruct H2 as [-> ->]. simpl. split_and!.
    + intros e [= <-]. split_and!; [done..|]. by intros _.
    + done.
    + intros e [?|Hin]%elem_of_cons; [done|]. by destruct (Htrue e).
    + unfold commits in *. rewrite filter_cons_False by done. lia.
    + done.
Qed.

Lemma all_flushed_db_with_group : all_flushed db_with_group.
Proof. apply nothing_pending_all_flushed. by vm_compute. Qed.

(** The database fails the commit that writes the program of the last
    record: the run raises, and nothing of it remains. *)
Lemma C3_rollback_and_single_commit_witness :
  fst (_populate_db [org_D] (Some FlaskApp)
         (fresh db_with_group [false; false; false; false; false; false; true]))
    = Raise OperationalError
  ∧ stored (snd (_populate_db [org_D] (Some FlaskApp)
                   (fresh db_with_group [false; false; false; false; false; false; true])))
    = db_with_group
  ∧ session (snd (_populate_db [org_D] (Some FlaskApp)
                    (fresh db_with_group [false; false; false; false; false; false; true])))
    = db_with_group.
Proof.
  split; [by vm_compute|].
  destruct (C3_rollback_and_single_commit [org_D] (Some FlaskApp) db_with_group
              [false; false; false; false; false; false; true] all_flushed_db_with_group)
    as (Hraise & _).
  destruct (Hraise OperationalError) as (Hstored & Hsession & _); [by vm_compute|].
  by split.
Defined.

(** ** Region names *)

Lemma created_from_input_transfer normalize organizations_data n0 t t' :
  ext t t' → length (organizations t') = length (organizations t) →
  created_from_input normalize organizations_data n0 t →
  created_from_input normalize organizations_data n0 t'.
Proof.
  intros Hext Hlen H i o' Hi Hn.
  destruct (lookup_lt_is_Some_2 (organizations t) i) as [o Ho].
  { apply lookup_lt_Some in Hi. lia. }
  destruct (H i o Ho Hn) as (c & Hc & Hm & Hid & Hreg).
  pose proof Hext as (_&_&_&Hexto&_).
  destruct (Hexto _ _ Ho) as (o2 & Ho2 & Hsame). assert (o2 = o') as -> by congruence.
  exists c. split_and!; [done|by eapply made_from_same| |].
  - destruct Hsame as (_&_&_&_&_&_&Hk&_). by rewrite (Hk Hid).
  - intros Ht. by eapply (region_named_ext t); [..|apply Hreg].
Qed.

Lemma flush_length_organizations t t' :
  flush t = Some t' → length (organizations t') = length (organizations t).
Proof.
  intros (_&_&_&Ho&_)%flush_rewritten. symmetry. by eapply Forall2_length.
Qed.

Lemma stay_pass2_loop organizations_cache l caches :
  Respects organizations_stay (foldM (pass2 organizations_cache) l caches).
Proof.
  apply respects_foldM;
    [apply organizations_stay_refl|apply organizations_stay_trans|].
  intros. apply stay_pass2.
Qed.

(** C7, as amended: for an input whose region names and addresses are
    written in Basic Latin and Cyrillic U+0400..U+045F, in a completed
    run, every organization that the first pass created carries the
    values of a record of the input, and when that record has an explicit
    (non-empty) region name, the organization is keyed to a flushed region
    whose name is that field trimmed and capitalized ([str.capitalize]:
    first character in upper case, all others in lower case). *)
Theorem C7_region_name_is_capitalized organizations_data app db faults :
  let run := _populate_db organizations_data app (fresh db faults) in
  modelled_input organizations_data →
  completed run →
  created_from_input (λ name, capitalize (strip name)) organizations_data
    (length (organizations db)) (stored (snd run)).
Proof.
  intros run _ [Hok Hroll]. subst run.
  destruct organizations_data as [|x l].
  { simpl. intros i o Hi Hn. apply lookup_lt_Some in Hi. lia. }
  destruct app as [a|]; [|done].
  destruct (_populate_db (x :: l) (Some a) (fresh db faults)) as [r s'] eqn:E.
  simpl in *. subst r.
  apply populate_completed in E as (rc & oc & s1 & s2 & caches & s3 & H1 & Hf1 & H2 & Hf2 & _);
    [|done].
  pose proof (respects_pass2_loop _ _ _ _ _ _ H2) as (_ & Hext2 & _).
  pose proof (stay_pass2_loop _ _ _ _ _ _ H2) as Hstay2.
  apply pass1_loop_Ok in H1 as (_ & _ & _ & _ & Hnew);
    [|apply orgs_cached_empty|apply regions_cached_empty].
  simpl in Hnew.
  eapply created_from_input_transfer;
    [by eapply flush_ext|by eapply flush_length_organizations|].
  eapply created_from_input_transfer;
    [exact Hext2|symmetry; by eapply Forall2_length|].
  eapply created_from_input_transfer;
    [by eapply flush_ext|by eapply flush_length_organizations|].
  exact Hnew.
Qed.

Lemma C7_region_name_is_capitalized_witness :
  created_from_input (λ name, capitalize (strip name)) [org_B; org_A] 0
    (stored (snd (_populate_db [org_B; org_A] (Some FlaskApp) (fresh empty_tables [])))).
Proof.
  apply (C7_region_name_is_capitalized [org_B; org_A] (Some FlaskApp) empty_tables []).
  - by repeat constructor.
  - split; [by vm_compute|]. apply (bool_decide_unpack _). by vm_compute.
Defined.

(** C7 fails as worded: the region of a record whose region name is
    " тверская область " is called "Тверская область", which is not the
    title-cased "Тверская Область". *)
Lemma C7_counterexample : ¬ region_names_are_title_cased.
Proof.
  intros H.
  specialize (H [org_B] (Some FlaskApp) empty_tables []).
  assert (completed (_populate_db [org_B] (Some FlaskApp) (fresh empty_tables []))) as Hc.
  { split; [by vm_compute|]. apply (bool_decide_unpack _). by vm_compute. }
  specialize (H ltac:(by repeat constructor) Hc 0).
  destruct (organizations (stored (snd (_populate_db [org_B] (Some FlaskApp)
              (fresh empty_tables [])))) !! 0) as [o|] eqn:Eo; [|by vm_compute in Eo].
  destruct (H o eq_refl (Nat.le_0_l _)) as (c & Hin & _ & _ & Hreg).
  apply list_elem_of_singleton in Hin as ->.
  destruct (Hreg eq_refl) as (r & x & Hr & Hx & Hname & _).
  vm_compute in Eo. injection Eo as <-. injection Hr as <-.
  vm_compute in Hx. injection Hx as <-. vm_compute in Hname. discriminate.
Qed.

(** ** The second pass: branches *)

Lemma declares_parent_inv c :
  declares_parent c →
  ∃ p, OrgData.parent_ogrn c = Some p
       ∧ OrgData.is_branch c && truthy p = true.
Proof.
  unfold declares_parent. destruct (OrgData.parent_ogrn c) as [p|]; simpl.
  - eauto.
  - by rewrite andb_false_r.
Qed.

(** A declared head found in the cache: the branch gets its key. *)
Lemma link_parent_hit oc c j s s' p i :
  link_parent oc c j s = (Ok (), s') →
  OrgData.parent_ogrn c = Some p → OrgData.is_branch c && truthy p = true →
  oc !! p = Some i →
  session s' =
    mkTables (regions (session s)) (specialty_groups (session s)) (specialties (session s))
      (alter (EducationalOrganization.with_parent_id
                (organizations (session s) !! i ≫= EducationalOrganization.id))
             j (organizations (session s)))
      (programs (session s)).
Proof.
  unfold link_parent. intros Hrun Hp Hb Hi. rewrite Hp, Hb, Hi in Hrun.
  by injection Hrun as <-.
Qed.

Lemma linked_transfer (T : nat → Prop) t t' i j :
  ext t t' → parents_kept T t t' → ¬ T j → linked t i j → linked t' i j.
Proof.
  intros (_&_&_&Hext&_) Hp HT (oa & ob & Hi & Hj & Hpar & Hid).
  destruct (Hext _ _ Hi) as (oa' & Hi' & (_&_&_&_&_&_&Hk&_)).
  destruct (Hext _ _ Hj) as (ob' & Hj' & _).
  exists oa', ob'. split_and!; [done..| |by rewrite (Hk Hid)].
  rewrite (Hp j ob ob' HT Hj Hj'), Hpar. symmetry. by apply Hk.
Qed.

Lemma cached_indices_differ oc t k k' j :
  orgs_cached oc t → oc !! k = Some j → oc !! k' = Some j → k = k'.
Proof.
  intros Hoc Hk Hk'.
  destruct (Hoc _ _ Hk) as [(o & Ho & E)%by_ogrn_Some _].
  destruct (Hoc _ _ Hk') as [(o' & Ho' & E')%by_ogrn_Some _]. congruence.
Qed.

Lemma respects_pass2_branches organizations_data oc l caches :
  (∀ c, c ∈ l → c ∈ organizations_data) →
  Respects (evolves (branches organizations_data oc)) (foldM (pass2 oc) l caches).
Proof.
  intros Hsub. apply respects_foldM_in; [apply evolves_refl|apply evolves_trans|].
  intros b c Hc. apply respects_pass2. intros j Hd Hj. exists c. auto.
Qed.

Lemma pass2_links oc caches c s caches' s' i j ka kb :
  pass2 oc caches c s = (Ok caches', s') →
  orgs_cached oc (session s) →
  oc !! ka = Some i → oc !! kb = Some j → truthy kb = true →
  (declares_parent c → OrgData.ogrn c = kb → OrgData.parent_ogrn c = Some ka) →
  linked (session s) i j ∨ (OrgData.ogrn c = kb ∧ declares_parent c) →
  linked (session s') i j.
Proof.
  intros Hrun Hoc Hi Hj Hkb Hagree Hcase.
  destruct (decide (OrgData.ogrn c = kb ∧ declares_parent c)) as [[Hk Hd]|Hno].
  - (* the record of the branch: its parent is set *)
    pose proof (Hagree Hd Hk) as Hp.
    destruct (declares_parent_inv _ Hd) as (p & Hp' & Hb).
    assert (p = ka) as -> by congruence.
    unfold pass2 in Hrun. rewrite Hk, Hkb, Hj in Hrun. simpl in Hrun.
    apply bind_Ok in Hrun as ([] & s1 & Hlink & Hloop).
    pose proof (link_parent_hit _ _ _ _ _ _ _ Hlink Hp' Hb Hi) as Hs1.
    assert (linked (session s1) i j) as Hl1.
    { destruct (Hoc _ _ Hi) as (_ & oa & Hoa & Hida).
      destruct (Hoc _ _ Hj) as (_ & ob & Hob & _).
      rewrite Hs1. unfold linked. simpl. rewrite Hoa. simpl.
      destruct (decide (i = j)) as [->|Hne].
      - assert (ob = oa) as -> by congruence.
        eexists _, _. rewrite list_lookup_alter_eq, Hoa. simpl. done.
      - eexists oa, _. rewrite list_lookup_alter_ne by done.
        rewrite list_lookup_alter_eq, Hob. simpl. done. }
    assert (Respects (evolves nobody)
              (foldM (load_program kb j) (OrgData.programs c) caches)) as Hres.
    { apply respects_foldM; [apply evolves_refl|apply evolves_trans|].
      intros. apply respects_load_program. }
    destruct (Hres _ _ _ Hloop) as (_ & Hext & Hpar & _).
    eapply (linked_transfer nobody); [exact Hext|exact Hpar|by intros []|exact Hl1].
  - (* another record: the link, if there, is kept *)
    destruct Hcase as [Hl|?]; [|done].
    assert (Respects (evolves (λ j', declares_parent c ∧ oc !! OrgData.ogrn c = Some j'))
              (pass2 oc caches c)) as Hres.
    { apply respects_pass2. auto. }
    destruct (Hres _ _ _ Hrun) as (_ & Hext & Hpar & _).
    eapply linked_transfer; [done..| |done].
    intros [Hd Hj']. apply Hno. split; [|done].
    by eapply cached_indices_differ.
Qed.

Lemma pass2_loop_links oc l : ∀ caches s caches' s' i j ka kb,
  foldM (pass2 oc) l caches s = (Ok caches', s') →
  orgs_cached oc (session s) →
  oc !! ka = Some i → oc !! kb = Some j → truthy kb = true →
  (∀ c, c ∈ l → declares_parent c → OrgData.ogrn c = kb →
        OrgData.parent_ogrn c = Some ka) →
  linked (session s) i j ∨ (∃ c, c ∈ l ∧ OrgData.ogrn c = kb ∧ declares_parent c) →
  linked (session s') i j.
Proof.
  induction l as [|x l IH]; intros caches s caches' s' i j ka kb Hrun Hoc Hi Hj Hkb Hagree Hcase.
  - injection Hrun as <- <-. destruct Hcase as [?|(c & Hc & _)]; [done|].
    by apply elem_of_nil in Hc.
  - simpl in Hrun. apply bind_Ok in Hrun as (caches1 & s1 & Hx & Hrest).
    assert (orgs_cached oc (session s1)) as Hoc1.
    { eapply orgs_cached_ext; [done|]. revert Hx. apply (run_ext _ anyone).
      by apply respects_pass2. }
    eapply IH; [exact Hrest|done..| |].
    { intros c Hc. apply Hagree. by apply list_elem_of_further. }
    destruct (decide (OrgData.ogrn x = kb ∧ declares_parent x)) as [Hx'|Hnx].
    + left. eapply pass2_links; [exact Hx|done..| |by right].
      intros Hd Hk. apply Hagree; [apply list_elem_of_here|done..].
    + destruct Hcase as [Hl|(c & [->|Hc]%elem_of_cons & Hk & Hd)].
      * left. eapply pass2_links; [exact Hx|done..| |by left].
        intros Hd Hk. apply Hagree; [apply list_elem_of_here|done..].
      * by destruct Hnx.
      * right. eauto.
Qed.

(** ** Branches and existing rows after a run *)

Lemma pass1_from_fresh x l db faults rc oc s1 :
  foldM pass1 (x :: l) (∅, ∅) (logged INFO MsgPass1Start (entered (fresh db faults)))
    = (Ok (rc, oc), s1) →
  orgs_cached oc (session s1)
  ∧ (∀ c, c ∈ x :: l → truthy (OrgData.ogrn c) = true → is_Some (oc !! OrgData.ogrn c))
  ∧ ext db (session s1) ∧ parents_kept nobody db (session s1).
Proof.
  intros H1.
  destruct (respects_pass1_loop nobody _ _ _ _ _ H1) as (_ & Hext & Hpar & _).
  apply pass1_loop_Ok in H1 as (Hoc & _ & _ & Hin & _);
    [|apply orgs_cached_empty|apply regions_cached_empty].
  done.
Qed.

(** C5, as amended: in a completed run on an input with a record [a]
    and a record [b] that is a branch and names the OGRN of [a] as its
    head, provided that the records that carry the OGRN of [b] and declare
    a head all name that same head, the organization stored under the OGRN
    of [b] has as [parent_id] the key of the organization stored under the
    OGRN of [a]. *)
Theorem C5_branch_is_linked_to_head organizations_data app db faults a b :
  let run := _populate_db organizations_data app (fresh db faults) in
  completed run →
  a ∈ organizations_data → b ∈ organizations_data →
  truthy (OrgData.ogrn a) = true → truthy (OrgData.ogrn b) = true →
  OrgData.is_branch b = true →
  OrgData.parent_ogrn b = Some (OrgData.ogrn a) →
  (∀ c, c ∈ organizations_data → OrgData.ogrn c = OrgData.ogrn b →
        declares_parent c → OrgData.parent_ogrn c = Some (OrgData.ogrn a)) →
  ∃ i j,
    EducationalOrganization_by_ogrn (OrgData.ogrn a) (stored (snd run)) = Some i
    ∧ EducationalOrganization_by_ogrn (OrgData.ogrn b) (stored (snd run)) = Some j
    ∧ linked (stored (snd run)) i j.
Proof.
  intros run [Hok Hroll] Ha Hb Hta Htb Hbranch Hparent Hagree. subst run.
  destruct organizations_data as [|x l]; [by apply elem_of_nil in Ha|].
  destruct app as [app|]; [|done].
  destruct (_populate_db (x :: l) (Some app) (fresh db faults)) as [r s'] eqn:E.
  simpl in *. subst r.
  apply populate_completed in E as (rc & oc & s1 & s2 & caches & s3 & H1 & Hf1 & H2 & Hf2 & _);
    [|done].
  apply pass1_from_fresh in H1 as (Hoc1 & Hin & _).
  destruct (Hin a Ha Hta) as [i Hi]. destruct (Hin b Hb Htb) as [j Hj].
  assert (orgs_cached oc (session s2)) as Hoc2.
  { eapply orgs_cached_ext; [done|by apply flush_ext]. }
  assert (orgs_cached oc (session s3)) as Hoc3.
  { eapply orgs_cached_ext; [done|]. revert H2. apply (run_ext _ anyone).
    apply respects_pass2_loop. }
  assert (linked (session s3) i j) as Hl3.
  { eapply pass2_loop_links; [exact H2|done..| |].
    - intros c Hc Hd Hk. by apply Hagree.
    - right. exists b. split_and!; [done..|].
      unfold declares_parent. by rewrite Hbranch, Hparent; simpl; rewrite Hta. }
  pose proof (flush_rewritten _ _ Hf2) as Hrw.
  exists i, j. split_and!.
  - eapply by_ogrn_ext; [by apply rewritten_ext|]. by apply Hoc3.
  - eapply by_ogrn_ext; [by apply rewritten_ext|]. by apply Hoc3.
  - eapply (linked_transfer nobody);
      [by apply rewritten_ext|by apply rewritten_parents|by intros []|done].
Qed.

Lemma C5_branch_is_linked_to_head_witness :
  ∃ i j,
    EducationalOrganization_by_ogrn (OrgData.ogrn org_A)
      (stored (snd (_populate_db [org_B; org_A] (Some FlaskApp) (fresh empty_tables []))))
      = Some i
    ∧ EducationalOrganization_by_ogrn (OrgData.ogrn org_B)
        (stored (snd (_populate_db [org_B; org_A] (Some FlaskApp) (fresh empty_tables []))))
        = Some j
    ∧ linked (stored (snd (_populate_db [org_B; org_A] (Some FlaskApp)
                (fresh empty_tables [])))) i j.
Proof.
  apply (C5_branch_is_linked_to_head [org_B; org_A] (Some FlaskApp) empty_tables []
           org_A org_B).
  - split; [by vm_compute|]. apply (bool_decide_unpack _). by vm_compute.
  - apply list_elem_of_further, list_elem_of_here.
  - apply list_elem_of_here.
  - reflexivity.
  - reflexivity.
  - reflexivity.
  - reflexivity.
  - intros c [->|[->|[]%elem_of_nil]%elem_of_cons]%elem_of_cons; [done|].
    intros Hk. by vm_compute in Hk.
Defined.

(** C5 fails as worded: the input holds A, its branch B, another head H
    and a second record of B that names H.  The run completes, and the
    parent_id of B is the key of H (3), not the key of A (1): the second
    pass assigns parent_id for every record that declares a head, and the
    last one decides. *)
Lemma C5_counterexample : ¬ branches_are_linked_to_their_head.
Proof.
  intros H.
  destruct (H [org_A; org_B; org_H; org_B2] (Some FlaskApp) empty_tables [] org_A org_B)
    as (i & j & Hi & Hj & oa & ob & Hoa & Hob & Hparent & _).
  - split; [by vm_compute|]. apply (bool_decide_unpack _). by vm_compute.
  - apply list_elem_of_here.
  - apply list_elem_of_further, list_elem_of_here.
  - reflexivity.
  - reflexivity.
  - reflexivity.
  - reflexivity.
  - reflexivity.
  - vm_compute in Hi. injection Hi as <-. vm_compute in Hj. injection Hj as <-.
    vm_compute in Hoa. injection Hoa as <-. vm_compute in Hob. injection Hob as <-.
    by vm_compute in Hparent.
Qed.

(** The run of that input. *)
Lemma last_declaration_decides :
  let run := _populate_db [org_A; org_B; org_H; org_B2] (Some FlaskApp)
               (fresh empty_tables []) in
  completed run
  ∧ (λ o, (EducationalOrganization.id o, EducationalOrganization.parent_id o))
      <$> organizations (stored (snd run))
    = [(Some 1, None); (Some 2, Some 3); (Some 3, None)].
Proof.
  split; [|by vm_compute].
  split; [by vm_compute|]. apply (bool_decide_unpack _). by vm_compute.
Qed.

(** What a run leaves in the committed database: what was there; or what
    was there, flushed by the commit that follows an abandoned first pass;
    or the outcome of the two passes, flushed by the commit. *)
Lemma run_outcomes x l a db faults :
  let run := _populate_db (x :: l) (Some a) (fresh db faults) in
  stored (snd run) = db
  ∨ flush db = Some (stored (snd run))
  ∨ ∃ rc oc s1 s2 caches s3,
      foldM pass1 (x :: l) (∅, ∅) (logged INFO MsgPass1Start (entered (fresh db faults)))
        = (Ok (rc, oc), s1)
      ∧ flush (session s1) = Some (session s2)
      ∧ foldM (pass2 oc) (x :: l) (∅, ∅) s2 = (Ok caches, s3)
      ∧ flush (session s3) = Some (stored (snd run)).
Proof.
  intros run. subst run.
  destruct (_populate_db (x :: l) (Some a) (fresh db faults)) as [r s'] eqn:E. simpl.
  apply populate_shape in E as (r2 & s2 & Hrec & Hcase).
  pose proof (reconcile_facts _ _ _ _ _ Hrec) as (Hst & _ & _ & Hfalse & _).
  destruct r2 as [finished|e]; [|destruct Hcase as [_ ->]; by left].
  destruct Hcase as (r3 & s3 & Hcommit & Hcase).
  apply session_commit_shape in Hcommit as [(-> & t & Ht & ->)|(e & -> & ->)];
    [|destruct Hcase as [_ ->]; by left].
  destruct Hcase as [_ ->]. right.
  destruct finished; simpl.
  - right.
    apply reconcile_true in Hrec as (rc & oc & s1 & s2' & caches & s3 & H1 & H2 & H3 & H4 & _).
    exists rc, oc, s1, s2', caches, s3. by rewrite <- H4.
  - left. destruct (Hfalse eq_refl) as [<- _]. done.
Qed.

(** C4, as amended: whatever the outcome of the run, a row of
    EducationalOrganization that exists before it keeps its key, its
    full_name, short_name, ogrn, inn, address and region_id; it keeps its
    parent_id too unless the input has a record with the OGRN of the row
    that declares a head organization. *)
Theorem C4_existing_row_keeps_its_fields organizations_data app db faults i o :
  organizations db !! i = Some o →
  is_Some (EducationalOrganization.id o) →
  ∃ o',
    organizations (stored (snd (_populate_db organizations_data app (fresh db faults)))) !! i
      = Some o'
    ∧ EducationalOrganization.id o' = EducationalOrganization.id o
    ∧ EducationalOrganization.full_name o' = EducationalOrganization.full_name o
    ∧ EducationalOrganization.short_name o' = EducationalOrganization.short_name o
    ∧ EducationalOrganization.ogrn o' = EducationalOrganization.ogrn o
    ∧ EducationalOrganization.inn o' = EducationalOrganization.inn o
    ∧ EducationalOrganization.address o' = EducationalOrganization.address o
    ∧ EducationalOrganization.region_id o' = EducationalOrganization.region_id o
    ∧ ((∀ c, c ∈ organizations_data → declares_parent c →
             EducationalOrganization.ogrn o ≠ Some (OrgData.ogrn c)) →
       EducationalOrganization.parent_id o' = EducationalOrganization.parent_id o).
Proof.
  intros Ho Hid.
  assert (∀ t, ext db t →
            (∀ o', organizations t !! i = Some o' →
               (∀ c, c ∈ organizations_data → declares_parent c →
                     EducationalOrganization.ogrn o ≠ Some (OrgData.ogrn c)) →
               EducationalOrganization.parent_id o' = EducationalOrganization.parent_id o) →
            ∃ o', organizations t !! i = Some o'
              ∧ EducationalOrganization.id o' = EducationalOrganization.id o
              ∧ EducationalOrganization.full_name o' = EducationalOrganization.full_name o
              ∧ EducationalOrganization.short_name o' = EducationalOrganization.short_name o
              ∧ EducationalOrganization.ogrn o' = EducationalOrganization.ogrn o
              ∧ EducationalOrganization.inn o' = EducationalOrganization.inn o
              ∧ EducationalOrganization.address o' = EducationalOrganization.address o
              ∧ EducationalOrganization.region_id o' = EducationalOrganization.region_id o
              ∧ ((∀ c, c ∈ organizations_data → declares_parent c →
                       EducationalOrganization.ogrn o ≠ Some (OrgData.ogrn c)) →
                 EducationalOrganization.parent_id o' = EducationalOrganization.parent_id o))
    as Hgen.
  { intros t (_&_&_&Hext&_) Hpar. destruct (Hext _ _ Ho) as (o' & Ho' & Hs).
    destruct Hs as (?&?&?&?&?&?&Hk&Hr). exists o'. split_and!; auto. }
  assert (∀ t, t = db → ext db t ∧
            ∀ o', organizations t !! i = Some o' →
               (∀ c, c ∈ organizations_data → declares_parent c →
                     EducationalOrganization.ogrn o ≠ Some (OrgData.ogrn c)) →
               EducationalOrganization.parent_id o' = EducationalOrganization.parent_id o)
    as Hsame.
  { intros t ->. split; [apply ext_refl|]. intros o' Ho' _. congruence. }
  destruct organizations_data as [|x l].
  { simpl. apply Hgen; by apply Hsame. }
  destruct app as [a|].
  2:{ simpl. apply Hgen; by apply Hsame. }
  destruct (run_outcomes x l a db faults) as [E|[E|E]].
  - apply Hgen; by apply Hsame.
  - apply flush_rewritten in E. apply Hgen; [by apply rewritten_ext|].
    intros o' Ho' _. by apply (rewritten_parents nobody _ _ E i o o'); [intros []|..].
  - destruct E as (rc & oc & s1 & s2 & caches & s3 & H1 & Hf1 & H2 & Hf2).
    apply pass1_from_fresh in H1 as (Hoc1 & _ & Hext1 & Hpar1).
    pose proof (flush_rewritten _ _ Hf1) as Hrw1.
    pose proof (flush_rewritten _ _ Hf2) as Hrw2.
    pose proof (respects_pass2_branches (x :: l) oc (x :: l) (∅, ∅) ltac:(done) _ _ _ H2)
      as (_ & Hext2 & Hpar2 & _).
    assert (ext db (session s2)) as Hdb2.
    { eapply ext_trans; [done|by apply rewritten_ext]. }
    assert (ext db (session s3)) as Hdb3 by (by eapply ext_trans).
    apply Hgen; [eapply ext_trans; [done|by apply rewritten_ext]|].
    intros o4 Ho4 Hnone.
    destruct Hext1 as (_&_&_&Hx1&_). destruct (Hx1 _ _ Ho) as (o1 & Ho1 & _).
    pose proof Hdb2 as (_&_&_&Hx2&_). destruct (Hx2 _ _ Ho) as (o2 & Ho2 & Hs2).
    pose proof Hdb3 as (_&_&_&Hx3&_). destruct (Hx3 _ _ Ho) as (o3 & Ho3 & _).
    rewrite (rewritten_parents nobody _ _ Hrw2 i o3 o4); [|by intros []|done..].
    rewrite (Hpar2 i o2 o3); [| |done..].
    + rewrite (rewritten_parents nobody _ _ Hrw1 i o1 o2); [|by intros []|done..].
      by apply (Hpar1 i o o1); [intros []|..].
    + intros (c & Hc & Hd & Hci).
      apply (Hnone c Hc Hd).
      assert (orgs_cached oc (session s2)) as Hoc2.
      { eapply orgs_cached_ext; [done|by apply rewritten_ext]. }
      destruct (Hoc2 _ _ Hci) as [(o2' & Ho2' & E)%by_ogrn_Some _].
      assert (o2' = o2) as -> by congruence.
      destruct Hs2 as (_&_&Hogrn&_). congruence.
Qed.

Lemma C4_existing_row_keeps_its_fields_witness :
  ∃ o',
    organizations (stored (snd (_populate_db [org_B] (Some FlaskApp)
                     (fresh db_with_A_B [])))) !! 0 = Some o'
    ∧ EducationalOrganization.full_name o' = u "Institute A"
    ∧ EducationalOrganization.parent_id o' = None.
Proof.
  destruct (C4_existing_row_keeps_its_fields [org_B] (Some FlaskApp) db_with_A_B [] 0
              (EducationalOrganization.mk (Some 1) (u "Institute A") None
                 (Some (u "1027700000001")) None None None None None))
    as (o' & Ho' & _ & Hname & _ & _ & _ & _ & _ & Hparent).
  - reflexivity.
  - by eexists.
  - exists o'. split_and!; [done|done|]. apply Hparent.
    intros c ->%list_elem_of_singleton _. by vm_compute.
Defined.

(** C4 fails as worded: B is stored without a parent, the input says B is
    a branch of A, and the run sets the parent_id of the stored row. *)
Lemma C4_counterexample : ¬ existing_rows_are_untouched.
Proof.
  intros H.
  specialize (H [org_B] (Some FlaskApp) db_with_A_B [] 1
    (EducationalOrganization.mk (Some 2) (u "Branch B") None
       (Some (u "1027700000002")) None None None None None)
    eq_refl ltac:(by eexists)).
  assert (EducationalOrganization.parent_id <$>
            organizations (stored (snd (_populate_db [org_B] (Some FlaskApp)
                             (fresh db_with_A_B [])))) !! 1 = Some (Some 1)) as Hrun
    by (by vm_compute).
  rewrite H in Hrun; [by vm_compute in Hrun|].
  exists org_B. split; [apply list_elem_of_here|by vm_compute].
Qed.

(** ** A branch whose head is unknown *)

Lemma no_ogrn_stay p t t' :
  Forall2 EducationalOrganization_same (organizations t) (organizations t') →
  no_ogrn p t → no_ogrn p t'.
Proof.
  unfold no_ogrn. intros H2. induction H2 as [|o o' l l' Hs _ IH]; [done|].
  intros Hn. inversion_clear Hn. constructor; [|by apply IH].
  destruct Hs as (_&_&E&_). by rewrite E.
Qed.

Lemma no_ogrn_miss p t : no_ogrn p t → EducationalOrganization_by_ogrn p t = None.
Proof. intros Hn. by apply first_ref_None. Qed.

Lemma no_ogrn_run {A} (m : M A) p s r s' :
  Respects organizations_stay m → m s = (r, s') →
  no_ogrn p (session s) → no_ogrn p (session s').
Proof. intros Hm Hrun. apply no_ogrn_stay. by eapply Hm. Qed.

(** The statement that links a branch, when the declared head is found
    neither in the cache nor in the session: nothing is re-parented and the
    warning is logged. *)
Lemma link_parent_unknown oc c j s s' p :
  link_parent oc c j s = (Ok (), s') →
  OrgData.parent_ogrn c = Some p → oc !! p = None → no_ogrn p (session s) →
  evolves nobody s s'
  ∧ (OrgData.is_branch c && truthy p = true → parent_not_found p c ∈ log s').
Proof.
  unfold link_parent. intros Hrun Hp Hcache Hn. rewrite Hp in Hrun.
  destruct (OrgData.is_branch c && truthy p) eqn:Eb.
  2:{ injection Hrun as <-. split; [apply evolves_refl|done]. }
  rewrite Hcache in Hrun. apply bind_Ok in Hrun as (found & s1 & Hq & Hrun).
  pose proof (respects_session_query nobody _ _ _ _ Hq) as Hev.
  assert (no_ogrn p (session s1)) as Hn1.
  { revert Hq Hn. apply no_ogrn_run. auto with respects. }
  apply session_query_Ok in Hq as [_ ->]. rewrite (no_ogrn_miss _ _ Hn1) in Hrun.
  rewrite logging_run in Hrun. injection Hrun as <-. split.
  - eapply evolves_trans; [exact Hev|].
    by eapply (respects_logging nobody WARNING), logging_run.
  - intros _. apply list_elem_of_here.
Qed.

Lemma evolves_log T s s' r : evolves T s s' → r ∈ log s → r ∈ log s'.
Proof. intros (_&_&_&_&recs&->&_) Hr. apply elem_of_app. by right. Qed.

Lemma pass2_warns oc caches c s caches' s' p :
  pass2 oc caches c s = (Ok caches', s') →
  oc !! p = None → no_ogrn p (session s) →
  truthy (OrgData.ogrn c) = true → is_Some (oc !! OrgData.ogrn c) →
  OrgData.is_branch c = true → OrgData.parent_ogrn c = Some p → truthy p = true →
  parent_not_found p c ∈ log s'.
Proof.
  intros Hrun Hcache Hn Ht [j Hj] Hb Hp Htp. unfold pass2 in Hrun.
  rewrite Ht, Hj in Hrun. simpl in Hrun.
  apply bind_Ok in Hrun as ([] & s1 & Hlink & Hloop).
  eapply link_parent_unknown in Hlink as [_ Hw]; [|done..].
  eapply (evolves_log nobody); [by eapply respects_load_programs|].
  apply Hw. by rewrite Hb, Htp.
Qed.

Lemma pass2_keeps_parent oc caches c s caches' s' p k j :
  pass2 oc caches c s = (Ok caches', s') →
  orgs_cached oc (session s) → oc !! p = None → no_ogrn p (session s) →
  oc !! k = Some j →
  (OrgData.ogrn c = k → declares_parent c → OrgData.parent_ogrn c = Some p) →
  evolves (λ j', j' ≠ j) s s'.
Proof.
  intros Hrun Hoc Hcache Hn Hj Hagree.
  destruct (decide (OrgData.ogrn c = k ∧ declares_parent c)) as [[Hk Hd]|Hno].
  - pose proof (Hagree Hk Hd) as Hp. unfold pass2 in Hrun.
    destruct (truthy (OrgData.ogrn c)); simpl in Hrun;
      [|injection Hrun as <- <-; apply evolves_refl].
    rewrite Hk, Hj in Hrun. apply bind_Ok in Hrun as ([] & s1 & Hlink & Hloop).
    eapply link_parent_unknown in Hlink as [Hev _]; [|done..].
    apply (evolves_mono nobody); [by intros ? []|].
    eapply evolves_trans; [exact Hev|]. by eapply respects_load_programs.
  - eapply (evolves_mono (λ j', declares_parent c ∧ oc !! OrgData.ogrn c = Some j')).
    + intros j' [Hd Hj'] ->. apply Hno. split; [|done].
      by eapply cached_indices_differ.
    + revert Hrun. apply respects_pass2. auto.
Qed.

Lemma pass2_loop_keeps_parent oc p k j l : ∀ caches s caches' s',
  foldM (pass2 oc) l caches s = (Ok caches', s') →
  orgs_cached oc (session s) → oc !! p = None → no_ogrn p (session s) →
  oc !! k = Some j →
  (∀ c, c ∈ l → OrgData.ogrn c = k → declares_parent c → OrgData.parent_ogrn c = Some p) →
  evolves (λ j', j' ≠ j) s s'.
Proof.
  induction l as [|x l IH]; intros caches s caches' s' Hrun Hoc Hcache Hn Hj Hagree.
  - injection Hrun as <- <-. apply evolves_refl.
  - rewrite foldM_cons in Hrun. apply bind_Ok in Hrun as (caches1 & s1 & Hx & Hrest).
    eapply evolves_trans.
    + eapply pass2_keeps_parent; [exact Hx|done..|]. apply Hagree, list_elem_of_here.
    + eapply IH; [exact Hrest| |done| |done|].
      * eapply orgs_cached_ext; [done|]. revert Hx. apply (run_ext _ anyone).
        by apply respects_pass2.
      * revert Hx Hn. apply no_ogrn_run, stay_pass2.
      * intros c Hc. by apply Hagree, list_elem_of_further.
Qed.

Lemma pass2_loop_warns oc p c l : ∀ caches s caches' s',
  foldM (pass2 oc) l caches s = (Ok caches', s') →
  oc !! p = None → no_ogrn p (session s) → c ∈ l →
  truthy (OrgData.ogrn c) = true → is_Some (oc !! OrgData.ogrn c) →
  OrgData.is_branch c = true → OrgData.parent_ogrn c = Some p → truthy p = true →
  parent_not_found p c ∈ log s'.
Proof.
  induction l as [|x l IH]; intros caches s caches' s' Hrun Hcache Hn Hc Ht Hj Hb Hp Htp.
  - by apply elem_of_nil in Hc.
  - rewrite foldM_cons in Hrun. apply bind_Ok in Hrun as (caches1 & s1 & Hx & Hrest).
    apply elem_of_cons in Hc as [->|Hc].
    + eapply (evolves_log anyone); [by eapply respects_pass2_loop|].
      by eapply pass2_warns.
    + eapply IH; [exact Hrest|done| |done..].
      revert Hx Hn. apply no_ogrn_run, stay_pass2.
Qed.

(** ** The organizations that the first pass creates have no parent *)

Lemma pass1_new_parent caches c s caches' s' :
  pass1 caches c s = (Ok caches', s') →
  ∀ i o, organizations (session s') !! i = Some o →
         length (organizations (session s)) ≤ i →
         EducationalOrganization.parent_id o = None.
Proof.
  destruct caches as [rc oc]. intros Hrun i o Hi Hlen. unfold pass1 in Hrun.
  destruct (truthy (OrgData.ogrn c)); simpl in Hrun.
  2:{ rewrite logging_bind in Hrun. injection Hrun as <- <-.
      apply lookup_lt_Some in Hi. simpl in Hi. lia. }
  destruct (oc !! OrgData.ogrn c).
  { injection Hrun as <- <-. apply lookup_lt_Some in Hi. lia. }
  apply bind_Ok in Hrun as (found & s1 & Hq & Hrun).
  assert (length (organizations (session s1)) = length (organizations (session s))) as Hlen1.
  { revert Hq. apply run_stay. auto with respects. }
  destruct found as [j|].
  { rewrite logging_bind in Hrun. injection Hrun as <- <-.
    apply lookup_lt_Some in Hi. simpl in Hi. lia. }
  apply bind_Ok in Hrun as ([region rc1] & s2 & Hregion & Hrun).
  assert (length (organizations (session s2)) = length (organizations (session s1))) as Hlen2.
  { revert Hregion. apply run_stay. respects;
      first [apply stay_region_for|apply stay_extract_region; eauto with respects]. }
  apply bind_Ok in Hrun as (organization & s3 & Hadd & Hrun).
  injection Hadd as <- <-. rewrite logging_bind in Hrun.
  apply bind_Ok in Hrun as (? & s4 & Hflush & Hrun). injection Hrun as <- <-.
  apply session_flush_Ok in Hflush. simpl in Hflush.
  pose proof (flush_inv _ _ Hflush) as (_ & _ & _ & Hfo & _). simpl in Hfo.
  assert (i = length (organizations (session s2))) as ->.
  { apply lookup_lt_Some in Hi. apply Forall2_length in Hfo.
    rewrite length_app in Hfo. simpl in Hfo. lia. }
  destruct (Forall2_lookup_l _ _ _ _ _ Hfo (lookup_last_added _ _)) as (o' & Ho' & Hfa).
  assert (o' = o) as -> by congruence.
  by destruct Hfa as [(_ & m & ->)|[_ ->]].
Qed.

Lemma pass1_loop_new_parent l : ∀ caches s caches' s',
  foldM pass1 l caches s = (Ok caches', s') →
  ∀ i o, organizations (session s') !! i = Some o →
         length (organizations (session s)) ≤ i →
         EducationalOrganization.parent_id o = None.
Proof.
  induction l as [|x l IH]; intros caches s caches' s' Hrun i o Hi Hlen.
  - injection Hrun as <- <-. apply lookup_lt_Some in Hi. lia.
  - rewrite foldM_cons in Hrun. apply bind_Ok in Hrun as (caches1 & s1 & Hx & Hrest).
    destruct (decide (length (organizations (session s1)) ≤ i)) as [Hge|Hlt].
    { by eapply IH. }
    destruct (lookup_lt_is_Some_2 (organizations (session s1)) i) as [o1 Ho1]; [lia|].
    destruct (respects_pass1_loop nobody _ _ _ _ _ Hrest) as (_ & _ & Hpar & _).
    rewrite (Hpar i o1 o); [|by intros []|done..].
    by eapply pass1_new_parent.
Qed.

(** In a completed run on an input with a branch [c] whose declared head
    [p] is the OGRN of no record and of no stored organization: the
    warning is logged, and the organization stored under the OGRN of [c]
    has the parent_id it had before the run, null when the run created
    it. *)
Lemma unknown_head_in_run x l a db faults s' c p :
  _populate_db (x :: l) (Some a) (fresh db faults) = (Ok (), s') →
  Rollback ∉ trace s' →
  c ∈ x :: l → truthy (OrgData.ogrn c) = true →
  OrgData.is_branch c = true → OrgData.parent_ogrn c = Some p → truthy p = true →
  (∀ c', c' ∈ x :: l → OrgData.ogrn c' ≠ p) → no_ogrn p db →
  parent_not_found p c ∈ log s'
  ∧ ((∀ c', c' ∈ x :: l → OrgData.ogrn c' = OrgData.ogrn c → declares_parent c' →
            OrgData.parent_ogrn c' = Some p) →
     ∃ j o, EducationalOrganization_by_ogrn (OrgData.ogrn c) (stored s') = Some j
            ∧ organizations (stored s') !! j = Some o
            ∧ EducationalOrganization.parent_id o
              = organizations db !! j ≫= EducationalOrganization.parent_id).
Proof.
  intros E Hroll Hc Ht Hb Hp Htp Hfresh Hdb.
  apply populate_completed in E
    as (rc & oc & s1 & s2 & caches & s3 & H1 & Hf1 & H2 & Hf2 & _ & Hlog); [|done].
  pose proof (respects_pass1_loop nobody _ _ _ _ _ H1) as (_ & Hext1 & Hpar1 & _).
  pose proof (pass1_loop_new_parent _ _ _ _ _ H1) as Hnew1.
  apply pass1_loop_Ok in H1 as (Hoc1 & _ & _ & Hin & Hmade);
    [|apply orgs_cached_empty|apply regions_cached_empty].
  simpl in Hext1, Hpar1, Hnew1, Hmade.
  assert (no_ogrn p (session s1)) as Hn1.
  { apply Forall_lookup. intros i o Hi.
    destruct (decide (length (organizations db) ≤ i)) as [Hge|Hlt].
    - destruct (Hmade i o Hi Hge) as (c' & Hc' & (_&_&E&_) & _). rewrite E.
      intros [= Heq]. by apply (Hfresh c').
    - destruct (lookup_lt_is_Some_2 (organizations db) i) as [o0 Ho0]; [lia|].
      destruct Hext1 as (_&_&_&Ho&_). destruct (Ho _ _ Ho0) as (o' & Ho' & (_&_&E&_)).
      assert (o' = o) as -> by congruence. rewrite E.
      unfold no_ogrn in Hdb. rewrite Forall_lookup in Hdb. by eapply Hdb. }
  assert (oc !! p = None) as Hcache.
  { destruct (oc !! p) as [i|] eqn:Ei; [|done].
    destruct (Hoc1 _ _ Ei) as [Hby _]. by rewrite (no_ogrn_miss _ _ Hn1) in Hby. }
  pose proof (flush_rewritten _ _ Hf1) as Hrw1.
  assert (no_ogrn p (session s2)) as Hn2
    by (by eapply no_ogrn_stay; [apply rewritten_organizations|]).
  assert (orgs_cached oc (session s2)) as Hoc2.
  { eapply orgs_cached_ext; [done|by apply flush_ext]. }
  assert (orgs_cached oc (session s3)) as Hoc3.
  { eapply orgs_cached_ext; [done|]. revert H2. apply (run_ext _ anyone).
    apply respects_pass2_loop. }
  destruct (Hin c Hc Ht) as [j Hj].
  split.
  - rewrite Hlog. do 2 apply list_elem_of_further.
    eapply pass2_loop_warns; [exact H2|done..].
  - intros Hagree.
    eapply pass2_loop_keeps_parent in H2 as (_ & _ & Hpar2 & _); [|done..].
    pose proof (flush_rewritten _ _ Hf2) as Hrw2.
    destruct (Hoc1 _ _ Hj) as (_ & o1 & Ho1 & _).
    destruct (Hoc2 _ _ Hj) as (_ & o2 & Ho2 & _).
    destruct (Hoc3 _ _ Hj) as (Hby3 & o3 & Ho3 & _).
    pose proof Hrw2 as (_&_&_&Hro2&_).
    destruct (Forall2_lookup_l _ _ _ _ _ Hro2 Ho3) as (o & Ho & _ & Hpo).
    exists j, o. split_and!; [|done|].
    { eapply by_ogrn_ext; [by apply rewritten_ext|done]. }
    rewrite Hpo, (Hpar2 j o2 o3); [|by intros ?|done..].
    rewrite (rewritten_parents nobody _ _ Hrw1 j o1 o2); [|by intros []|done..].
    destruct (organizations db !! j) as [o0|] eqn:Ej; simpl.
    + apply (Hpar1 j o0 o1); [by intros []|done..].
    + apply (Hnew1 j o1 Ho1). by apply lookup_ge_None.
Qed.

(** ** The run on a branch whose head is unknown *)

(** The statement that links a branch whose declared head is found
    neither in the in-run cache nor among the organizations of the
    session: provided the database answers the lookup (it accepts the
    pending insertions and does not fail the query), the statement returns
    normally, having logged the warning, and the session is the flushed
    one, with every parent_id as it was. *)
Lemma link_parent_not_found organizations_cache org_data organization s parent_ogrn t :
  OrgData.is_branch org_data = true →
  OrgData.parent_ogrn org_data = Some parent_ogrn →
  truthy parent_ogrn = true →
  organizations_cache !! parent_ogrn = None →
  no_ogrn parent_ogrn (session s) →
  head (faults s) ≠ Some true →
  flush (session s) = Some t →
  link_parent organizations_cache org_data organization s =
    (Ok (), mkState t (stored s) (Query :: trace s)
              (parent_not_found parent_ogrn org_data :: log s) (tail (faults s)))
  ∧ (∀ i o, organizations (session s) !! i = Some o →
       ∃ o', organizations t !! i = Some o'
             ∧ EducationalOrganization.parent_id o' = EducationalOrganization.parent_id o).
Proof.
  intros Hb Hp Ht Hcache Hnone Hfault Hflush.
  pose proof (flush_rewritten _ _ Hflush) as Hrw.
  assert (EducationalOrganization_by_ogrn parent_ogrn t = None) as Hmiss.
  { apply no_ogrn_miss. eapply no_ogrn_stay; [|exact Hnone].
    by apply rewritten_organizations. }
  split.
  - unfold link_parent. rewrite Hp, Hb, Ht, Hcache. simpl.
    rewrite (bind_run_Ok _ _ _ _ _ (session_query_run _ s t Hfault Hflush)).
    by rewrite Hmiss.
  - intros i o Ho. destruct Hrw as (_&_&_&Hro&_).
    destruct (Forall2_lookup_l _ _ _ _ _ Hro Ho) as (o' & Ho' & _ & Hpar). eauto.
Qed.

(** C6, as amended: let the record [c] of the input be a branch that
    declares as its head an OGRN [p] that no record of the input and no
    stored organization carries.  The statement of the second pass that
    links [c] does not raise: whenever the database answers the lookup, it
    returns normally, having logged the warning, and re-parents nothing.
    And in every completed run the warning is logged and, provided that
    the records that carry the OGRN of [c] and declare a head all declare
    [p], the organization stored under the OGRN of [c] has the parent_id
    it had before the run, null when the run created it. *)
Theorem C6_unknown_head_is_skipped organizations_data app db schedule c p :
  let run := _populate_db organizations_data app (fresh db schedule) in
  c ∈ organizations_data → truthy (OrgData.ogrn c) = true →
  OrgData.is_branch c = true → OrgData.parent_ogrn c = Some p → truthy p = true →
  (∀ c', c' ∈ organizations_data → OrgData.ogrn c' ≠ p) →
  no_ogrn p db →
  (∀ organizations_cache organization s t,
     organizations_cache !! p = None → no_ogrn p (session s) →
     head (faults s) ≠ Some true → flush (session s) = Some t →
     link_parent organizations_cache c organization s =
       (Ok (), mkState t (stored s) (Query :: trace s)
                 (parent_not_found p c :: log s) (tail (faults s)))
     ∧ (∀ i o, organizations (session s) !! i = Some o →
          ∃ o', organizations t !! i = Some o'
                ∧ EducationalOrganization.parent_id o'
                  = EducationalOrganization.parent_id o))
  ∧ (completed run →
     parent_not_found p c ∈ log (snd run)
     ∧ ((∀ c', c' ∈ organizations_data → OrgData.ogrn c' = OrgData.ogrn c →
               declares_parent c' → OrgData.parent_ogrn c' = Some p) →
        ∃ j o,
          EducationalOrganization_by_ogrn (OrgData.ogrn c) (stored (snd run)) = Some j
          ∧ organizations (stored (snd run)) !! j = Some o
          ∧ EducationalOrganization.parent_id o
            = organizations db !! j ≫= EducationalOrganization.parent_id)).
Proof.
  intros run Hc Ht Hb Hp Htp Hfresh Hdb. split.
  - intros oc j s t Hcache Hn Hfault Hflush. by apply link_parent_not_found.
  - intros [Hok Hroll]. subst run.
    destruct organizations_data as [|x l]; [by apply elem_of_nil in Hc|].
    destruct app as [a|]; [|done].
    destruct (_populate_db (x :: l) (Some a) (fresh db schedule)) as [r s'] eqn:E.
    simpl in *. subst r. by eapply unknown_head_in_run.
Qed.

Lemma C6_unknown_head_is_skipped_witness :
  let run := _populate_db [org_C] (Some FlaskApp) (fresh empty_tables []) in
  parent_not_found (u "1027700009999") org_C ∈ log (snd run)
  ∧ ∃ j o,
      EducationalOrganization_by_ogrn (OrgData.ogrn org_C) (stored (snd run)) = Some j
      ∧ organizations (stored (snd run)) !! j = Some o
      ∧ EducationalOrganization.parent_id o
        = organizations empty_tables !! j ≫= EducationalOrganization.parent_id.
Proof.
  intros run.
  destruct (C6_unknown_head_is_skipped [org_C] (Some FlaskApp) empty_tables [] org_C
              (u "1027700009999")) as [_ Hrun].
  - apply list_elem_of_here.
  - reflexivity.
  - reflexivity.
  - reflexivity.
  - reflexivity.
  - intros c' ->%list_elem_of_singleton. discriminate.
  - apply Forall_nil_2.
  - destruct Hrun as [Hw Hpar].
    + split; [by vm_compute|]. apply (bool_decide_unpack _). by vm_compute.
    + split; [exact Hw|]. apply Hpar.
      intros c' ->%list_elem_of_singleton _ _. reflexivity.
Defined.

(** C6 fails as worded: the input holds the branch C, whose declared head
    is unknown, the head H, and a second record of C that names H.  The
    run completes and logs the warning for the first record, and the
    parent_id of C is the key of H (2), not null. *)
Lemma C6_counterexample : ¬ unknown_head_leaves_the_parent.
Proof.
  intros H.
  destruct (H [org_C; org_H; org_C2] (Some FlaskApp) empty_tables [] org_C
              (u "1027700009999")) as (j & o & Hj & Ho & Hparent).
  - split; [by vm_compute|]. apply (bool_decide_unpack _). by vm_compute.
  - apply list_elem_of_here.
  - reflexivity.
  - reflexivity.
  - reflexivity.
  - reflexivity.
  - intros c' Hc'. repeat (apply elem_of_cons in Hc' as [->|Hc']; [discriminate|]).
    by apply elem_of_nil in Hc'.
  - apply Forall_nil_2.
  - vm_compute in Hj. injection Hj as <-. vm_compute in Ho. injection Ho as <-.
    by vm_compute in Hparent.
Qed.

(** The run of that input. *)
Lemma second_record_sets_the_parent :
  let run := _populate_db [org_C; org_H; org_C2] (Some FlaskApp)
               (fresh empty_tables []) in
  completed run
  ∧ parent_not_found (u "1027700009999") org_C ∈ log (snd run)
  ∧ (λ o, (EducationalOrganization.id o, EducationalOrganization.parent_id o))
      <$> organizations (stored (snd run))
    = [(Some 1, Some 2); (Some 2, None)].
Proof.
  split_and!.
  - split; [by vm_compute|]. apply (bool_decide_unpack _). by vm_compute.
  - apply (bool_decide_unpack _). by vm_compute.
  - by vm_compute.
Qed.

(** The run on a single branch whose head is unknown completes: the
    branch is stored without a parent and the warning is logged. *)
Lemma unknown_head_run :
  let run := _populate_db [org_C] (Some FlaskApp) (fresh empty_tables []) in
  completed run
  ∧ EducationalOrganization.parent_id <$> organizations (stored (snd run)) !! 0 = Some None
  ∧ mkLog WARNING (MsgParentNotFound (u "1027700009999") (OrgData.ogrn org_C))
      ∈ log (snd run).
Proof.
  split_and!.
  - split; [by vm_compute|]. apply (bool_decide_unpack _). by vm_compute.
  - by vm_compute.
  - apply (bool_decide_unpack _). by vm_compute.
Qed.

(** ** The group of a new specialty *)

(** C9 (the code departs from the claim): on an empty database, a record
    with one program of specialty 09.03.01 in group 09.00.00 makes the
    second pass create the group and then the specialty with
    [group_id = group.id] read while the group is still pending, that is
    [None]; the session then holds the group with its key and the
    specialty without a group, the flush refuses the specialty
    (nullable=False), and the run is rolled back.  On a database that
    holds the group already, the same record stores the specialty with
    the key of the group. *)
Theorem C9_group_id_is_read_before_the_flush :
  (let run := reconcile [org_D] (entered (fresh empty_tables [])) in
   fst run = Raise IntegrityError
   ∧ specialty_groups (session (snd run))
     = [SpecialtyGroup.mk (Some 1) (u "09.00.00") (u "Computing")]
   ∧ specialties (session (snd run))
     = [Specialty.mk None (u "09.03.01") (u "Informatics") None])
  ∧ (let run := _populate_db [org_D] (Some FlaskApp) (fresh empty_tables []) in
     fst run = Raise IntegrityError ∧ stored (snd run) = empty_tables)
  ∧ (let run := _populate_db [org_D] (Some FlaskApp) (fresh db_with_group []) in
     fst run = Ok ()
     ∧ specialties (stored (snd run))
       = [Specialty.mk (Some 1) (u "09.03.01") (u "Informatics") (Some 5)]).
Proof. split_and!; by vm_compute. Qed.

(** ** The second pass: programs *)

Lemma group_by_code_ext k t t' g :
  ext t t' → SpecialtyGroup_by_code k t = Some g → SpecialtyGroup_by_code k t' = Some g.
Proof.
  intros (_&Hg&_). apply (first_ref_ext SpecialtyGroup_same); [|done].
  intros x x' (E&_). by rewrite E.
Qed.

Lemma specialty_by_code_ext k t t' j :
  ext t t' → Specialty_by_code k t = Some j → Specialty_by_code k t' = Some j.
Proof.
  intros (_&_&Hs&_). apply (first_ref_ext Specialty_same); [|done].
  intros x x' (E&_). by rewrite E.
Qed.

Lemma groups_cached_ext gc t t' : groups_cached gc t → ext t t' → groups_cached gc t'.
Proof. intros Hc Hext k g Hk. eapply group_by_code_ext; eauto. Qed.

Lemma specialties_cached_ext sc t t' :
  specialties_cached sc t → ext t t' → specialties_cached sc t'.
Proof. intros Hc Hext k g Hk. eapply specialty_by_code_ext; eauto. Qed.

Lemma program_stored_ext t t' ogrn pd :
  ext t t' → program_stored t ogrn pd → program_stored t' ogrn pd.
Proof.
  intros Hext (i & o & j & x & p & Hi & Ho & Hj & Hx & [g Hg] & Hp & Hpo & Hps & Hido & Hidx).
  pose proof Hext as (_&_&Hes&Heo&Hep).
  destruct (Heo _ _ Ho) as (o' & Ho' & (_&_&_&_&_&_&Hko&_)).
  destruct (Hes _ _ Hx) as (x' & Hx' & (_&_&_&Hkx)).
  apply list_elem_of_lookup in Hp as [n Hn].
  destruct (Hep _ _ Hn) as (p' & Hn' & (Epo & Eps & _)).
  exists i, o', j, x', p'. split_and!.
  - by eapply by_ogrn_ext.
  - done.
  - by eapply specialty_by_code_ext.
  - done.
  - exists g. by eapply group_by_code_ext.
  - by eapply list_elem_of_lookup_2.
  - rewrite Epo, Hpo. symmetry. by apply Hko.
  - rewrite Eps, Hps. symmetry. by apply Hkx.
  - by rewrite (Hko Hido).
  - by rewrite (Hkx Hidx).
Qed.

Lemma programs_ok_stay s s' :
  programs_stay s s' → programs_ok (session s) → programs_ok (session s').
Proof.
  unfold table_stays, programs_ok. intros H2 Hok.
  induction H2 as [|p p' l l' (E1 & E2 & _) _ IH]; [done|].
  inversion_clear Hok. constructor; [by rewrite E1, E2|by apply IH].
Qed.

Lemma run_programs_stay {A} (m : M A) s r s' :
  Respects programs_stay m → m s = (r, s') →
  programs_ok (session s) → programs_ok (session s').
Proof. intros Hm Hrun. by eapply programs_ok_stay, Hm. Qed.

(** The statements that resolve the group of a program. *)
Lemma group_block_Ok gc ugs_code ugs_name s group gc' s' :
  match gc !! ugs_code with
  | Some group => mret (group, gc)
  | None =>
    '(group, _) ← _get_or_create SpecialtyGroupModel (None, ugs_name) ugs_code;
    mret (group, <[ugs_code := group]> gc)
  end s = (Ok (group, gc'), s') →
  groups_cached gc (session s) →
  groups_cached gc' (session s')
  ∧ SpecialtyGroup_by_code ugs_code (session s') = Some group
  ∧ ext (session s) (session s')
  ∧ programs_stay s s'.
Proof.
  intros Hrun Hc.
  destruct (gc !! ugs_code) as [g|] eqn:E.
  { injection Hrun as <- <- <-. split_and!; [done|by apply Hc|apply ext_refl|].
    apply programs_stay_refl. }
  apply bind_Ok in Hrun as ([g created] & s1 & H1 & H2). injection H2 as <- <- <-.
  assert (ext (session s) (session s1) ∧ programs_stay s s1) as [Hext Hstay].
  { split.
    - revert H1. apply (run_ext _ nobody), respects_get_or_create.
      intros k [? ?]. simpl. respects.
    - revert H1. apply stay_get_or_create; [eauto with respects..|].
      intros k [? ?]. simpl. respects. }
  assert (SpecialtyGroup_by_code ugs_code (session s1) = Some g) as Hg.
  { apply get_or_create_Ok in H1 as (s0 & Hfl & [[Hfound Hs]|(Hnone & s2 & Hadd & Hs)]).
    - by rewrite Hs.
    - simpl in Hadd. injection Hadd as <- <-. rewrite Hs. simpl.
      unfold SpecialtyGroup_by_code. simpl. by apply first_ref_app_new. }
  split_and!; [|done..].
  intros k g'. rewrite lookup_insert. case_decide as Hk.
  - by intros [= <-]; subst k.
  - intros Hg'. eapply group_by_code_ext; [done|]. by apply Hc.
Qed.

(** The statements that resolve the specialty of a program. *)
Lemma specialty_block_Ok sc code name group s specialty sc' s' :
  match sc !! code with
  | Some specialty => mret (specialty, sc)
  | None =>
    group_id ← attr specialty_groups SpecialtyGroup.id group;
    '(specialty, _) ← _get_or_create SpecialtyModel (None, name, group_id) code;
    mret (specialty, <[code := specialty]> sc)
  end s = (Ok (specialty, sc'), s') →
  specialties_cached sc (session s) →
  specialties_cached sc' (session s')
  ∧ Specialty_by_code code (session s') = Some specialty
  ∧ ext (session s) (session s')
  ∧ programs_stay s s'.
Proof.
  intros Hrun Hc.
  destruct (sc !! code) as [j|] eqn:E.
  { injection Hrun as <- <- <-. split_and!; [done|by apply Hc|apply ext_refl|].
    apply programs_stay_refl. }
  apply bind_Ok in Hrun as (group_id & s0 & H0 & Hrun). injection H0 as <- <-.
  apply bind_Ok in Hrun as ([j created] & s1 & H1 & H2). injection H2 as <- <- <-.
  assert (ext (session s) (session s1) ∧ programs_stay s s1) as [Hext Hstay].
  { split.
    - revert H1. apply (run_ext _ nobody), respects_get_or_create.
      intros k [[? ?] ?]. simpl. respects.
    - revert H1. apply stay_get_or_create; [eauto with respects..|].
      intros k [[? ?] ?]. simpl. respects. }
  assert (Specialty_by_code code (session s1) = Some j) as Hj.
  { apply get_or_create_Ok in H1 as (s0 & Hfl & [[Hfound Hs]|(Hnone & s2 & Hadd & Hs)]).
    - by rewrite Hs.
    - simpl in Hadd. injection Hadd as <- <-. rewrite Hs. simpl.
      unfold Specialty_by_code. simpl. by apply first_ref_app_new. }
  split_and!; [|done..].
  intros k j'. rewrite lookup_insert. case_decide as Hk.
  - by intros [= <-]; subst k.
  - intros Hj'. eapply specialty_by_code_ext; [done|]. by apply Hc.
Qed.

Lemma all_flushed_specialty t j x :
  all_flushed t → specialties t !! j = Some x → is_Some (Specialty.id x).
Proof.
  intros (_&_&Hs&_) Hj. rewrite Forall_forall in Hs. apply Hs.
  by eapply list_elem_of_lookup_2.
Qed.

Lemma ext_add_program t p :
  ext t (mkTables (regions t) (specialty_groups t) (specialties t) (organizations t)
           (programs t ++ [p])).
Proof.
  destruct (ext_refl t) as (?&?&?&?&?). split_and!; simpl; try done.
  apply ext_list_app, EducationalProgram_same_refl.
Qed.

Lemma specialty_by_code_Some k t j :
  Specialty_by_code k t = Some j → ∃ x, specialties t !! j = Some x.
Proof. intros (x & ? & _)%first_ref_Some. eauto. Qed.

(** One program of a record: when the statement returns, the group, the
    specialty and the program are in the session. *)
Lemma load_program_Ok ogrn organization gc sc pd s gc' sc' s' :
  load_program ogrn organization (gc, sc) pd s = (Ok (gc', sc'), s') →
  EducationalOrganization_by_ogrn ogrn (session s) = Some organization →
  (∃ o, organizations (session s) !! organization = Some o
        ∧ is_Some (EducationalOrganization.id o)) →
  groups_cached gc (session s) → specialties_cached sc (session s) →
  programs_ok (session s) →
  groups_cached gc' (session s') ∧ specialties_cached sc' (session s')
  ∧ programs_ok (session s')
  ∧ (loadable pd → program_stored (session s') ogrn pd).
Proof.
  intros Hrun Hby (o & Ho & Hido) Hgc Hsc Hok. unfold load_program in Hrun.
  destruct (negb (truthy (ProgData.specialty_code pd))
            || negb (truthy (ProgData.ugs_code pd))) eqn:Eskip.
  { rewrite logging_bind in Hrun. injection Hrun as <- <- <-. simpl.
    split_and!; [done..|]. intros [H1 H2]. by rewrite H1, H2 in Eskip. }
  apply bind_Ok in Hrun as ([group gc1] & s1 & Hgroup & Hrun).
  apply group_block_Ok in Hgroup as (Hgc1 & Hg1 & Hext1 & Hstay1); [|done].
  apply bind_Ok in Hrun as ([specialty sc1] & s2 & Hspec & Hrun).
  apply specialty_block_Ok in Hspec as (Hsc2 & Hj2 & Hext2 & Hstay2);
    [|by eapply specialties_cached_ext].
  apply bind_Ok in Hrun as (oid0 & ? & [= <- <-] & Hrun).
  apply bind_Ok in Hrun as (sid0 & ? & [= <- <-] & Hrun).
  apply bind_Ok in Hrun as (existing & s3 & Hq & Hrun).
  assert (programs_stay s2 s3) as Hstay3.
  { match type of Hq with ?m _ = _ =>
      assert (Respects programs_stay m) as Hr by auto with respects end.
    by eapply Hr. }
  apply session_query_Ok in Hq as [Hfl ->].
  pose proof (flush_ext _ _ Hfl) as Hext3.
  pose proof (flush_all_flushed _ _ Hfl) as Hall3.
  assert (ext (session s) (session s2)) as Hext02 by (by eapply ext_trans).
  assert (ext (session s) (session s3)) as Hext03 by (by eapply ext_trans).
  assert (programs_ok (session s3)) as Hok3.
  { eapply programs_ok_stay; [exact Hstay3|]. eapply programs_ok_stay; [exact Hstay2|].
    by eapply programs_ok_stay. }
  (* the organization and the specialty, before and after the flush *)
  pose proof Hext02 as (_&_&_&Heo2&_). destruct (Heo2 _ _ Ho) as (o2 & Ho2 & Hso2).
  pose proof Hext3 as (_&_&Hes3&Heo3&_). destruct (Heo3 _ _ Ho2) as (o3 & Ho3 & Hso3).
  assert (EducationalOrganization.id o2 = EducationalOrganization.id o) as Hido2.
  { destruct Hso2 as (_&_&_&_&_&_&Hk&_). by apply Hk. }
  assert (EducationalOrganization.id o3 = EducationalOrganization.id o) as Hido3.
  { destruct Hso3 as (_&_&_&_&_&_&Hk&_). rewrite Hk; [done|]. by rewrite Hido2. }
  destruct (specialty_by_code_Some _ _ _ Hj2) as (x2 & Hx2).
  destruct (Hes3 _ _ Hx2) as (x3 & Hx3 & (_&_&_&Hkx)).
  pose proof (all_flushed_specialty _ _ _ Hall3 Hx3) as Hidx3.
  assert (∀ t p, ext (session s3) t → p ∈ programs t →
            EducationalProgram.organization_id p = EducationalOrganization.id o3 →
            EducationalProgram.specialty_id p = Specialty.id x3 →
            program_stored t ogrn pd) as Hstored.
  { intros t p Hext Hp Hpo Hps.
    pose proof Hext as (_&_&Hes&Heo&_).
    destruct (Heo _ _ Ho3) as (o4 & Ho4 & (_&_&_&_&_&_&Hko&_)).
    destruct (Hes _ _ Hx3) as (x4 & Hx4 & (_&_&_&Hkx4)).
    exists organization, o4, specialty, x4, p. split_and!.
    - eapply by_ogrn_ext; [exact Hext|]. exact (by_ogrn_ext _ _ _ _ Hext03 Hby).
    - done.
    - eapply specialty_by_code_ext; [exact Hext|].
      exact (specialty_by_code_ext _ _ _ _ Hext3 Hj2).
    - done.
    - exists group. eapply group_by_code_ext; [exact Hext|].
      eapply group_by_code_ext; [exact Hext3|].
      exact (group_by_code_ext _ _ _ _ Hext2 Hg1).
    - done.
    - rewrite Hpo. symmetry. apply Hko. by rewrite Hido3.
    - rewrite Hps. symmetry. by apply Hkx4.
    - rewrite Hko; by rewrite Hido3.
    - by rewrite (Hkx4 Hidx3). }
  rewrite Ho2, Hx2 in Hrun. simpl in Hrun.
  destruct (EducationalProgram_by_pair (EducationalOrganization.id o2) (Specialty.id x2)
              (session s3)) as [n|] eqn:Epair.
  - (* the program exists *)
    apply bind_Ok in Hrun as (? & s4 & Hlog & Hrun). injection Hrun as <- <- <-.
    rewrite logging_run in Hlog. injection Hlog as <- <-. simpl.
    apply first_ref_Some in Epair as (p & Hp & [Hpo Hps] & _).
    assert (is_Some (Specialty.id x2)) as Hidx2.
    { unfold programs_ok in Hok3. rewrite Forall_forall in Hok3.
      destruct (Hok3 p) as [_ Hsome]; [by eapply list_elem_of_lookup_2|].
      by rewrite <- Hps. }
    split_and!.
    + eapply groups_cached_ext; [exact Hgc1|]. exact (ext_trans _ _ _ Hext2 Hext3).
    + exact (specialties_cached_ext _ _ _ Hsc2 Hext3).
    + done.
    + intros _. apply (Hstored _ p); [apply ext_refl|by eapply list_elem_of_lookup_2|..].
      * congruence.
      * rewrite Hps. symmetry. by apply Hkx.
  - (* the program is added *)
    apply bind_Ok in Hrun as (? & s4 & Hblock & Hrun). injection Hrun as <- <- <-.
    apply bind_Ok in Hblock as (oid1 & ? & [= <- <-] & Hblock).
    apply bind_Ok in Hblock as (sid1 & ? & [= <- <-] & Hblock).
    rewrite Ho3, Hx3 in Hblock. simpl in Hblock.
    apply bind_Ok in Hblock as (? & s5 & Hadd & Hlog).
    rewrite logging_run in Hlog. injection Hlog as <- <-. injection Hadd as <- <-. simpl.
    set (p := EducationalProgram.mk None (EducationalOrganization.id o3) (Specialty.id x3)).
    pose proof (ext_add_program (session s3) p) as Hext4.
    split_and!.
    + eapply groups_cached_ext; [exact Hgc1|].
      eapply ext_trans; [exact Hext2|]. exact (ext_trans _ _ _ Hext3 Hext4).
    + eapply specialties_cached_ext; [exact Hsc2|]. exact (ext_trans _ _ _ Hext3 Hext4).
    + unfold programs_ok. simpl. apply Forall_app. split; [done|].
      constructor; [|done]. simpl. split; [by rewrite Hido3|done].
    + intros _. apply (Hstored _ p); [exact Hext4| |done..].
      simpl. apply elem_of_app. right. apply list_elem_of_here.
Qed.

Lemma programs_ok_rewritten t t' : rewritten t t' → programs_ok t → programs_ok t'.
Proof.
  intros (_&_&_&_&H2) Hok. unfold programs_ok in *.
  induction H2 as [|p p' l l' (E1 & E2 & _) _ IH]; [done|].
  inversion_clear Hok. constructor; [by rewrite E1, E2|by apply IH].
Qed.

Lemma load_programs_Ok ogrn organization l : ∀ gc sc s gc' sc' s',
  foldM (load_program ogrn organization) l (gc, sc) s = (Ok (gc', sc'), s') →
  EducationalOrganization_by_ogrn ogrn (session s) = Some organization →
  (∃ o, organizations (session s) !! organization = Some o
        ∧ is_Some (EducationalOrganization.id o)) →
  groups_cached gc (session s) → specialties_cached sc (session s) →
  programs_ok (session s) →
  groups_cached gc' (session s') ∧ specialties_cached sc' (session s')
  ∧ programs_ok (session s')
  ∧ (∀ pd, pd ∈ l → loadable pd → program_stored (session s') ogrn pd).
Proof.
  induction l as [|pd l IH]; intros gc sc s gc' sc' s' Hrun Hby Horg Hgc Hsc Hok.
  - injection Hrun as <- <- <-. split_and!; [done..|].
    intros pd Hpd. by apply elem_of_nil in Hpd.
  - rewrite foldM_cons in Hrun. apply bind_Ok in Hrun as ([gc1 sc1] & s1 & Hpd & Hrest).
    pose proof (run_ext _ nobody _ _ _ (respects_load_program _ _ _ _ _) Hpd) as Hext1.
    pose proof (run_ext _ nobody _ _ _ (respects_load_programs _ _ _ _ _) Hrest) as Hext2.
    apply load_program_Ok in Hpd as (Hgc1 & Hsc1 & Hok1 & Hst1); [|done..].
    apply IH in Hrest as (Hgc' & Hsc' & Hok' & Hst'); [|by eapply by_ogrn_ext| |done..].
    + split_and!; [done..|].
      intros pd' [->|Hin]%elem_of_cons Hl; [|by apply Hst'].
      eapply program_stored_ext; [exact Hext2|]. by apply Hst1.
    + destruct Horg as (o & Ho & Hid). destruct Hext1 as (_&_&_&Heo&_).
      destruct (Heo _ _ Ho) as (o' & Ho' & (_&_&_&_&_&_&Hk&_)).
      exists o'. split; [done|]. by rewrite (Hk Hid).
Qed.

Lemma pass2_Ok oc gc sc c s gc' sc' s' :
  pass2 oc (gc, sc) c s = (Ok (gc', sc'), s') →
  orgs_cached oc (session s) →
  groups_cached gc (session s) → specialties_cached sc (session s) →
  programs_ok (session s) →
  is_Some (oc !! OrgData.ogrn c) →
  groups_cached gc' (session s') ∧ specialties_cached sc' (session s')
  ∧ programs_ok (session s')
  ∧ (truthy (OrgData.ogrn c) = true →
     ∀ pd, pd ∈ OrgData.programs c → loadable pd →
           program_stored (session s') (OrgData.ogrn c) pd).
Proof.
  intros Hrun Hoc Hgc Hsc Hok [organization Hcached]. unfold pass2 in Hrun.
  destruct (truthy (OrgData.ogrn c)) eqn:Et; simpl in Hrun.
  2:{ injection Hrun as <- <- <-. split_and!; [done..|by intros ?]. }
  rewrite Hcached in Hrun.
  apply bind_Ok in Hrun as ([] & s1 & Hlink & Hloop).
  assert (ext (session s) (session s1)) as Hext1.
  { revert Hlink. apply (run_ext _ anyone). by apply respects_link_parent. }
  assert (programs_ok (session s1)) as Hok1.
  { revert Hlink Hok. apply run_programs_stay, programs_stay_link_parent. }
  pose proof (orgs_cached_ext _ _ _ Hoc Hext1 _ _ Hcached) as [Hby Horg].
  apply load_programs_Ok in Hloop as (? & ? & ? & ?); [|done|done| | |done].
  - by split_and!.
  - exact (groups_cached_ext _ _ _ Hgc Hext1).
  - exact (specialties_cached_ext _ _ _ Hsc Hext1).
Qed.

Lemma pass2_loop_Ok oc l : ∀ gc sc s gc' sc' s',
  foldM (pass2 oc) l (gc, sc) s = (Ok (gc', sc'), s') →
  orgs_cached oc (session s) →
  groups_cached gc (session s) → specialties_cached sc (session s) →
  programs_ok (session s) →
  (∀ c, c ∈ l → truthy (OrgData.ogrn c) = true → is_Some (oc !! OrgData.ogrn c)) →
  programs_ok (session s')
  ∧ (∀ c, c ∈ l → truthy (OrgData.ogrn c) = true →
       ∀ pd, pd ∈ OrgData.programs c → loadable pd →
             program_stored (session s') (OrgData.ogrn c) pd).
Proof.
  induction l as [|x l IH]; intros gc sc s gc' sc' s' Hrun Hoc Hgc Hsc Hok Hin.
  - injection Hrun as <- <- <-. split; [done|]. intros c Hc. by apply elem_of_nil in Hc.
  - rewrite foldM_cons in Hrun. apply bind_Ok in Hrun as ([gc1 sc1] & s1 & Hx & Hrest).
    assert (ext (session s) (session s1)) as Hext1.
    { revert Hx. apply (run_ext _ anyone). by apply respects_pass2. }
    pose proof (run_ext _ anyone _ _ _ (respects_pass2_loop _ _ _) Hrest) as Hext2.
    assert (groups_cached gc1 (session s1) ∧ specialties_cached sc1 (session s1)
            ∧ programs_ok (session s1)
            ∧ (truthy (OrgData.ogrn x) = true →
               ∀ pd, pd ∈ OrgData.programs x → loadable pd →
                     program_stored (session s1) (OrgData.ogrn x) pd))
      as (Hgc1 & Hsc1 & Hok1 & Hst1).
    { destruct (decide (truthy (OrgData.ogrn x) = true)) as [Et|Et].
      - eapply pass2_Ok; [exact Hx|done..|]. apply Hin; [apply list_elem_of_here|done].
      - unfold pass2 in Hx. apply not_true_is_false in Et. rewrite Et in Hx.
        injection Hx as <- <- <-. split_and!; [done..|intros ?; congruence]. }
    apply IH in Hrest as (Hok' & Hst'); [|by eapply orgs_cached_ext|done..|].
    + split; [done|]. intros c [->|Hc]%elem_of_cons Ht; [|by apply Hst'].
      intros pd Hpd Hl. eapply program_stored_ext; [exact Hext2|]. by apply Hst1.
    + intros c Hc. apply Hin. by apply list_elem_of_further.
Qed.

Lemma groups_cached_empty t : groups_cached ∅ t.
Proof. intros k i Hk. by rewrite lookup_empty in Hk. Qed.

Lemma specialties_cached_empty t : specialties_cached ∅ t.
Proof. intros k i Hk. by rewrite lookup_empty in Hk. Qed.

Lemma programs_stay_pass1_loop l caches : Respects programs_stay (foldM pass1 l caches).
Proof.
  apply respects_foldM; [apply programs_stay_refl|apply programs_stay_trans|].
  intros. apply programs_stay_pass1.
Qed.

(** After a completed run, everything that the input asks for is in the
    committed database, and every row has its key. *)
Lemma completed_run_loaded organizations_data app db faults :
  let run := _populate_db organizations_data app (fresh db faults) in
  completed run → programs_ok db →
  loaded (stored (snd run)) organizations_data
  ∧ (organizations_data ≠ [] → all_flushed (stored (snd run))).
Proof.
  intros run [Hok Hroll] Hpok. subst run.
  destruct organizations_data as [|x l].
  { split; [|done]. intros c Hc. by apply elem_of_nil in Hc. }
  destruct app as [a|]; [|done].
  destruct (_populate_db (x :: l) (Some a) (fresh db faults)) as [r s'] eqn:E.
  simpl in *. subst r.
  apply populate_completed in E as (rc & oc & s1 & s2 & caches & s3 & H1 & Hf1 & H2 & Hf2 & _);
    [|done].
  destruct caches as [gc sc].
  assert (programs_ok (session s1)) as Hok1.
  { revert H1 Hpok. apply run_programs_stay, programs_stay_pass1_loop. }
  apply pass1_from_fresh in H1 as (Hoc1 & Hin & _).
  assert (orgs_cached oc (session s2)) as Hoc2.
  { eapply orgs_cached_ext; [done|by apply flush_ext]. }
  assert (programs_ok (session s2)) as Hok2.
  { eapply programs_ok_rewritten; [by apply flush_rewritten|done]. }
  pose proof (run_ext _ anyone _ _ _ (respects_pass2_loop _ _ _) H2) as Hext3.
  apply pass2_loop_Ok in H2 as (Hok3 & Hst3);
    [|done|apply groups_cached_empty|apply specialties_cached_empty|done..].
  pose proof (flush_ext _ _ Hf2) as Hext4.
  split; [|intros _; by eapply flush_all_flushed].
  intros c Hc Ht. split.
  - destruct (Hin c Hc Ht) as [i Hi]. exists i.
    eapply by_ogrn_ext; [exact Hext4|]. eapply by_ogrn_ext; [exact Hext3|]. by apply Hoc2.
  - intros pd Hpd Hl. eapply program_stored_ext; [exact Hext4|]. by apply Hst3.
Qed.

(** ** A run on a database that holds everything already *)

Lemma first_ref_Forall2 {A} (R : A → A → Prop) (P : A → Prop) `{∀ x, Decision (P x)} l l' :
  (∀ x x', R x x' → P x ↔ P x') →
  Forall2 R l l' → first_ref P l' = first_ref P l.
Proof.
  intros HP H2. destruct (first_ref P l) as [i|] eqn:E.
  - eapply (first_ref_ext R); [done|by apply ext_list_Forall2|done].
  - by eapply (first_ref_None_Forall2 R).
Qed.

Lemma with_parent_id_same o :
  o = EducationalOrganization.with_parent_id (EducationalOrganization.parent_id o) o.
Proof. by destruct o. Qed.

Lemma quiet_refl t : quiet t t.
Proof.
  split_and!; [done..|]. apply Forall2_same_length_lookup. split; [done|].
  intros i x y ??. simplify_eq. apply with_parent_id_same.
Qed.

Lemma quiet_all_flushed D t : all_flushed D → quiet D t → all_flushed t.
Proof.
  unfold all_flushed. intros (Hr & Hg & Hs & Ho & Hp) (E1 & E2 & E3 & E4 & Hq).
  rewrite E1, E2, E3, E4. split_and!; [done..| |done].
  clear -Ho Hq. induction Hq as [|o o' l l' -> _ IH]; [done|].
  inversion_clear Ho. constructor; [done|by apply IH].
Qed.

Lemma quiet_by_ogrn D t k :
  quiet D t → EducationalOrganization_by_ogrn k t = EducationalOrganization_by_ogrn k D.
Proof.
  intros (_&_&_&_&Hq). unfold EducationalOrganization_by_ogrn.
  eapply first_ref_Forall2; [|exact Hq]. by intros x x' ->.
Qed.

Lemma quiet_group D t k : quiet D t → SpecialtyGroup_by_code k t = SpecialtyGroup_by_code k D.
Proof. intros (_&E&_). unfold SpecialtyGroup_by_code. by rewrite E. Qed.

Lemma quiet_specialty D t k : quiet D t → Specialty_by_code k t = Specialty_by_code k D.
Proof. intros (_&_&E&_). unfold Specialty_by_code. by rewrite E. Qed.

Lemma quiet_org_id D t i :
  quiet D t →
  organizations t !! i ≫= EducationalOrganization.id
  = organizations D !! i ≫= EducationalOrganization.id.
Proof.
  intros (_&_&_&_&Hq).
  destruct (organizations D !! i) as [o|] eqn:E.
  - destruct (Forall2_lookup_l _ _ _ _ _ Hq E) as (o' & -> & ->). done.
  - apply Forall2_length in Hq. apply lookup_ge_None in E.
    rewrite (proj2 (lookup_ge_None _ _)); [done|lia].
Qed.

Lemma quiet_set_parent D t value j :
  quiet D t →
  quiet D (mkTables (regions t) (specialty_groups t) (specialties t)
             (alter (EducationalOrganization.with_parent_id value) j (organizations t))
             (programs t)).
Proof.
  intros (?&?&?&?&Hq). split_and!; simpl; [done..|].
  apply Forall2_alter_r; [done|]. intros o o' _ _ ->. by destruct o.
Qed.

Lemma quiet_flush D t t' :
  all_flushed D → quiet D t → flush t = Some t' → t' = t.
Proof.
  intros HD Hq Hf. rewrite flush_id in Hf by by eapply quiet_all_flushed. congruence.
Qed.

(** A query in such a session changes nothing. *)
Lemma quiet_query D {A} (first : Tables → option A) s r s' :
  all_flushed D → quiet D (session s) →
  session_query first s = (Ok r, s') →
  session s' = session s ∧ r = first (session s).
Proof.
  intros HD Hq [Hf ->]%session_query_Ok.
  by rewrite (quiet_flush _ _ _ HD Hq Hf).
Qed.

Lemma pass1_quiet D rc oc gc sc c s rc' oc' s' :
  pass1 (rc, oc) c s = (Ok (rc', oc'), s') →
  all_flushed D → quiet D (session s) →
  (truthy (OrgData.ogrn c) = true →
   is_Some (EducationalOrganization_by_ogrn (OrgData.ogrn c) D)) →
  caches_on D oc gc sc →
  session s' = session s ∧ caches_on D oc' gc sc
  ∧ (∀ k i, oc !! k = Some i → oc' !! k = Some i)
  ∧ (truthy (OrgData.ogrn c) = true → is_Some (oc' !! OrgData.ogrn c)).
Proof.
  intros Hrun HD Hq Hin Hc. unfold pass1 in Hrun.
  destruct (truthy (OrgData.ogrn c)) eqn:Et; simpl in Hrun.
  2:{ rewrite logging_bind in Hrun. injection Hrun as <- <- <-. by split_and!. }
  destruct (oc !! OrgData.ogrn c) as [i|] eqn:Ecache.
  { injection Hrun as <- <- <-. split_and!; eauto. }
  apply bind_Ok in Hrun as (found & s1 & Hquery & Hrun).
  apply (quiet_query D) in Hquery as [Hs1 ->]; [|done..].
  rewrite (quiet_by_ogrn D) in Hrun by done.
  destruct (Hin eq_refl) as [i Hi]. rewrite Hi in Hrun.
  rewrite logging_bind in Hrun. injection Hrun as <- <- <-. simpl.
  destruct Hc as (Hoc & Hgc & Hsc). split_and!; [done| | |].
  - split_and!; [|done..].
    intros k j. rewrite lookup_insert. case_decide as Hk; [|by apply Hoc].
    intros [= <-]. by subst k.
  - intros k j Hj. rewrite lookup_insert_ne; [done|]. intros <-. congruence.
  - intros _. rewrite lookup_insert_eq. eauto.
Qed.

Lemma link_parent_quiet D oc c j s s' :
  link_parent oc c j s = (Ok (), s') →
  all_flushed D → quiet D (session s) → quiet D (session s').
Proof.
  intros Hrun HD Hq. unfold link_parent in Hrun.
  destruct (OrgData.parent_ogrn c) as [p|]; [|by injection Hrun as <-].
  destruct (OrgData.is_branch c && truthy p); [|by injection Hrun as <-].
  apply bind_Ok in Hrun as (parent & s1 & Hparent & Hrun).
  assert (session s1 = session s) as Hs1.
  { destruct (oc !! p); [by injection Hparent as <- <-|].
    by apply (quiet_query D) in Hparent as [? _]. }
  destruct parent as [parent|].
  - apply bind_Ok in Hrun as (parent_id & ? & [= <- <-] & Hrun).
    apply bind_Ok in Hrun as (? & s2 & Hset & Hrun).
    rewrite logging_run in Hrun. injection Hrun as <-. injection Hset as <- <-. simpl.
    rewrite Hs1. by apply quiet_set_parent.
  - rewrite logging_run in Hrun. injection Hrun as <-. simpl. by rewrite Hs1.
Qed.

Lemma load_program_quiet D ogrn j oc gc sc pd s gc' sc' s' :
  load_program ogrn j (gc, sc) pd s = (Ok (gc', sc'), s') →
  all_flushed D → quiet D (session s) →
  EducationalOrganization_by_ogrn ogrn D = Some j →
  (loadable pd → program_stored D ogrn pd) →
  caches_on D oc gc sc →
  session s' = session s ∧ caches_on D oc gc' sc'.
Proof.
  intros Hrun HD Hq Hj Hstored (Hoc & Hgc & Hsc). unfold load_program in Hrun.
  destruct (negb (truthy (ProgData.specialty_code pd))
            || negb (truthy (ProgData.ugs_code pd))) eqn:Eskip.
  { rewrite logging_bind in Hrun. injection Hrun as <- <- <-. by split_and!. }
  apply orb_false_elim in Eskip as [E1%negb_false_iff E2%negb_false_iff].
  destruct (Hstored (conj E1 E2))
    as (i & o & jx & x & p & Hi & Ho & Hjx & Hx & [g Hg] & Hp & Hpo & Hps & Hido & Hidx).
  assert (i = j) as -> by congruence.
  (* the group *)
  apply bind_Ok in Hrun as ([group gc1] & s1 & Hgroup & Hrun).
  assert (session s1 = session s
          ∧ (∀ k g', gc1 !! k = Some g' → SpecialtyGroup_by_code k D = Some g')) as [Hs1 Hgc1].
  { destruct (gc !! ProgData.ugs_code pd) as [g0|] eqn:Eg.
    - by injection Hgroup as <- <- <-.
    - apply bind_Ok in Hgroup as ([g0 created] & s0 & Hgoc & Hret).
      injection Hret as <- <- <-.
      apply get_or_create_Ok in Hgoc as (sq & Hfl & [[Hfound Hs]|(Hnone & _)]).
      + rewrite (quiet_flush _ _ _ HD Hq Hfl) in *. simpl in Hfound.
        rewrite (quiet_group D) in Hfound by done. split; [done|].
        intros k g'. rewrite lookup_insert. case_decide as Hk; [|by apply Hgc].
        intros [= <-]. subst k. congruence.
      + rewrite (quiet_flush _ _ _ HD Hq Hfl) in *. simpl in Hnone.
        rewrite (quiet_group D) in Hnone by done. congruence. }
  rewrite <- Hs1 in Hq.
  (* the specialty *)
  apply bind_Ok in Hrun as ([specialty sc1] & s2 & Hspec & Hrun).
  assert (session s2 = session s1
          ∧ (∀ k j', sc1 !! k = Some j' → Specialty_by_code k D = Some j')
          ∧ specialty = jx) as (Hs2 & Hsc1 & ->).
  { destruct (sc !! ProgData.specialty_code pd) as [j0|] eqn:Es.
    - injection Hspec as <- <- <-. split_and!; [done..|].
      apply Hsc in Es. congruence.
    - apply bind_Ok in Hspec as (group_id & ? & [= <- <-] & Hspec).
      apply bind_Ok in Hspec as ([j0 created] & s0 & Hgoc & Hret).
      injection Hret as <- <- <-.
      apply get_or_create_Ok in Hgoc as (sq & Hfl & [[Hfound Hs]|(Hnone & _)]).
      + rewrite (quiet_flush _ _ _ HD Hq Hfl) in *. simpl in Hfound.
        rewrite (quiet_specialty D) in Hfound by done. split_and!; [done| |congruence].
        intros k j'. rewrite lookup_insert. case_decide as Hk; [|by apply Hsc].
        intros [= <-]. subst k. congruence.
      + rewrite (quiet_flush _ _ _ HD Hq Hfl) in *. simpl in Hnone.
        rewrite (quiet_specialty D) in Hnone by done. congruence. }
  rewrite <- Hs2 in Hq.
  (* the program *)
  apply bind_Ok in Hrun as (oid0 & ? & [= <- <-] & Hrun).
  apply bind_Ok in Hrun as (sid0 & ? & [= <- <-] & Hrun).
  apply bind_Ok in Hrun as (existing & s3 & Hquery & Hrun).
  apply (quiet_query D) in Hquery as [Hs3 ->]; [|done..].
  rewrite (quiet_org_id D) in Hrun by done. rewrite Ho in Hrun. simpl in Hrun.
  pose proof Hq as (_&_&Especs&Eprogs&_).
  rewrite Especs, Hx in Hrun. simpl in Hrun.
  destruct (EducationalProgram_by_pair (EducationalOrganization.id o) (Specialty.id x)
              (session s2)) as [n|] eqn:Epair.
  - apply bind_Ok in Hrun as (? & s4 & Hlog & Hrun). injection Hrun as <- <- <-.
    rewrite logging_run in Hlog. injection Hlog as <- <-. simpl.
    split; [congruence|done].
  - exfalso. apply first_ref_None in Epair. rewrite Forall_forall in Epair.
    apply (Epair p); [by rewrite Eprogs|done].
Qed.

Lemma pass1_loop_quiet D gc sc l : ∀ rc oc s rc' oc' s',
  foldM pass1 l (rc, oc) s = (Ok (rc', oc'), s') →
  all_flushed D → quiet D (session s) →
  (∀ c, c ∈ l → truthy (OrgData.ogrn c) = true →
        is_Some (EducationalOrganization_by_ogrn (OrgData.ogrn c) D)) →
  caches_on D oc gc sc →
  session s' = session s ∧ caches_on D oc' gc sc
  ∧ (∀ k i, oc !! k = Some i → oc' !! k = Some i)
  ∧ (∀ c, c ∈ l → truthy (OrgData.ogrn c) = true → is_Some (oc' !! OrgData.ogrn c)).
Proof.
  induction l as [|x l IH]; intros rc oc s rc' oc' s' Hrun HD Hq Hin Hc.
  - injection Hrun as <- <- <-. split_and!; [done..|].
    intros c Hx. by apply elem_of_nil in Hx.
  - rewrite foldM_cons in Hrun. apply bind_Ok in Hrun as ([rc1 oc1] & s1 & Hx & Hrest).
    eapply pass1_quiet in Hx as (Hs1 & Hc1 & Hsub1 & Hin1); [|done..| |done].
    2:{ apply Hin, list_elem_of_here. }
    apply IH in Hrest as (Hs' & Hc' & Hsub' & Hin'); [|done|by rewrite Hs1| |done].
    2:{ intros c Hx. apply Hin. by apply list_elem_of_further. }
    split_and!; [congruence|done|by auto|].
    intros c [->|Hx]%elem_of_cons Ht; [|by apply Hin'].
    destruct (Hin1 Ht) as [i Hi]. rewrite (Hsub' _ _ Hi). eauto.
Qed.

Lemma load_programs_quiet D ogrn j oc l : ∀ gc sc s gc' sc' s',
  foldM (load_program ogrn j) l (gc, sc) s = (Ok (gc', sc'), s') →
  all_flushed D → quiet D (session s) →
  EducationalOrganization_by_ogrn ogrn D = Some j →
  (∀ pd, pd ∈ l → loadable pd → program_stored D ogrn pd) →
  caches_on D oc gc sc →
  session s' = session s ∧ caches_on D oc gc' sc'.
Proof.
  induction l as [|pd l IH]; intros gc sc s gc' sc' s' Hrun HD Hq Hj Hst Hc.
  - by injection Hrun as <- <- <-.
  - rewrite foldM_cons in Hrun. apply bind_Ok in Hrun as ([gc1 sc1] & s1 & Hpd & Hrest).
    eapply load_program_quiet in Hpd as (Hs1 & Hc1); [|done..| |done].
    2:{ apply Hst, list_elem_of_here. }
    apply IH in Hrest as (Hs' & Hc'); [|done|by rewrite Hs1|done| |done].
    2:{ intros pd' Hpd'. apply Hst. by apply list_elem_of_further. }
    split; [congruence|done].
Qed.

Lemma pass2_quiet D oc gc sc c s gc' sc' s' :
  pass2 oc (gc, sc) c s = (Ok (gc', sc'), s') →
  all_flushed D → quiet D (session s) →
  (truthy (OrgData.ogrn c) = true →
   ∀ pd, pd ∈ OrgData.programs c → loadable pd → program_stored D (OrgData.ogrn c) pd) →
  caches_on D oc gc sc →
  quiet D (session s') ∧ caches_on D oc gc' sc'.
Proof.
  intros Hrun HD Hq Hst Hc. unfold pass2 in Hrun.
  destruct (truthy (OrgData.ogrn c)) eqn:Et; simpl in Hrun;
    [|by injection Hrun as <- <- <-].
  destruct (oc !! OrgData.ogrn c) as [j|] eqn:Ej; [|by injection Hrun as <- <- <-].
  apply bind_Ok in Hrun as ([] & s1 & Hlink & Hloop).
  apply (link_parent_quiet D) in Hlink; [|done..].
  eapply load_programs_quiet in Hloop as [Hs' ?]; [|done..| |by auto|done].
  - by rewrite Hs'.
  - destruct Hc as (Hoc & _). by apply Hoc.
Qed.

Lemma pass2_loop_quiet D oc l : ∀ gc sc s gc' sc' s',
  foldM (pass2 oc) l (gc, sc) s = (Ok (gc', sc'), s') →
  all_flushed D → quiet D (session s) →
  (∀ c, c ∈ l → truthy (OrgData.ogrn c) = true →
   ∀ pd, pd ∈ OrgData.programs c → loadable pd → program_stored D (OrgData.ogrn c) pd) →
  caches_on D oc gc sc →
  quiet D (session s').
Proof.
  induction l as [|x l IH]; intros gc sc s gc' sc' s' Hrun HD Hq Hst Hc.
  - by injection Hrun as <- <- <-.
  - rewrite foldM_cons in Hrun. apply bind_Ok in Hrun as ([gc1 sc1] & s1 & Hx & Hrest).
    eapply pass2_quiet in Hx as [Hq1 Hc1]; [|done..| |done].
    2:{ apply Hst, list_elem_of_here. }
    eapply IH; [exact Hrest|done..| |done].
    intros c Hx. apply Hst. by apply list_elem_of_further.
Qed.

Lemma quiet_row_counts D t : quiet D t → row_counts t = row_counts D.
Proof.
  intros (E1 & E2 & E3 & E4 & Hq). unfold row_counts.
  by rewrite E1, E2, E3, E4, (Forall2_length _ _ _ Hq).
Qed.

(** A run on a database that holds everything the input asks for leaves
    it as it is, up to the parent_id of the organizations. *)
Lemma loaded_run_quiet organizations_data app D faults :
  all_flushed D → loaded D organizations_data →
  quiet D (stored (snd (_populate_db organizations_data app (fresh D faults)))).
Proof.
  intros HD Hl.
  destruct organizations_data as [|x l]; [apply quiet_refl|].
  destruct app as [a|]; [|apply quiet_refl].
  destruct (run_outcomes x l a D faults) as [E|[E|E]].
  - rewrite E. apply quiet_refl.
  - rewrite flush_id in E by done. injection E as <-. apply quiet_refl.
  - destruct E as (rc & oc & s1 & s2 & [gc sc] & s3 & H1 & Hf1 & H2 & Hf2).
    eapply (pass1_loop_quiet D ∅ ∅) in H1 as (Hs1 & Hc1 & _ & _);
      [|done|apply quiet_refl| |].
    2:{ intros c Hc Ht. by apply Hl. }
    2:{ split_and!; intros k i Hk; by rewrite lookup_empty in Hk. }
    simpl in Hs1. rewrite Hs1, flush_id in Hf1 by done. injection Hf1 as Hs2.
    eapply pass2_loop_quiet in H2; [|done|rewrite <- Hs2; apply quiet_refl| |done].
    2:{ intros c Hc Ht. by apply Hl. }
    rewrite flush_id in Hf2 by by eapply quiet_all_flushed.
    injection Hf2 as <-. done.
Qed.

(** C2: when a run on a database that honours the NOT NULL columns of
    EducationalProgram completes, a second run on the same input, whatever
    its outcome, leaves as many Region, SpecialtyGroup, Specialty,
    EducationalOrganization and EducationalProgram rows as the first run
    left; the tables are those of the first run, up to the parent_id of
    the organizations. *)
Theorem C2_second_run_adds_no_row organizations_data app app' db faults faults' :
  let first := _populate_db organizations_data app (fresh db faults) in
  let second := _populate_db organizations_data app' (fresh (stored (snd first)) faults') in
  programs_ok db → completed first →
  row_counts (stored (snd second)) = row_counts (stored (snd first))
  ∧ quiet (stored (snd first)) (stored (snd second)).
Proof.
  intros first second Hok Hdone.
  assert (quiet (stored (snd first)) (stored (snd second))) as Hq.
  { destruct organizations_data as [|x l]; [apply quiet_refl|].
    destruct (completed_run_loaded (x :: l) app db faults Hdone Hok) as [Hl Hall].
    apply loaded_run_quiet; [by apply Hall|done]. }
  split; [by apply quiet_row_counts|done].
Qed.

Lemma C2_second_run_adds_no_row_witness :
  row_counts (stored (snd (_populate_db [org_A; org_B; org_D] (Some FlaskApp)
     (fresh (stored (snd (_populate_db [org_A; org_B; org_D] (Some FlaskApp)
                            (fresh db_with_group [])))) []))))
  = row_counts (stored (snd (_populate_db [org_A; org_B; org_D] (Some FlaskApp)
                               (fresh db_with_group [])))).
Proof.
  apply (C2_second_run_adds_no_row [org_A; org_B; org_D] (Some FlaskApp) (Some FlaskApp)
           db_with_group [] []).
  - apply Forall_nil_2.
  - split; [by vm_compute|]. apply (bool_decide_unpack _). by vm_compute.
Defined.

(** The first run of the witness stores three regions, the group, one
    specialty, three organizations and one program. *)
Lemma two_runs_row_counts :
  row_counts (stored (snd (_populate_db [org_A; org_B; org_D] (Some FlaskApp)
                             (fresh db_with_group [])))) = (3, 1, 1, 3, 1).
Proof. by vm_compute. Qed.

(** * Further properties of the loader *)

(** ** Strings *)

Lemma lstrip_fixed (s : str) :
  (∀ c, head s = Some c → isspace c = false) → lstrip s = s.
Proof. destruct s as [|c r]; [done|]. intros H. simpl. by rewrite (H c). Qed.

Lemma lstrip_head (s : str) c : head (lstrip s) = Some c → isspace c = false.
Proof.
  induction s as [|a r IH]; [done|]. simpl.
  destruct (isspace a) eqn:E; [done|]. by intros [= <-].
Qed.

Lemma lstrip_suffix (s : str) : ∃ sp, s = sp ++ lstrip s.
Proof.
  induction s as [|a r [sp IH]]; [by exists []|]. simpl.
  destruct (isspace a).
  - exists (a :: sp). simpl. by rewrite <- IH.
  - by exists [].
Qed.

Lemma lstrip_idemp (s : str) : lstrip (lstrip s) = lstrip s.
Proof. apply lstrip_fixed, lstrip_head. Qed.

Lemma strip_idemp (s : str) : strip (strip s) = strip s.
Proof.
  unfold strip. set (t := lstrip s). set (w := lstrip (rev t)).
  assert (lstrip (rev w) = rev w) as ->.
  { apply lstrip_fixed. intros c Hc.
    destruct (lstrip_suffix (rev t)) as [sp Hsp]. fold w in Hsp.
    apply (f_equal (@rev N)) in Hsp. rewrite rev_involutive, rev_app_distr in Hsp.
    apply (lstrip_head s). fold t. rewrite Hsp.
    destruct (rev w); [done|]. simpl in *. done. }
  rewrite rev_involutive. unfold w. by rewrite lstrip_idemp.
Qed.

Lemma trimmed_nil : trimmed [].
Proof. reflexivity. Qed.

Lemma trimmed_strip (s : str) : trimmed (strip s).
Proof. apply strip_idemp. Qed.

Lemma get_text_trimmed element xpath default :
  trimmed default → trimmed (_get_text element xpath default).
Proof.
  intros Hd. unfold _get_text. destruct (findtext xpath element) as [found|]; [|done].
  destruct (truthy found); [apply trimmed_strip|done].
Qed.

(** X1: [_get_text] returns the default when the element has no child of
    that name or when the text of the child is empty, and the text of the
    child with its surrounding whitespace removed otherwise (the empty
    string, not the default, for a text made of whitespace only); so that
    with a default that has no surrounding whitespace the value returned
    has none. *)
Theorem X1_get_text_is_trimmed element xpath default :
  trimmed default →
  trimmed (_get_text element xpath default)
  ∧ (find xpath element = None → _get_text element xpath default = default)
  ∧ (∀ child, find xpath element = Some child →
       _get_text element xpath default
       = match text child with
         | Some (c :: found) => strip (c :: found)
         | _ => default
         end).
Proof.
  intros Hd. split_and!.
  - by apply get_text_trimmed.
  - unfold _get_text, findtext. by intros ->.
  - intros child Hc. unfold _get_text, findtext. rewrite Hc. simpl.
    by destruct (text child) as [[|c found]|].
Qed.

Lemma X1_get_text_is_trimmed_witness :
  trimmed (_get_text (Elem (u "Org") None [leaf "OGRN" "  1027700000001 "]) (u "OGRN") []).
Proof.
  apply (X1_get_text_is_trimmed (Elem (u "Org") None [leaf "OGRN" "  1027700000001 "])
           (u "OGRN") []).
  reflexivity.
Defined.

(** ** The address heuristic *)

Lemma split1_with_sep sep (s : str) :
  sep ∈ s → ∃ a b, split1 sep s = [a; b] ∧ s = a ++ sep :: b ∧ sep ∉ a.
Proof.
  induction s as [|c r IH]; intros Hs; [by apply elem_of_nil in Hs|]. simpl.
  destruct (N.eqb_spec c sep) as [->|Hne].
  - exists [], r. split_and!; [done..|apply not_elem_of_nil].
  - apply elem_of_cons in Hs as [?|Hr]; [done|].
    destruct (IH Hr) as (a & b & -> & -> & Ha). exists (c :: a), b.
    split_and!; [done..|]. apply not_elem_of_cons. auto.
Qed.

Lemma split1_at sep (a b : str) : sep ∉ a → split1 sep (a ++ sep :: b) = [a; b].
Proof.
  induction a as [|c a IH]; intros Ha; simpl.
  - by rewrite N.eqb_refl.
  - apply not_elem_of_cons in Ha as [Hne Ha].
    destruct (N.eqb_spec c sep) as [?|_]; [done|]. by rewrite IH.
Qed.

Lemma split1_first sep (a t : str) :
  sep ∉ a → (t = [] ∨ head t = Some sep) → item (split1 sep (a ++ t)) 0 = a.
Proof.
  intros Ha [->|Ht].
  - rewrite app_nil_r. by rewrite split1_without_sep.
  - destruct t as [|c t]; [done|]. injection Ht as ->. by rewrite split1_at.
Qed.

Lemma find_first_match {A} (f : A → bool) (pre post : list A) x :
  (∀ y, y ∈ pre → f y = false) → f x = true → List.find f (pre ++ x :: post) = Some x.
Proof.
  induction pre as [|y pre IH]; intros Hpre Hx; simpl.
  - by rewrite Hx.
  - rewrite (Hpre y) by apply list_elem_of_here. apply IH; [|done].
    intros z Hz. apply Hpre. by apply list_elem_of_further.
Qed.

Lemma find_known_region address :
  is_Some (List.find (λ region_name, contains region_name (lower address)) possible_regions)
  ↔ names_known_region address.
Proof.
  split.
  - intros [r Hr]. apply List.find_some in Hr as [Hin Hc]. exists r.
    split; [by apply list_elem_of_In|done].
  - intros (r & Hin & Hc).
    destruct (List.find _ possible_regions) eqn:E; [done|].
    apply list_elem_of_In in Hin. by rewrite (List.find_none _ _ E r Hin) in Hc.
Qed.

(** X2: [_extract_region_from_address] never raises.  It returns [None]
    exactly when no known region name occurs in the address (whatever the
    case of its letters) and the address has no comma, and it logs its
    warning exactly then; in every other case it returns a string and logs
    nothing. *)
Theorem X2_region_from_address_is_none_iff address s :
  ∃ region,
    _extract_region_from_address address s
    = (Ok region, match region with
                  | None => logged WARNING (MsgRegionNotExtracted address) s
                  | Some _ => s
                  end)
    ∧ (region = None ↔ ¬ names_known_region address ∧ comma ∉ address).
Proof.
  unfold _extract_region_from_address.
  destruct (List.find _ possible_regions) as [r|] eqn:Ef.
  - exists (Some (capitalize r)). split; [done|]. split; [done|]. intros [Hno _].
    destruct Hno. apply find_known_region. by rewrite Ef.
  - assert (¬ names_known_region address) as Hno.
    { intros [? H]%find_known_region. by rewrite Ef in H. }
    destruct (decide (comma ∈ address)) as [Hc|Hc].
    + destruct (split1_with_sep _ _ Hc) as (a & b & -> & _ & _). simpl.
      change (item [a; b] 0) with a.
      destruct (isdigit (strip a) && bool_decide (length (strip a) = 6)).
      * eexists (Some _). split; [done|]. split; [done|]. by intros [_ ?].
      * eexists (Some _). split; [done|]. split; [done|]. by intros [_ ?].
    + rewrite split1_without_sep by done. exists None. simpl. by split.
Qed.

(** X3: when a known region name occurs in the address, whatever the
    case of its letters, the answer is the first such name in the order of
    the list (city of Moscow, Moscow region, city of Saint Petersburg,
    Leningrad region), capitalized; nothing is logged.  The rest of the
    address, its commas and its postal index play no part. *)
Theorem X3_known_region_has_priority address s before region_name after :
  possible_regions = before ++ region_name :: after →
  (∀ other, other ∈ before → contains other (lower address) = false) →
  contains region_name (lower address) = true →
  _extract_region_from_address address s = (Ok (Some (capitalize region_name)), s).
Proof.
  intros Hlist Hbefore Hin. unfold _extract_region_from_address.
  rewrite Hlist. by rewrite (find_first_match _ before after region_name).
Qed.

Lemma X3_known_region_has_priority_witness :
  _extract_region_from_address (u "Московская область, Г. МОСКВА, ул. Ленина")
    (fresh empty_tables [])
  = (Ok (Some (u "Г. москва")), fresh empty_tables []).
Proof.
  apply (X3_known_region_has_priority (u "Московская область, Г. МОСКВА, ул. Ленина")
           (fresh empty_tables []) [] (u "г. москва")
           [u "московская область"; u "г. санкт-петербург"; u "ленинградская область"]).
  - reflexivity.
  - intros other Hother. by apply elem_of_nil in Hother.
  - by vm_compute.
Defined.

(** X4: for an address written in Basic Latin and Cyrillic
    U+0400..U+045F that names no known region and has a comma, the answer
    is the text before the first comma, trimmed and capitalized; unless
    that text is a postal index (six digits), in which case it is the
    text between the first comma and the next one (or the end), trimmed
    and capitalized.  The answer can be the empty string. *)
Theorem X4_region_from_comma_parts first rest address s :
  modelled address = true →
  address = first ++ comma :: rest →
  comma ∉ first →
  ¬ names_known_region address →
  (postal_index (strip first) = false →
   _extract_region_from_address address s = (Ok (Some (capitalize (strip first))), s))
  ∧ (∀ second more,
       postal_index (strip first) = true →
       rest = second ++ more → comma ∉ second → (more = [] ∨ head more = Some comma) →
       _extract_region_from_address address s
       = (Ok (Some (capitalize (strip second))), s)).
Proof.
  intros _ -> Hfirst Hno.
  assert (List.find (λ region_name, contains region_name (lower (first ++ comma :: rest)))
            possible_regions = None) as Hfind.
  { destruct (List.find _ possible_regions) eqn:E; [|done].
    destruct Hno. apply find_known_region. by rewrite E. }
  unfold _extract_region_from_address. rewrite Hfind, split1_at by done. simpl.
  change (item [first; rest] 0) with first. change (item [first; rest] 1) with rest.
  fold (postal_index (strip first)). split.
  - by intros ->.
  - intros second more -> -> Hsecond Hmore. by rewrite split1_first.
Qed.

Lemma X4_region_from_comma_parts_witness :
  _extract_region_from_address (u "170100 , тверская область, г. Тверь")
    (fresh empty_tables [])
  = (Ok (Some (u "Тверская область")), fresh empty_tables []).
Proof.
  destruct (X4_region_from_comma_parts (u "170100 ") (u " тверская область, г. Тверь")
              (u "170100 , тверская область, г. Тверь") (fresh empty_tables []))
    as [_ Hindex].
  - by vm_compute.
  - by vm_compute.
  - apply (bool_decide_unpack _). by vm_compute.
  - intros [r Hr]%find_known_region. by vm_compute in Hr.
  - apply (Hindex (u " тверская область") (u ", г. Тверь")).
    + by vm_compute.
    + by vm_compute.
    + apply (bool_decide_unpack _). by vm_compute.
    + by right.
Defined.

(** ** The parser *)

Lemma only_logs_refl s : only_logs s s.
Proof. split_and!; [done..|by exists []]. Qed.

Lemma only_logs_trans s1 s2 s3 : only_logs s1 s2 → only_logs s2 s3 → only_logs s1 s3.
Proof.
  intros (?&?&?&?&l1&E1) (?&?&?&?&l2&E2). split_and!; [congruence..|].
  exists (l2 ++ l1). by rewrite E2, E1, app_assoc.
Qed.

Lemma only_logs_logged lvl msg s : only_logs s (logged lvl msg s).
Proof. split_and!; [done..|by exists [mkLog lvl msg]]. Qed.

Lemma returns_ret {A} (P : A → Prop) a : P a → returns P (mret a).
Proof. intros Ha. exists a. split; [done|]. intros s. exists s. split; [done|apply only_logs_refl]. Qed.

Lemma returns_bind {A B} (P : A → Prop) (Q : B → Prop) (m : M A) (f : A → M B) :
  returns P m → (∀ a, P a → returns Q (f a)) → returns Q (m ≫= f).
Proof.
  intros (a & Ha & Hm) Hf. destruct (Hf a Ha) as (b & Hb & Hfa).
  exists b. split; [done|]. intros s.
  destruct (Hm s) as (s1 & E1 & H1). destruct (Hfa s1) as (s2 & E2 & H2).
  exists s2. split; [by rewrite (bind_run_Ok _ _ _ _ _ E1)|by eapply only_logs_trans].
Qed.

Lemma returns_logging lvl msg : returns (λ _, True) (logging lvl msg).
Proof.
  exists (). split; [done|]. intros s. exists (logged lvl msg s).
  split; [done|apply only_logs_logged].
Qed.

Lemma returns_mono {A} (P Q : A → Prop) (m : M A) :
  (∀ a, P a → Q a) → returns P m → returns Q m.
Proof. intros HPQ (a & Ha & Hm). exists a. split; [by apply HPQ|done]. Qed.

Lemma returns_foldM {A B} (I : list A → B → Prop) (f : B → A → M B) (l : list A) :
  (∀ done x b, I done b → x ∈ l → returns (I (done ++ [x])) (f b x)) →
  ∀ done b, I done b → returns (I (done ++ l)) (foldM f l b).
Proof.
  induction l as [|x l IH]; intros Hf done b Hb.
  - rewrite app_nil_r. by apply returns_ret.
  - rewrite foldM_cons. eapply returns_bind.
    + apply Hf; [done|apply list_elem_of_here].
    + intros b' Hb'. replace (done ++ x :: l) with ((done ++ [x]) ++ l)
        by (by rewrite <- app_assoc). apply IH; [|done].
      intros d y c Hc Hy. apply Hf; [done|by apply list_elem_of_further].
Qed.

Lemma returns_run {A} (P : A → Prop) (m : M A) s :
  returns P m → ∃ a s', m s = (Ok a, s') ∧ P a ∧ only_logs s s'.
Proof. intros (a & Ha & Hm). destruct (Hm s) as (s' & ? & ?). eauto. Qed.

Lemma returns_fst {A} (P : A → Prop) (m : M A) s1 s2 :
  returns P m → fst (m s1) = fst (m s2).
Proof.
  intros (a & _ & Hm). destruct (Hm s1) as (? & -> & _). by destruct (Hm s2) as (? & -> & _).
Qed.

(** *** One program, one supplement, one certificate *)

Lemma returns_parse_program ogrn programs program_elem :
  Forall program_ok programs →
  returns (Forall program_ok) (parse_program ogrn programs program_elem).
Proof.
  intros Hps. unfold parse_program.
  destruct (negb _); [by apply returns_ret|].
  cbv zeta. simpl ProgData.specialty_code.
  destruct (truthy (_get_text program_elem (u "ProgrammCode") [])) eqn:Et.
  - apply returns_ret. apply Forall_app. split; [done|]. constructor; [|done].
    split_and!; [done|by apply get_text_trimmed..].
  - eapply returns_bind; [apply returns_logging|]. intros _ _. by apply returns_ret.
Qed.

Lemma returns_parse_supplement ogrn programs supp_elem :
  Forall program_ok programs →
  returns (Forall program_ok) (parse_supplement ogrn programs supp_elem).
Proof.
  intros Hps. unfold parse_supplement.
  destruct (find _ supp_elem) as [programs_elem|]; [|by apply returns_ret].
  eapply returns_mono; [|apply (returns_foldM (λ _, Forall program_ok)) with (done := [])].
  - done.
  - intros _ x b Hb _. by apply returns_parse_program.
  - done.
Qed.

Lemma returns_parse_certificate path organizations_in_file cert_elem :
  returns (λ l, ∃ new, l = organizations_in_file ++ new ∧ Forall record_ok new
                       ∧ length new ≤ 1)
    (parse_certificate path organizations_in_file cert_elem).
Proof.
  unfold parse_certificate.
  destruct (find _ cert_elem) as [org_elem|].
  2:{ eapply returns_bind; [apply returns_logging|]. intros _ _. apply returns_ret.
      exists []. rewrite app_nil_r. split_and!; [done|done|simpl; lia]. }
  cbv zeta. destruct (truthy (_get_text org_elem (u "OGRN") [])) eqn:Et; simpl negb; cbv iota.
  2:{ eapply returns_bind; [apply returns_logging|]. intros _ _. apply returns_ret.
      exists []. rewrite app_nil_r. split_and!; [done|done|simpl; lia]. }
  eapply returns_bind with (P := Forall program_ok).
  { destruct (find _ cert_elem) as [supplements_elem|]; [|by apply returns_ret].
    eapply returns_mono; [|apply (returns_foldM (λ _, Forall program_ok)) with (done := [])].
    - done.
    - intros _ x b Hb _. by apply returns_parse_supplement.
    - done. }
  intros programs Hps. apply returns_ret. eexists [_]. split; [done|].
  split; [|simpl; lia]. constructor; [|done].
  split_and!; simpl; try done; try (by apply get_text_trimmed).
  destruct (bool_decide (_get_text org_elem (u "IsBranch") (u "0") = u "1")).
  - split; [done|]. eauto.
  - split; [|done]. by intros [? ?].
Qed.

Lemma returns_certificates path certs :
  returns (λ l, Forall record_ok l ∧ length l ≤ length certs)
    (foldM (parse_certificate path) certs []).
Proof.
  eapply returns_mono;
    [|apply (returns_foldM (λ done l, Forall record_ok l ∧ length l ≤ length done))
        with (done := [])].
  - done.
  - intros done x b [Hb Hlen] _. eapply returns_mono; [|apply returns_parse_certificate].
    intros l (new & -> & Hnew & Hone). split; [by apply Forall_app|].
    rewrite !length_app. simpl. lia.
  - split; [done|simpl; lia].
Qed.

(** *** One file *)

(** The records of one file: those of its certificates, or none when the
    traversal of the file ends with an exception. *)
Lemma returns_parse_file all_organizations_data f :
  returns (λ l, ∃ in_file, l = all_organizations_data ++ in_file
                           ∧ Forall record_ok in_file
                           ∧ length in_file ≤ length (certificates f)
                           ∧ (broken f = true → in_file = [])
                           ∧ in_file = parsed [f])
    (parse_file all_organizations_data f).
Proof.
  destruct (returns_certificates (xml_file_path f) (certificates f))
    as (in_file & [Hok Hlen] & Hrun).
  assert (∀ acc s, ∃ s',
            parse_file acc f s = (Ok (acc ++ if broken f then [] else in_file), s')
            ∧ only_logs s s') as Hfile.
  { intros acc s. unfold parse_file. rewrite logging_bind. unfold try_except.
    rewrite logging_bind.
    destruct (Hrun (logged INFO MsgMainTag (logged INFO (MsgParseFile (xml_file_path f)) s)))
      as (s1 & E1 & H1).
    rewrite (bind_run_Ok _ _ _ _ _ E1).
    assert (only_logs s s1) as Hs1.
    { eapply only_logs_trans; [|exact H1].
      eapply only_logs_trans; apply only_logs_logged. }
    destruct (broken f).
    - simpl. rewrite app_nil_r. eexists. split; [reflexivity|].
      eapply only_logs_trans; [exact Hs1|apply only_logs_logged].
    - simpl. eexists. split; [reflexivity|].
      eapply only_logs_trans; [exact Hs1|apply only_logs_logged]. }
  exists (all_organizations_data ++ if broken f then [] else in_file).
  split; [|apply Hfile].
  exists (if broken f then [] else in_file). split_and!.
  - done.
  - by destruct (broken f).
  - destruct (broken f); [simpl; lia|done].
  - by intros ->.
  - unfold parsed, _parse_xml_files. rewrite logging_bind. rewrite foldM_cons.
    destruct (Hfile [] (logged INFO MsgParseStart (fresh empty_tables []))) as (s1 & E1 & _).
    cbn [foldM]. rewrite bind_eq, bind_eq, E1. reflexivity.
Qed.

Lemma parse_file_broken all_organizations_data f s :
  broken f = true →
  ∃ s1, parse_file all_organizations_data f s
        = (Ok all_organizations_data, logged ERROR (MsgParseError (xml_file_path f)) s1).
Proof.
  intros Hb. unfold parse_file. rewrite logging_bind. unfold try_except.
  rewrite logging_bind.
  destruct (returns_run _ _
              (logged INFO MsgMainTag (logged INFO (MsgParseFile (xml_file_path f)) s))
              (returns_certificates (xml_file_path f) (certificates f)))
    as (in_file & s1 & E1 & _).
  rewrite (bind_run_Ok _ _ _ _ _ E1), Hb. simpl. eauto.
Qed.

Lemma only_logs_log s s' r : only_logs s s' → r ∈ log s → r ∈ log s'.
Proof. intros (_&_&_&_&recs&->) Hr. apply elem_of_app. by right. Qed.

Lemma foldM_app {A B} (f : B → A → M B) l1 l2 b s :
  foldM f (l1 ++ l2) b s = (b' ← foldM f l1 b; foldM f l2 b') s.
Proof.
  revert b s. induction l1 as [|x l1 IH]; intros b s.
  - reflexivity.
  - change ((x :: l1) ++ l2) with (x :: (l1 ++ l2)). rewrite !foldM_cons, !bind_eq.
    destruct (f b x s) as [[b1|e] s1]; [|done]. by rewrite IH, bind_eq.
Qed.

Lemma returns_files xml_files : ∀ all_organizations_data,
  returns (λ l, ∃ new, l = all_organizations_data ++ new
                       ∧ Forall record_ok new
                       ∧ length new ≤ certificate_count xml_files
                       ∧ new = concat ((λ f, parsed [f]) <$> xml_files))
    (foldM parse_file xml_files all_organizations_data).
Proof.
  induction xml_files as [|f l IH]; intros acc.
  - apply returns_ret. exists []. rewrite app_nil_r. split_and!; [done..|simpl; lia|done].
  - rewrite foldM_cons. eapply returns_bind; [apply returns_parse_file|].
    intros acc1 (in_file & -> & Hok & Hlen & _ & Hpar).
    eapply returns_mono; [|apply IH].
    intros l' (new & -> & Hnew & Hlen' & Hcat). exists (in_file ++ new).
    split_and!.
    + by rewrite app_assoc.
    + by apply Forall_app.
    + rewrite length_app. unfold certificate_count in *. rewrite fmap_cons. simpl. lia.
    + rewrite fmap_cons. cbn [concat]. congruence.
Qed.

Lemma returns_parse_xml_files xml_files :
  returns (λ l, Forall record_ok l ∧ length l ≤ certificate_count xml_files
                ∧ l = concat ((λ f, parsed [f]) <$> xml_files))
    (_parse_xml_files xml_files).
Proof.
  unfold _parse_xml_files. eapply returns_bind; [apply returns_logging|]. intros _ _.
  destruct xml_files as [|f l].
  - eapply returns_bind; [apply returns_logging|]. intros _ _. apply returns_ret.
    split_and!; [done|simpl; lia|done].
  - eapply returns_bind; [apply (returns_files (f :: l) [])|].
    intros data (new & -> & Hok & Hlen & Hcat).
    eapply returns_bind; [apply returns_logging|]. intros _ _. by apply returns_ret.
Qed.

Lemma parsed_concat xml_files : parsed xml_files = concat ((λ f, parsed [f]) <$> xml_files).
Proof.
  unfold parsed at 1.
  destruct (returns_run _ _ (fresh empty_tables []) (returns_parse_xml_files xml_files))
    as (data & s' & -> & (_ & _ & ->) & _). done.
Qed.

Lemma parsed_app l1 l2 : parsed (l1 ++ l2) = parsed l1 ++ parsed l2.
Proof. by rewrite !parsed_concat, fmap_app, concat_app. Qed.

Lemma parse_xml_files_parsed xml_files s :
  fst (_parse_xml_files xml_files s) = Ok (parsed xml_files).
Proof.
  destruct (returns_run _ _ s (returns_parse_xml_files xml_files))
    as (data & s' & -> & (_ & _ & ->) & _). by rewrite parsed_concat.
Qed.

(** X5: [_parse_xml_files] never raises and touches neither the session
    nor the database: it only logs.  It returns at most one record per
    [Certificate] element, and every record has a non-empty OGRN, trimmed
    texts, a declared head ([parent_ogrn] is not [None]) exactly when
    [is_branch] is set, and only programs with a non-empty code. *)
Theorem X5_parser_returns_well_formed_records xml_files s :
  ∃ all_organizations_data s',
    _parse_xml_files xml_files s = (Ok all_organizations_data, s')
    ∧ only_logs s s'
    ∧ Forall record_ok all_organizations_data
    ∧ length all_organizations_data ≤ certificate_count xml_files.
Proof.
  destruct (returns_run _ _ s (returns_parse_xml_files xml_files))
    as (data & s' & E & (Hok & Hlen & _) & Hlogs).
  exists data, s'. done.
Qed.

(** X6: the records do not depend on the state in which the parser runs,
    and the records of a list of files are those of its files one after
    the other: parsing [l1 ++ l2] gives the records of [l1] followed by
    those of [l2]. *)
Theorem X6_parser_is_compositional l1 l2 s :
  fst (_parse_xml_files (l1 ++ l2) s) = Ok (parsed l1 ++ parsed l2)
  ∧ fst (_parse_xml_files l1 s) = Ok (parsed l1).
Proof. split; [by rewrite parse_xml_files_parsed, parsed_app|apply parse_xml_files_parsed]. Qed.

(** X7: a file whose traversal ends with an exception contributes no
    record, not even those of the certificates read before the exception,
    and does not stop the parser: the other files are parsed as if it were
    not there, and the error is logged. *)
Theorem X7_broken_file_is_dropped l1 f l2 s :
  broken f = true →
  fst (_parse_xml_files (l1 ++ f :: l2) s) = Ok (parsed (l1 ++ l2))
  ∧ mkLog ERROR (MsgParseError (xml_file_path f))
      ∈ log (snd (_parse_xml_files (l1 ++ f :: l2) s)).
Proof.
  intros Hb. split.
  - rewrite parse_xml_files_parsed.
    change (f :: l2) with ([f] ++ l2). rewrite !parsed_app. f_equal.
    destruct (returns_parse_file [] f) as (l & (in_file & -> & _ & _ & Hnil & <-) & _).
    by rewrite (Hnil Hb).
  - destruct (returns_run _ _ (logged INFO MsgParseStart s) (returns_files l1 []))
      as (acc & s1 & E1 & _ & _).
    destruct (parse_file_broken acc f s1 Hb) as (s2 & E2).
    destruct (returns_run _ _ (logged ERROR (MsgParseError (xml_file_path f)) s2)
                (returns_files l2 acc)) as (data & s3 & E3 & _ & Hlogs).
    assert (foldM parse_file (l1 ++ f :: l2) [] (logged INFO MsgParseStart s)
            = (Ok data, s3)) as Hrun.
    { rewrite foldM_app, (bind_run_Ok _ _ _ _ _ E1), foldM_cons.
      by rewrite (bind_run_Ok _ _ _ _ _ E2). }
    unfold _parse_xml_files. rewrite logging_bind.
    destruct (l1 ++ f :: l2) as [|x l] eqn:El; [by destruct l1|].
    rewrite (bind_run_Ok _ _ _ _ _ Hrun), logging_bind. simpl.
    apply list_elem_of_further. eapply only_logs_log; [exact Hlogs|apply list_elem_of_here].
Qed.

Lemma X7_broken_file_is_dropped_witness :
  fst (_parse_xml_files
         [sample_file; mkXmlFile (u "cut.xml") [sample_certificate] true]
         (fresh empty_tables []))
  = Ok (parsed ([sample_file] ++ [])).
Proof.
  apply (X7_broken_file_is_dropped [sample_file]
           (mkXmlFile (u "cut.xml") [sample_certificate] true) [] (fresh empty_tables [])).
  reflexivity.
Defined.

(** ** The transactional scope *)

Lemma session_commit_cases s :
  match session_commit s with
  | (Ok _, s') =>
    ∃ t, flush (session s) = Some t
         ∧ s' = mkState t t (Commit :: trace s) (log s) (tail (faults s))
  | (Raise e, s') =>
    s' = mkState (session s) (stored s) (Commit :: trace s) (log s) (tail (faults s))
    ∧ (e = OperationalError ∧ head (faults s) = Some true
       ∨ e = IntegrityError ∧ flush (session s) = None)
  end.
Proof.
  unfold session_commit. rewrite bind_eq. unfold storage_call at 1.
  destruct (faults s) as [|[] fs] eqn:Ef; simpl.
  - rewrite bind_eq. unfold autoflush at 1, set_session. simpl.
    destruct (flush (session s)) as [t|]; simpl; eauto.
  - eauto.
  - rewrite bind_eq. unfold autoflush at 1, set_session. simpl.
    destruct (flush (session s)) as [t|]; simpl; eauto.
Qed.

(** X8: [session_scope] around any body.  Without an application it
    raises [RuntimeError] before the body runs.  Within an application,
    when it returns, the body returned the same value, commit was the last
    call, and the committed database is the flushed session of the body;
    when it raises, the committed database is the one the body left, the
    session is rolled back to it, rollback was the last call, the error is
    logged, and the error is the one of the body or, when the body
    returned, the one of the commit. *)
Theorem X8_session_scope_is_all_or_nothing {A} (body : M A) (app : option Flask) s :
  let inner := body (in_context s) in
  let run := session_scope app body s in
  match app, fst run with
  | None, _ => run = (Raise RuntimeError, s)
  | Some _, Ok a =>
    fst inner = Ok a
    ∧ flush (session (snd inner)) = Some (stored (snd run))
    ∧ session (snd run) = stored (snd run)
    ∧ trace (snd run) = Commit :: trace (snd inner)
    ∧ log (snd run) = log (snd inner)
  | Some _, Raise e =>
    stored (snd run) = stored (snd inner)
    ∧ session (snd run) = stored (snd inner)
    ∧ head (trace (snd run)) = Some Rollback
    ∧ log (snd run) = mkLog ERROR (MsgDatabaseError e) :: log (snd inner)
    ∧ (fst inner = Raise e
       ∨ (∃ a, fst inner = Ok a)
         ∧ (e = OperationalError ∧ head (faults (snd inner)) = Some true
            ∨ e = IntegrityError ∧ flush (session (snd inner)) = None))
  end.
Proof.
  intros inner run. subst inner run. destruct app as [app|]; [|done].
  assert (session_scope (Some app) body s
          = try_except (a ← body; session_commit;; mret a)
              (λ e, logging ERROR (MsgDatabaseError e);; session_rollback;; raise e)
              (in_context s)) as -> by done.
  unfold try_except. rewrite bind_eq.
  destruct (body (in_context s)) as [[a|e] s1] eqn:E; simpl.
  2:{ split_and!; [done..|by left]. }
  rewrite bind_eq. pose proof (session_commit_cases s1) as Hc.
  destruct (session_commit s1) as [[[]|e] s2]; simpl.
  - destruct Hc as (t & Ht & ->). by rewrite Ht.
  - destruct Hc as [-> Hc]. split_and!; [done..|]. right. split; [by eexists|done].
Qed.

(** ** Lookup or create *)

Lemma rewritten_row_counts t t' : rewritten t t' → row_counts t' = row_counts t.
Proof.
  intros (H1 & H2 & H3 & H4 & H5). unfold row_counts.
  by rewrite (Forall2_length _ _ _ H1), (Forall2_length _ _ _ H2),
    (Forall2_length _ _ _ H3), (Forall2_length _ _ _ H4), (Forall2_length _ _ _ H5).
Qed.

Lemma region_by_name_ext k t t' i :
  ext t t' → Region_by_name k t = Some i → Region_by_name k t' = Some i.
Proof.
  intros (Hr&_). apply (first_ref_ext Region_same); [|done].
  intros x x' (E&_). by rewrite E.
Qed.

(** Defaults that do not name the column of the lookup, or give it the
    value of the lookup, leave the new object under its key. *)
Lemma RegionModel_keyed defaults name :
  from_option (eq name) True defaults → keyed RegionModel defaults name.
Proof.
  intros Hd. split.
  - intros t t' i. apply region_by_name_ext.
  - intros s i s' [= <- <-] Hnone. destruct defaults; simpl in *; subst;
      by apply first_ref_app_new.
Qed.

Lemma SpecialtyGroupModel_keyed code_given name code :
  from_option (eq code) True code_given →
  keyed SpecialtyGroupModel (code_given, name) code.
Proof.
  intros Hd. split.
  - intros t t' i. apply group_by_code_ext.
  - intros s i s' [= <- <-] Hnone. destruct code_given; simpl in *; subst;
      by apply first_ref_app_new.
Qed.

Lemma SpecialtyModel_keyed code_given name group_id code :
  from_option (eq code) True code_given →
  keyed SpecialtyModel (code_given, name, group_id) code.
Proof.
  intros Hd. split.
  - intros t t' i. apply specialty_by_code_ext.
  - intros s i s' [= <- <-] Hnone. destruct code_given; simpl in *; subst;
      by apply first_ref_app_new.
Qed.

(** X9: when the defaults of a call of [_get_or_create] do not replace
    the key of the lookup (the object that the call creates is found under
    that key, as for the calls of the loader: Region by name,
    SpecialtyGroup and Specialty by code, the defaults naming other
    columns), and that call and a second call with the same key both
    return, the second call returns the instance that the first returned,
    with [created = False], and adds no object to the session, whatever
    its own defaults. *)
Theorem X9_get_or_create_finds_its_own {K D} (model : Model K D)
    defaults defaults' kwargs s instance created s1 instance' created' s2 :
  keyed model defaults kwargs →
  _get_or_create model defaults kwargs s = (Ok (instance, created), s1) →
  _get_or_create model defaults' kwargs s1 = (Ok (instance', created'), s2) →
  instance' = instance ∧ created' = false
  ∧ row_counts (session s2) = row_counts (session s1).
Proof.
  intros [Hext Hnew] H1 H2.
  assert (filter_by model kwargs (session s1) = Some instance) as Hheld.
  { apply get_or_create_Ok in H1 as (sa & _ & [[Hf ->]|(Hnone & sb & Hc & ->)]); [done|].
    by eapply Hnew. }
  unfold _get_or_create in H2. apply bind_Ok in H2 as (found & sc & Hq & H2).
  apply session_query_Ok in Hq as [Hfl ->].
  rewrite (Hext _ _ _ (flush_ext _ _ Hfl) Hheld) in H2.
  injection H2 as <- <- <-. split_and!; [done..|].
  by apply rewritten_row_counts, flush_rewritten.
Qed.

Lemma X9_get_or_create_finds_its_own_witness :
  let first := _get_or_create RegionModel None (u "Тверская область")
                 (fresh empty_tables []) in
  let second := _get_or_create RegionModel (Some (u "Тверь")) (u "Тверская область")
                  (snd first) in
  fst first = Ok (0, true) ∧ fst second = Ok (0, false).
Proof.
  intros first second.
  destruct (_get_or_create RegionModel None (u "Тверская область") (fresh empty_tables []))
    as [r1 s1] eqn:E1.
  destruct (_get_or_create RegionModel (Some (u "Тверь")) (u "Тверская область") s1)
    as [r2 s2] eqn:E2.
  assert (r1 = Ok (0, true)) as -> by (by vm_compute in E1; injection E1 as <- _).
  assert (∃ j c, r2 = Ok (j, c)) as (j & c & ->).
  { subst first second. vm_compute in E1. injection E1 as <-. vm_compute in E2.
    injection E2 as <- _. eauto. }
  destruct (X9_get_or_create_finds_its_own RegionModel None (Some (u "Тверь"))
              (u "Тверская область") (fresh empty_tables []) 0 true s1 j c s2
              (RegionModel_keyed None (u "Тверская область") I) E1 E2)
    as (-> & -> & _).
  subst first second. simpl. by rewrite E2.
Defined.

(** Defaults that replace the key: the object of the first call is
    created under the name of the defaults, the lookup of the second call
    does not find it, and both calls create. *)
Lemma defaults_replace_the_key :
  let first := _get_or_create RegionModel (Some (u "Тверь")) (u "Тверская область")
                 (fresh empty_tables []) in
  let second := _get_or_create RegionModel (Some (u "Тверь")) (u "Тверская область")
                  (snd first) in
  fst first = Ok (0, true) ∧ fst second = Ok (1, true)
  ∧ Region.name <$> regions (session (snd second)) = [u "Тверь"; u "Тверь"].
Proof. by vm_compute. Qed.

(** ** The reconciliation: what it keeps *)

Lemma run_ext_db organizations_data app db faults :
  ext db (stored (snd (_populate_db organizations_data app (fresh db faults)))).
Proof.
  destruct organizations_data as [|x l]; [apply ext_refl|].
  destruct app as [a|]; [|apply ext_refl].
  destruct (run_outcomes x l a db faults) as [->|[E|E]].
  - apply ext_refl.
  - by apply flush_ext.
  - destruct E as (rc & oc & s1 & s2 & caches & s3 & H1 & Hf1 & H2 & Hf2).
    pose proof (respects_pass1_loop nobody _ _ _ _ _ H1) as (_ & Hext1 & _).
    pose proof (respects_pass2_loop _ _ _ _ _ _ H2) as (_ & Hext2 & _).
    simpl in Hext1.
    eapply ext_trans; [exact Hext1|]. eapply ext_trans; [by apply flush_ext|].
    eapply ext_trans; [exact Hext2|]. by apply flush_ext.
Qed.

(** X10: whatever the input and the outcome of the run, every Region,
    SpecialtyGroup, Specialty and EducationalProgram row that the database
    holds before the run is there after it, at its place and unchanged:
    the run only adds rows to these tables. *)
Theorem X10_run_keeps_the_other_tables organizations_data app db faults :
  let t := stored (snd (_populate_db organizations_data app (fresh db faults))) in
  kept_rows Region.id (regions db) (regions t)
  ∧ kept_rows SpecialtyGroup.id (specialty_groups db) (specialty_groups t)
  ∧ kept_rows Specialty.id (specialties db) (specialties t)
  ∧ kept_rows EducationalProgram.id (programs db) (programs t).
Proof.
  intros t. subst t.
  destruct (run_ext_db organizations_data app db faults) as (Hr & Hg & Hs & _ & Hp).
  split_and!; intros i x Hx Hid.
  - destruct (Hr _ _ Hx) as (x' & -> & Hn & Hk). f_equal.
    destruct x, x'. simpl in *. by rewrite Hn, (Hk Hid).
  - destruct (Hg _ _ Hx) as (x' & -> & Hc & Hn & Hk). f_equal.
    destruct x, x'. simpl in *. by rewrite Hc, Hn, (Hk Hid).
  - destruct (Hs _ _ Hx) as (x' & -> & Hc & Hn & Hgi & Hk). f_equal.
    destruct x, x'. simpl in *. by rewrite Hc, Hn, Hgi, (Hk Hid).
  - destruct (Hp _ _ Hx) as (x' & -> & Ho & Hsp & Hk). f_equal.
    destruct x, x'. simpl in *. by rewrite Ho, Hsp, (Hk Hid).
Qed.

(** X11: after a completed run on a database whose programs have their
    NOT NULL columns set, every record with an OGRN has its organization
    in the database, with a key, and every program of the record that has
    both its code and its group code has its group, its specialty and its
    program row there; no object of the run is left without a key. *)
Theorem X11_completed_run_stores_the_input organizations_data app db faults c :
  let run := _populate_db organizations_data app (fresh db faults) in
  completed run → programs_ok db →
  c ∈ organizations_data → truthy (OrgData.ogrn c) = true →
  is_Some (EducationalOrganization_by_ogrn (OrgData.ogrn c) (stored (snd run)))
  ∧ (∀ pd, pd ∈ OrgData.programs c → loadable pd →
           program_stored (stored (snd run)) (OrgData.ogrn c) pd)
  ∧ all_flushed (stored (snd run)).
Proof.
  intros run Hdone Hok Hc Ht.
  destruct (completed_run_loaded organizations_data app db faults Hdone Hok) as [Hl Hall].
  destruct (Hl c Hc Ht) as [Hby Hprog]. split_and!; [done..|].
  apply Hall. intros ->. by apply elem_of_nil in Hc.
Qed.

Lemma X11_completed_run_stores_the_input_witness :
  program_stored
    (stored (snd (_populate_db [org_D] (Some FlaskApp) (fresh db_with_group []))))
    (OrgData.ogrn org_D) informatics.
Proof.
  destruct (X11_completed_run_stores_the_input [org_D] (Some FlaskApp) db_with_group []
              org_D) as (_ & Hprog & _).
  - split; [by vm_compute|]. apply (bool_decide_unpack _). by vm_compute.
  - apply Forall_nil_2.
  - apply list_elem_of_here.
  - reflexivity.
  - apply Hprog; [apply list_elem_of_here|]. by split.
Defined.

(** *** Records without OGRN *)

Lemma pass1_loop_without_ogrn l : ∀ caches s,
  Forall (λ c, truthy (OrgData.ogrn c) = false) l →
  ∃ s', foldM pass1 l caches s = (Ok caches, s') ∧ only_logs s s'.
Proof.
  induction l as [|x l IH]; intros [rc oc] s Hl.
  - exists s. split; [done|apply only_logs_refl].
  - inversion_clear Hl as [|?? Hx Hl']. rewrite foldM_cons.
    assert (pass1 (rc, oc) x s
            = (Ok (rc, oc), logged WARNING (MsgSkipWithoutOgrn (OrgData.full_name x)) s))
      as E by (unfold pass1; by rewrite Hx).
    rewrite (bind_run_Ok _ _ _ _ _ E).
    destruct (IH (rc, oc) (logged WARNING (MsgSkipWithoutOgrn (OrgData.full_name x)) s) Hl')
      as (s' & -> & Hs').
    exists s'. split; [done|]. eapply only_logs_trans; [apply only_logs_logged|done].
Qed.

Lemma pass2_loop_without_ogrn oc l : ∀ caches s,
  Forall (λ c, truthy (OrgData.ogrn c) = false) l →
  foldM (pass2 oc) l caches s = (Ok caches, s).
Proof.
  induction l as [|x l IH]; intros caches s Hl; [done|].
  inversion_clear Hl as [|?? Hx Hl']. rewrite foldM_cons.
  assert (pass2 oc caches x s = (Ok caches, s)) as E by (unfold pass2; by rewrite Hx).
  rewrite (bind_run_Ok _ _ _ _ _ E). by apply IH.
Qed.

(** X12: records without OGRN are skipped: when no record of the input
    has an OGRN, the run, whatever its outcome, adds no row to any table,
    and it leaves a database whose rows all have their key exactly as it
    was. *)
Theorem X12_records_without_ogrn_are_skipped organizations_data app db faults :
  let run := _populate_db organizations_data app (fresh db faults) in
  Forall (λ c, truthy (OrgData.ogrn c) = false) organizations_data →
  row_counts (stored (snd run)) = row_counts db
  ∧ (all_flushed db → stored (snd run) = db).
Proof.
  intros run Hl. subst run.
  destruct organizations_data as [|x l]; [done|].
  destruct app as [a|]; [|done].
  destruct (run_outcomes x l a db faults) as [->|[E|E]]; [done| |].
  - split; [by apply rewritten_row_counts, flush_rewritten|].
    intros Hall. rewrite (flush_id _ Hall) in E. by injection E.
  - destruct E as (rc & oc & s1 & s2 & caches & s3 & H1 & Hf1 & H2 & Hf2).
    destruct (pass1_loop_without_ogrn (x :: l) (∅, ∅)
                (logged INFO MsgPass1Start (entered (fresh db faults))) Hl)
      as (s1' & E1 & (Hs1 & _)).
    rewrite E1 in H1. injection H1 as <- <- <-. simpl in Hs1. rewrite Hs1 in Hf1.
    rewrite (pass2_loop_without_ogrn _ _ _ _ Hl) in H2. injection H2 as <- <-.
    split.
    + rewrite (rewritten_row_counts _ _ (flush_rewritten _ _ Hf2)).
      by rewrite (rewritten_row_counts _ _ (flush_rewritten _ _ Hf1)).
    + intros Hall. rewrite (flush_id _ Hall) in Hf1. injection Hf1 as Hs2.
      rewrite <- Hs2, (flush_id _ Hall) in Hf2. by injection Hf2.
Qed.

Lemma X12_records_without_ogrn_are_skipped_witness :
  stored (snd (_populate_db
                 [OrgData.mk (u "Institute") (u "I") [] (u "7700000009") (u "Тверь")
                    false None [] [informatics]]
                 (Some FlaskApp) (fresh db_with_group []))) = db_with_group.
Proof.
  destruct (X12_records_without_ogrn_are_skipped
              [OrgData.mk (u "Institute") (u "I") [] (u "7700000009") (u "Тверь")
                 false None [] [informatics]]
              (Some FlaskApp) db_with_group []) as [_ H].
  - by repeat constructor.
  - apply H. split_and!; repeat constructor. by eexists.
Defined.

(** *** Who gets a parent *)

(** X13: the second pass sets [parent_id] only for a record that declares
    a head: in a completed run, when no record with the OGRN of [c] is a
    branch with a non-empty parent OGRN, the organization stored under
    that OGRN has the parent_id it had before the run, null when the run
    created it. *)
Theorem X13_no_declaration_no_parent organizations_data app db schedule c :
  let run := _populate_db organizations_data app (fresh db schedule) in
  completed run →
  c ∈ organizations_data → truthy (OrgData.ogrn c) = true →
  (∀ c', c' ∈ organizations_data → OrgData.ogrn c' = OrgData.ogrn c →
         ¬ declares_parent c') →
  ∃ j o,
    EducationalOrganization_by_ogrn (OrgData.ogrn c) (stored (snd run)) = Some j
    ∧ organizations (stored (snd run)) !! j = Some o
    ∧ EducationalOrganization.parent_id o
      = organizations db !! j ≫= EducationalOrganization.parent_id.
Proof.
  intros run [Hok Hroll] Hc Ht Hno. subst run.
  destruct organizations_data as [|x l]; [by apply elem_of_nil in Hc|].
  destruct app as [a|]; [|done].
  destruct (_populate_db (x :: l) (Some a) (fresh db schedule)) as [r s'] eqn:E.
  simpl in *. subst r.
  apply populate_completed in E
    as (rc & oc & s1 & s2 & caches & s3 & H1 & Hf1 & H2 & Hf2 & _); [|done].
  pose proof (respects_pass1_loop nobody _ _ _ _ _ H1) as (_ & _ & Hpar1 & _).
  pose proof (pass1_loop_new_parent _ _ _ _ _ H1) as Hnew1.
  apply pass1_from_fresh in H1 as (Hoc1 & Hin & _).
  simpl in Hpar1, Hnew1.
  pose proof (flush_rewritten _ _ Hf1) as Hrw1.
  assert (orgs_cached oc (session s2)) as Hoc2.
  { eapply orgs_cached_ext; [done|by apply flush_ext]. }
  assert (orgs_cached oc (session s3)) as Hoc3.
  { eapply orgs_cached_ext; [done|]. revert H2. apply (run_ext _ anyone).
    apply respects_pass2_loop. }
  destruct (Hin c Hc Ht) as [j Hj].
  pose proof (respects_pass2_branches (x :: l) oc (x :: l) (∅, ∅) ltac:(done) _ _ _ H2)
    as (_ & _ & Hpar2 & _).
  pose proof (flush_rewritten _ _ Hf2) as Hrw2.
  destruct (Hoc1 _ _ Hj) as (_ & o1 & Ho1 & _).
  destruct (Hoc2 _ _ Hj) as (_ & o2 & Ho2 & _).
  destruct (Hoc3 _ _ Hj) as (Hby3 & o3 & Ho3 & _).
  pose proof Hrw2 as (_&_&_&Hro2&_).
  destruct (Forall2_lookup_l _ _ _ _ _ Hro2 Ho3) as (o & Ho & _ & Hpo).
  exists j, o. split_and!; [|done|].
  { eapply by_ogrn_ext; [by apply rewritten_ext|done]. }
  rewrite Hpo, (Hpar2 j o2 o3); [| |done..].
  2:{ intros (c' & Hc' & Hd & Hj'). apply (Hno c' Hc'); [|done].
      by eapply cached_indices_differ. }
  rewrite (rewritten_parents nobody _ _ Hrw1 j o1 o2); [|by intros []|done..].
  destruct (organizations db !! j) as [o0|] eqn:Ej; simpl.
  - apply (Hpar1 j o0 o1); [by intros []|done..].
  - apply (Hnew1 j o1 Ho1). by apply lookup_ge_None.
Qed.

Lemma X13_no_declaration_no_parent_witness :
  ∃ j o,
    EducationalOrganization_by_ogrn (OrgData.ogrn org_A)
      (stored (snd (_populate_db [org_A; org_B] (Some FlaskApp) (fresh empty_tables []))))
    = Some j
    ∧ organizations
        (stored (snd (_populate_db [org_A; org_B] (Some FlaskApp) (fresh empty_tables []))))
        !! j = Some o
    ∧ EducationalOrganization.parent_id o
      = organizations empty_tables !! j ≫= EducationalOrganization.parent_id.
Proof.
  apply (X13_no_declaration_no_parent [org_A; org_B] (Some FlaskApp) empty_tables []
           org_A).
  - split; [by vm_compute|]. apply (bool_decide_unpack _). by vm_compute.
  - apply list_elem_of_here.
  - reflexivity.
  - intros c' [->|[->|[]%elem_of_nil]%elem_of_cons]%elem_of_cons Ho.
    + by vm_compute.
    + by vm_compute in Ho.
Defined.

(** ** The region of a new organization *)

Lemma extract_region_fst address s :
  fst (_extract_region_from_address address s) = Ok (region_from_address address).
Proof.
  unfold region_from_address, _extract_region_from_address.
  destruct (List.find _ possible_regions); [done|].
  destruct (bool_decide (1 < length (split1 comma address))); [|done].
  destruct (isdigit _ && _); [|done].
  by destruct (bool_decide (1 < length (split1 comma address))).
Qed.

(** The region that the statements of the first pass resolve for a new
    organization. *)
Lemma region_block_value rc c s region rc' s' :
  (if truthy (OrgData.region_name c)
   then region_for rc (capitalize (strip (OrgData.region_name c)))
   else
     region_name_from_addr ← _extract_region_from_address (OrgData.address c);
     match region_name_from_addr with
     | Some region_name_from_addr =>
       if truthy region_name_from_addr
       then region_for rc region_name_from_addr
       else mret (None, rc)
     | None => mret (None, rc)
     end) s = (Ok (region, rc'), s') →
  regions_cached rc (session s) →
  match expected_region c with
  | Some name => ∃ i x, region = Some i ∧ regions (session s') !! i = Some x
                        ∧ Region.name x = name
  | None => region = None
  end.
Proof.
  intros Hrun Hc. unfold expected_region.
  destruct (truthy (OrgData.region_name c)) eqn:Et.
  { by apply region_for_Ok in Hrun as [_ ?]. }
  apply bind_Ok in Hrun as (name & s1 & H1 & H2).
  assert (ext (session s) (session s1)) as Hext1.
  { revert H1. apply (run_ext _ nobody), respects_extract_region. }
  pose proof (extract_region_fst (OrgData.address c) s) as Hfst.
  rewrite H1 in Hfst. injection Hfst as <-.
  destruct name as [name|]; [|by injection H2 as <- _ _].
  destruct (truthy name); [|by injection H2 as <- _ _].
  apply region_for_Ok in H2 as [_ ?]; [done|]. by eapply regions_cached_ext.
Qed.

Lemma pass1_region rc oc c s rc' oc' s' :
  pass1 (rc, oc) c s = (Ok (rc', oc'), s') →
  regions_cached rc (session s) →
  ∀ i o, organizations (session s') !! i = Some o →
         length (organizations (session s)) ≤ i →
         region_as_resolved (session s') c o.
Proof.
  intros Hrun Hrc i o Hi Hlen. unfold pass1 in Hrun.
  destruct (truthy (OrgData.ogrn c)); simpl in Hrun.
  2:{ rewrite logging_bind in Hrun. injection Hrun as <- <- <-.
      apply lookup_lt_Some in Hi. simpl in Hi. lia. }
  destruct (oc !! OrgData.ogrn c).
  { injection Hrun as <- <- <-. apply lookup_lt_Some in Hi. lia. }
  apply bind_Ok in Hrun as (found & s1 & Hq & Hrun).
  assert (length (organizations (session s1)) = length (organizations (session s))) as Hlen1.
  { revert Hq. apply run_stay. auto with respects. }
  apply session_query_Ok in Hq as [Hfl1 ->].
  destruct (EducationalOrganization_by_ogrn (OrgData.ogrn c) (session s1)) as [j|].
  { rewrite logging_bind in Hrun. injection Hrun as <- <- <-.
    apply lookup_lt_Some in Hi. simpl in Hi. lia. }
  apply bind_Ok in Hrun as ([region rc1] & s2 & Hregion & Hrun).
  assert (regions_cached rc (session s1)) as Hrc1
    by (eapply regions_cached_ext; [done|by apply flush_ext]).
  pose proof (region_block_value _ _ _ _ _ _ Hregion Hrc1) as Hvalue.
  apply region_block_Ok in Hregion as (_ & _ & Hstay2 & _); [|done].
  apply bind_Ok in Hrun as (organization & s3 & Hadd & Hrun).
  injection Hadd as <- <-. rewrite logging_bind in Hrun.
  apply bind_Ok in Hrun as (? & s4 & Hflush & Hrun). injection Hrun as <- <- <-.
  apply session_flush_Ok in Hflush. simpl in Hflush.
  pose proof (flush_all_flushed _ _ Hflush) as Hall.
  pose proof (flush_inv _ _ Hflush) as (Hfr & _ & _ & Hfo & _). simpl in Hfr, Hfo.
  assert (i = length (organizations (session s2))) as ->.
  { apply lookup_lt_Some in Hi. apply Forall2_length in Hfo, Hstay2.
    rewrite length_app in Hfo. simpl in Hfo. lia. }
  destruct (Forall2_lookup_l _ _ _ _ _ Hfo (lookup_last_added _ _)) as (o' & Ho' & Hfa).
  assert (o' = o) as -> by congruence.
  destruct Hfa as [(_ & m & ->)|[[? Hid] _]]; [|done].
  unfold region_as_resolved. destruct (expected_region c) as [name|].
  - destruct Hvalue as (r & rg & -> & Hrg & Hrgn).
    destruct (Forall2_lookup_l _ _ _ _ _ Hfr Hrg) as (rg' & Hrg' & Hfx).
    assert (is_Some (Region.id rg')) as Hxid.
    { destruct Hall as (Hr&_). rewrite Forall_forall in Hr. apply Hr.
      by eapply list_elem_of_lookup_2. }
    exists r, rg'. split_and!; [done|done| |by simpl; rewrite Hrg'|done].
    destruct Hfx as [(_ & ? & ->)|[_ ->]]; done.
  - by subst region.
Qed.

Lemma region_as_resolved_ext t t' c o o' :
  ext t t' → EducationalOrganization_same o o' →
  is_Some (EducationalOrganization.id o) →
  region_as_resolved t c o → region_as_resolved t' c o'.
Proof.
  intros Hext Hsame Hid. unfold region_as_resolved.
  destruct (expected_region c) as [name|].
  - by apply region_named_ext.
  - destruct Hsame as (_&_&_&_&_&Hr&_&Hrid). intros [? ?].
    by rewrite Hr, (Hrid Hid).
Qed.

Lemma created_with_region_transfer organizations_data n0 t t' :
  ext t t' → length (organizations t') = length (organizations t) →
  created_with_region organizations_data n0 t →
  created_with_region organizations_data n0 t'.
Proof.
  intros Hext Hlen H i o' Hi Hn.
  destruct (lookup_lt_is_Some_2 (organizations t) i) as [o Ho].
  { apply lookup_lt_Some in Hi. lia. }
  destruct (H i o Ho Hn) as (c & Hc & Hm & Hid & Hreg).
  pose proof Hext as (_&_&_&Hexto&_).
  destruct (Hexto _ _ Ho) as (o2 & Ho2 & Hsame). assert (o2 = o') as -> by congruence.
  exists c. split_and!; [done|by eapply made_from_same| |].
  - destruct Hsame as (_&_&_&_&_&_&Hk&_). by rewrite (Hk Hid).
  - by eapply region_as_resolved_ext.
Qed.

Lemma pass1_loop_region organizations_data : ∀ rc oc s rc' oc' s',
  foldM pass1 organizations_data (rc, oc) s = (Ok (rc', oc'), s') →
  orgs_cached oc (session s) → regions_cached rc (session s) →
  created_with_region organizations_data (length (organizations (session s))) (session s').
Proof.
  induction organizations_data as [|x l IH]; intros rc oc s rc' oc' s' Hrun Hoc Hrc.
  - injection Hrun as <- <- <-. intros i o Hi Hlen. apply lookup_lt_Some in Hi. lia.
  - rewrite foldM_cons in Hrun. apply bind_Ok in Hrun as ([rc1 oc1] & s1 & Hx & Hrest).
    pose proof (respects_pass1_loop nobody l (rc1, oc1) _ _ _ Hrest) as (_ & Hext & _).
    pose proof (pass1_region _ _ _ _ _ _ _ Hx Hrc) as Hreg1.
    apply pass1_Ok in Hx as (Hoc1 & Hrc1 & _ & _ & Hnew1); [|done..].
    specialize (IH _ _ _ _ _ _ Hrest Hoc1 Hrc1).
    intros i o Hi Hlen.
    destruct (decide (length (organizations (session s1)) ≤ i)) as [Hge|Hlt].
    + destruct (IH i o Hi Hge) as (c & ? & ?). exists c. split; [|done].
      by apply list_elem_of_further.
    + destruct (lookup_lt_is_Some_2 (organizations (session s1)) i) as [o1 Ho1]; [lia|].
      destruct (Hnew1 i o1 Ho1 Hlen) as (Hm & Hid & _).
      pose proof Hext as (_&_&_&Ho&_).
      destruct (Ho _ _ Ho1) as (o2 & Ho2 & Hsame). assert (o2 = o) as -> by congruence.
      exists x. split_and!; [apply list_elem_of_here|by eapply made_from_same| |].
      * destruct Hsame as (_&_&_&_&_&_&Hk&_). by rewrite (Hk Hid).
      * eapply region_as_resolved_ext; [exact Hext|exact Hsame|exact Hid|].
        exact (Hreg1 i o1 Ho1 Hlen).
Qed.

(** X14: for an input whose region names and addresses are written in
    Basic Latin and Cyrillic U+0400..U+045F, in a completed run, every
    organization that the run created carries the values of a record of
    the input and has the region resolved for that record: the region
    named by the explicit region name, trimmed and capitalized; when the
    record has none, the region named by the non-empty answer of the
    address heuristic; and no region (a null region_id) when the heuristic
    answers nothing or the empty string. *)
Theorem X14_region_falls_back_on_the_address organizations_data app db faults :
  let run := _populate_db organizations_data app (fresh db faults) in
  modelled_input organizations_data →
  completed run →
  created_with_region organizations_data (length (organizations db)) (stored (snd run)).
Proof.
  intros run _ [Hok Hroll]. subst run.
  destruct organizations_data as [|x l].
  { simpl. intros i o Hi Hn. apply lookup_lt_Some in Hi. lia. }
  destruct app as [a|]; [|done].
  destruct (_populate_db (x :: l) (Some a) (fresh db faults)) as [r s'] eqn:E.
  simpl in *. subst r.
  apply populate_completed in E as (rc & oc & s1 & s2 & caches & s3 & H1 & Hf1 & H2 & Hf2 & _);
    [|done].
  pose proof (respects_pass2_loop _ _ _ _ _ _ H2) as (_ & Hext2 & _).
  pose proof (stay_pass2_loop _ _ _ _ _ _ H2) as Hstay2.
  apply pass1_loop_region in H1; [|apply orgs_cached_empty|apply regions_cached_empty].
  simpl in H1.
  eapply created_with_region_transfer;
    [by eapply flush_ext|by eapply flush_length_organizations|].
  eapply created_with_region_transfer;
    [exact Hext2|symmetry; by eapply Forall2_length|].
  eapply created_with_region_transfer;
    [by eapply flush_ext|by eapply flush_length_organizations|].
  exact H1.
Qed.

Lemma X14_region_falls_back_on_the_address_witness :
  created_with_region [org_A; org_C] 0
    (stored (snd (_populate_db [org_A; org_C] (Some FlaskApp) (fresh empty_tables [])))).
Proof.
  apply (X14_region_falls_back_on_the_address [org_A; org_C] (Some FlaskApp)
           empty_tables []).
  - by repeat constructor.
  - split; [by vm_compute|]. apply (bool_decide_unpack _). by vm_compute.
Defined.

(** The run of the witness: A, whose address names the Moscow region, is
    keyed to the region of that name; C, whose address has no comma, has
    no region. *)
Lemma address_fallback_run :
  let t := stored (snd (_populate_db [org_A; org_C] (Some FlaskApp)
                          (fresh empty_tables []))) in
  expected_region org_A = Some (u "Московская область")
  ∧ expected_region org_C = None
  ∧ regions t = [Region.mk (Some 1) (u "Московская область")]
  ∧ EducationalOrganization.region_id <$> organizations t = [Some 1; None].
Proof. split_and!; by vm_compute. Qed.

(** ** Programs that are skipped *)

Lemma classifiers_stay_refl s : classifiers_stay s s.
Proof. done. Qed.

Lemma classifiers_stay_trans s1 s2 s3 :
  classifiers_stay s1 s2 → classifiers_stay s2 s3 → classifiers_stay s1 s3.
Proof. unfold classifiers_stay. congruence. Qed.

Lemma classifiers_frame {B} (m : M B) :
  (∀ s r s', m s = (r, s') →
             classifier_counts (session s') = classifier_counts (session s)) →
  Respects classifiers_stay m.
Proof. intros Hm s r s' Hrun. by apply (Hm s r s'). Qed.

Lemma rewritten_classifier_counts t t' :
  rewritten t t' → classifier_counts t' = classifier_counts t.
Proof.
  intros (_ & H2 & H3 & _ & H5). unfold classifier_counts.
  by rewrite (Forall2_length _ _ _ H2), (Forall2_length _ _ _ H3), (Forall2_length _ _ _ H5).
Qed.

Lemma classifiers_logging lvl msg : Respects classifiers_stay (logging lvl msg).
Proof. apply classifiers_frame. by intros s r s' [= <- <-]. Qed.

Lemma classifiers_storage_call ev : Respects classifiers_stay (storage_call ev).
Proof.
  apply classifiers_frame. intros s r s'. unfold storage_call.
  destruct (faults s) as [|[] ?]; by intros [= <- <-].
Qed.

Lemma classifiers_autoflush : Respects classifiers_stay autoflush.
Proof.
  apply classifiers_frame. intros s r s'. unfold autoflush, set_session.
  destruct (flush (session s)) as [t|] eqn:E; intros [= <- <-]; [|done].
  by apply rewritten_classifier_counts, flush_rewritten.
Qed.

Lemma classifiers_session_flush : Respects classifiers_stay session_flush.
Proof.
  apply respects_flush_cases.
  { apply classifiers_frame. by intros s r s' [= <- <-]. }
  apply respects_bind; [apply classifiers_stay_trans|apply classifiers_storage_call|].
  intros _. apply classifiers_autoflush.
Qed.

Lemma classifiers_session_query {B} (first : Tables → option B) :
  Respects classifiers_stay (session_query first).
Proof.
  unfold session_query.
  apply respects_bind; [apply classifiers_stay_trans|apply classifiers_storage_call|intros _].
  apply respects_bind; [apply classifiers_stay_trans|apply classifiers_autoflush|intros _].
  apply respects_gets, classifiers_stay_refl.
Qed.

Lemma classifiers_attr {B C} (tbl : Tables → list B) (f : B → option C) ref :
  Respects classifiers_stay (attr tbl f ref).
Proof. apply respects_gets, classifiers_stay_refl. Qed.

Lemma classifiers_add_Region r : Respects classifiers_stay (add_Region r).
Proof. apply classifiers_frame. by intros s ? s' [= <- <-]. Qed.

Lemma classifiers_add_EducationalOrganization o :
  Respects classifiers_stay (add_EducationalOrganization o).
Proof. apply classifiers_frame. by intros s ? s' [= <- <-]. Qed.

Lemma classifiers_set_parent_id organization value :
  Respects classifiers_stay (set_parent_id organization value).
Proof. apply classifiers_frame. by intros s ? s' [= <- <-]. Qed.

#[export] Hint Resolve classifiers_stay_refl classifiers_stay_trans classifiers_logging
  classifiers_session_flush classifiers_session_query classifiers_attr
  classifiers_add_Region classifiers_add_EducationalOrganization
  classifiers_set_parent_id : respects.

Lemma classifiers_extract_region address :
  Respects classifiers_stay (_extract_region_from_address address).
Proof. unfold _extract_region_from_address. respects. Qed.

Lemma classifiers_region_for regions_cache region_name :
  Respects classifiers_stay (region_for regions_cache region_name).
Proof. unfold region_for, _get_or_create. simpl. respects. Qed.

Lemma classifiers_pass1 caches org_data : Respects classifiers_stay (pass1 caches org_data).
Proof.
  unfold pass1. respects;
    first [apply classifiers_region_for|apply classifiers_extract_region].
Qed.

Lemma classifiers_link_parent organizations_cache org_data organization :
  Respects classifiers_stay (link_parent organizations_cache org_data organization).
Proof. unfold link_parent. respects. Qed.

Lemma classifiers_load_program ogrn organization caches prog_data :
  ¬ loadable prog_data →
  Respects classifiers_stay (load_program ogrn organization caches prog_data).
Proof.
  intros Hno. unfold load_program. destruct caches as [gc sc].
  destruct (truthy (ProgData.specialty_code prog_data)) eqn:E1;
    destruct (truthy (ProgData.ugs_code prog_data)) eqn:E2; simpl;
    try (by respects).
  by destruct Hno.
Qed.

Lemma classifiers_pass2 organizations_cache caches org_data :
  Forall (λ pd, ¬ loadable pd) (OrgData.programs org_data) →
  Respects classifiers_stay (pass2 organizations_cache caches org_data).
Proof.
  intros Hno. unfold pass2.
  destruct (negb _); [by respects|].
  destruct (organizations_cache !! _); [|by respects].
  apply respects_bind; [apply classifiers_stay_trans|apply classifiers_link_parent|].
  intros _. apply respects_foldM_in;
    [apply classifiers_stay_refl|apply classifiers_stay_trans|].
  intros b pd Hpd. apply classifiers_load_program.
  rewrite Forall_forall in Hno. by apply Hno.
Qed.

(** X15: a program that lacks its code or its group code is skipped and
    creates nothing: when every program of every record lacks one of the
    two, the run, whatever its outcome, adds no SpecialtyGroup, no
    Specialty and no EducationalProgram row. *)
Theorem X15_programs_without_codes_create_nothing organizations_data app db faults :
  let run := _populate_db organizations_data app (fresh db faults) in
  Forall (λ c, Forall (λ pd, ¬ loadable pd) (OrgData.programs c)) organizations_data →
  classifier_counts (stored (snd run)) = classifier_counts db.
Proof.
  intros run Hno. subst run.
  destruct organizations_data as [|x l]; [done|].
  destruct app as [a|]; [|done].
  destruct (run_outcomes x l a db faults) as [->|[E|E]]; [done| |].
  - by apply rewritten_classifier_counts, flush_rewritten.
  - destruct E as (rc & oc & s1 & s2 & caches & s3 & H1 & Hf1 & H2 & Hf2).
    assert (classifiers_stay (logged INFO MsgPass1Start (entered (fresh db faults))) s1)
      as Hs1.
    { revert H1. apply respects_foldM;
        [apply classifiers_stay_refl|apply classifiers_stay_trans|].
      intros. apply classifiers_pass1. }
    assert (classifiers_stay s2 s3) as Hs3.
    { revert H2. apply respects_foldM_in;
        [apply classifiers_stay_refl|apply classifiers_stay_trans|].
      intros b c Hc. apply classifiers_pass2.
      rewrite Forall_forall in Hno. by apply Hno. }
    rewrite (rewritten_classifier_counts _ _ (flush_rewritten _ _ Hf2)), Hs3.
    by rewrite (rewritten_classifier_counts _ _ (flush_rewritten _ _ Hf1)), Hs1.
Qed.

Lemma X15_programs_without_codes_create_nothing_witness :
  classifier_counts
    (stored (snd (_populate_db
       [OrgData.mk (u "Institute") (u "I") (u "1027700000005") (u "7700000005")
          (u "Тверь") false None []
          [ProgData.mk (u "09.03.01") (u "Informatics") [] []]]
       (Some FlaskApp) (fresh empty_tables []))))
  = classifier_counts empty_tables.
Proof.
  apply (X15_programs_without_codes_create_nothing
           [OrgData.mk (u "Institute") (u "I") (u "1027700000005") (u "7700000005")
              (u "Тверь") false None []
              [ProgData.mk (u "09.03.01") (u "Informatics") [] []]]
           (Some FlaskApp) empty_tables []).
  repeat constructor. by intros [_ ?].
Defined.

(** ** Organizations that the database holds *)

(** X16: the first pass creates no organization for an OGRN that the
    database holds: on a database whose rows all have their key and that
    holds an organization for every OGRN of the input, the run, whatever
    its outcome, adds no EducationalOrganization row. *)
Theorem X16_known_organizations_are_not_duplicated organizations_data app db faults :
  let run := _populate_db organizations_data app (fresh db faults) in
  all_flushed db →
  (∀ c, c ∈ organizations_data → truthy (OrgData.ogrn c) = true →
        is_Some (EducationalOrganization_by_ogrn (OrgData.ogrn c) db)) →
  length (organizations (stored (snd run))) = length (organizations db).
Proof.
  intros run Hall Hheld. subst run.
  destruct organizations_data as [|x l]; [done|].
  destruct app as [a|]; [|done].
  destruct (run_outcomes x l a db faults) as [->|[E|E]]; [done| |].
  - by apply flush_length_organizations.
  - destruct E as (rc & oc & s1 & s2 & caches & s3 & H1 & Hf1 & H2 & Hf2).
    eapply (pass1_loop_quiet db ∅ ∅) in H1 as (Hs1 & _);
      [|done|apply quiet_refl|done|].
    2:{ split_and!; intros k i Hk; by rewrite lookup_empty in Hk. }
    simpl in Hs1. rewrite Hs1, (flush_id _ Hall) in Hf1. injection Hf1 as Hs2.
    pose proof (stay_pass2_loop _ _ _ _ _ _ H2) as Hstay.
    rewrite (flush_length_organizations _ _ Hf2), <- (Forall2_length _ _ _ Hstay).
    by rewrite <- Hs2.
Qed.

Lemma X16_known_organizations_are_not_duplicated_witness :
  length (organizations
            (stored (snd (_populate_db [org_A; org_B; org_A] (Some FlaskApp)
                            (fresh db_with_A_B [])))))
  = length (organizations db_with_A_B).
Proof.
  apply (X16_known_organizations_are_not_duplicated [org_A; org_B; org_A]
           (Some FlaskApp) db_with_A_B []).
  - split_and!; repeat constructor; by eexists.
  - intros c Hc _. revert c Hc. apply Forall_forall.
    do 3 (apply Forall_cons_2; [vm_compute; by eexists|]). apply Forall_nil_2.
Defined.

(** ** The update cycle *)

Section UpdaterFacts.
Context {World Response : Type} `{!Platform World Response}.

Lemma io_bind_eq {A B} (m : IO World A) (f : A → IO World B) env :
  (m ≫= f) env
  = match m env with (Done a, env') => f a env' | (Failed e, env') => (Failed e, env') end.
Proof. reflexivity. Qed.

Lemma io_bind_Done {A B} (m : IO World A) (f : A → IO World B) env a env' :
  m env = (Done a, env') → (m ≫= f) env = f a env'.
Proof. intros E. by rewrite io_bind_eq, E. Qed.


Lemma loader_untouched_refl (env : Env World) : loader_untouched env env.
Proof. split_and!; [done..|by exists []|by exists []]. Qed.

Lemma loader_untouched_trans (e1 e2 e3 : Env World) :
  loader_untouched e1 e2 → loader_untouched e2 e3 → loader_untouched e1 e3.
Proof.
  intros (?&?&(r1&Hr1)&(c1&Hc1)) (?&?&(r2&Hr2)&(c2&Hc2)).
  split_and!; [congruence..| |].
  - exists (r2 ++ r1). by rewrite Hr2, Hr1, app_assoc.
  - exists (c2 ++ c1). by rewrite Hc2, Hc1, app_assoc.
Qed.

Lemma notify_run lvl n (env : Env World) :
  ∃ env', notify lvl n env = (Done (), env') ∧ loader_untouched env env'
          ∧ world env' = world env ∧ syscalls env' = syscalls env
          ∧ notices env' = mkNotice lvl n :: notices env.
Proof.
  exists (mkEnv (world env) (loader_state env) (mkNotice lvl n :: notices env)
            (syscalls env) (echoed env)).
  split; [reflexivity|]. split_and!; try done.
  split_and!; [done..|by exists [mkNotice lvl n]|by exists []].
Qed.

Lemma syscall_run {A} call (run : World → Outcome LibExn A * World) (env : Env World) :
  ∃ env', syscalls env' = call :: syscalls env ∧ notices env' = notices env
          ∧ loader_untouched env env'
          ∧ world env' = snd (run (world env))
          ∧ syscall call run env
            = (match fst (run (world env)) with
               | Done a => Done a
               | Failed e => Failed (LibraryError e)
               end, env').
Proof.
  unfold syscall. destruct (run (world env)) as [r w].
  exists (mkEnv w (loader_state env) (notices env) (call :: syscalls env) (echoed env)).
  split_and!; try done.
  split_and!; [done..|by exists []|by exists [call]].
Qed.


Lemma notify_eq lvl n (env : Env World) : notify lvl n env = (Done (), noted lvl n env).
Proof. reflexivity. Qed.

Lemma notify_bind {B} lvl n (f : () → IO World B) env :
  (notify lvl n ≫= f) env = f () (noted lvl n env).
Proof. reflexivity. Qed.

Lemma noted_untouched lvl n (env : Env World) : loader_untouched env (noted lvl n env).
Proof. split_and!; [done..|by exists [mkNotice lvl n]|by exists []]. Qed.

(** What a step leaves of the calls: those it made, on top of the
    earlier ones. *)
Lemma untouched_calls (env env' : Env World) c :
  loader_untouched env env' → c ∈ syscalls env → c ∈ syscalls env'.
Proof. intros (_&_&_&calls&->) Hc. apply elem_of_app. by right. Qed.

(** *** The steps of [run_update] *)

Lemma check_for_updates_run self (env : Env World) :
  ∃ needed env',
    _check_for_updates self env = (Done needed, env')
    ∧ loader_untouched env env' ∧ world env' = world env
    ∧ syscalls env' = syscalls env
    ∧ (needed = true ↔ url_configured self).
Proof.
  unfold _check_for_updates, url_configured. rewrite notify_bind.
  destruct (truthy (data_url self)); simpl.
  - case_bool_decide as Hp.
    + eexists false, _. split; [reflexivity|]. split_and!; try done.
      * eapply loader_untouched_trans; apply noted_untouched.
      * split; [done|]. by intros [_ ?].
    + eexists true, _. split; [reflexivity|]. split_and!; try done.
      eapply loader_untouched_trans; apply noted_untouched.
  - eexists false, _. split; [reflexivity|]. split_and!; try done.
    + eapply loader_untouched_trans; apply noted_untouched.
    + split; [done|]. by intros [? _].
Qed.

Lemma get_filename_run self (env : Env World) :
  url_parses self →
  ∃ env',
    _get_filename_from_url self env = (Done (archive_filename self), env')
    ∧ loader_untouched env env' ∧ world env' = world env
    ∧ syscalls env' = syscalls env
    ∧ truthy (archive_filename self) = true.
Proof.
  intros [path Hpath].
  unfold _get_filename_from_url, archive_filename. rewrite io_bind_eq.
  unfold library_call at 1. rewrite Hpath. cbv iota beta.
  destruct (truthy (os_path_basename path)) eqn:E; simpl.
  - exists env. split_and!; try done. apply loader_untouched_refl.
  - eexists. split; [reflexivity|]. split_and!; try done. apply noted_untouched.
Qed.


Lemma download_run self path (env : Env World) :
  ∃ downloaded env',
    _download_data self path env = (Done downloaded, env')
    ∧ loader_untouched env env'
    ∧ (∃ calls, syscalls env' = calls ++ syscalls env
                ∧ forallb download_call calls = true)
    ∧ (downloaded = true ↔ download_succeeds self path (world env) (world env'))
    ∧ (downloaded = false → ∃ n, head (notices env') = Some (mkNotice ERROR n)).
Proof.
  unfold _download_data, download_succeeds. rewrite notify_bind.
  unfold try_catch. rewrite io_bind_eq. unfold syscall at 1. simpl.
  destruct (requests_get (data_url self) (world env)) as [[response|e] w1] eqn:E1.
  2:{ simpl. destruct e; eexists false, _; (split; [reflexivity|]); simpl;
        (split_and!;
         [split_and!; [done..|by eexists [_; _]|by eexists [_]]
         |by eexists [_]
         |split; [done|]; by intros (?&?&?&?&_)
         |eauto]). }
  rewrite io_bind_eq. unfold syscall at 1. simpl.
  destruct (raise_for_status response w1) as [[[]|e] w2] eqn:E2.
  2:{ simpl. destruct e; eexists false, _; (split; [reflexivity|]); simpl;
        (split_and!;
         [split_and!; [done..|by eexists [_; _]|by eexists [_; _]]
         |by eexists [_; _]
         |split; [done|]; intros (?&?&?&?&?&_); simplify_eq; congruence
         |eauto]). }
  rewrite io_bind_eq. unfold syscall at 1. simpl.
  destruct (write_response path response w2) as [[[]|e] w3] eqn:E3.
  2:{ simpl. destruct e; eexists false, _; (split; [reflexivity|]); simpl;
        (split_and!;
         [split_and!; [done..|by eexists [_; _]|by eexists [_; _; _]]
         |by eexists [_; _; _]
         |split; [done|]; intros (?&?&?&?&?&?); simplify_eq; congruence
         |eauto]). }
  simpl. eexists true, _. split; [reflexivity|]. simpl. split_and!.
  - split_and!; [done..|by eexists [_; _]|by eexists [_; _; _]].
  - by eexists [_; _; _].
  - split; [|done]. intros _. eauto 10.
  - done.
Qed.

Lemma unpack_run self path (env : Env World) :
  ∃ unpacked env',
    _unpack_archive self path env = (Done unpacked, env')
    ∧ loader_untouched env env'
    ∧ (unpacked = true ↔ unpack_succeeds self path (world env) (world env'))
    ∧ (unpacked = false → ∃ n, head (notices env') = Some (mkNotice ERROR n)).
Proof.
  unfold _unpack_archive, unpack_succeeds. rewrite notify_bind.
  unfold try_catch. rewrite io_bind_eq. unfold syscall at 1. simpl.
  destruct (zipfile_is_zipfile path (world env)) as [[[]|e] w1] eqn:E1; simpl.
  - rewrite io_bind_eq. unfold syscall at 1. simpl.
    destruct (zipfile_extractall path (cache_path self) w1) as [[[]|e] w2] eqn:E2; simpl.
    + eexists true, _. split; [reflexivity|]. simpl. split_and!.
      * split_and!; [done..|by eexists [_; _]|by eexists [_; _]].
      * split; [|done]. intros _. eauto.
      * done.
    + destruct e; eexists false, _; (split; [reflexivity|]); simpl;
        (split_and!;
         [split_and!; [done..|by eexists [_; _]|by eexists [_; _]]
         |split; [done|]; intros (?&?&?); simplify_eq; congruence
         |eauto]).
  - eexists false, _. split; [reflexivity|]. simpl. split_and!.
    + split_and!; [done..|by eexists [_; _]|by eexists [_]].
    + split; [done|]. by intros (?&?&_).
    + eauto.
  - destruct e; eexists false, _; (split; [reflexivity|]); simpl;
      (split_and!;
       [split_and!; [done..|by eexists [_; _]|by eexists [_]]
       |split; [done|]; by intros (?&?&_)
       |eauto]).
Qed.


Lemma remove_file_run removed not_removed lvl path (env : Env World) :
  ∃ r env',
    remove_file removed not_removed lvl path env = (r, env')
    ∧ loader_untouched env env'
    ∧ Remove path ∈ syscalls env'
    ∧ world env' = snd (os_remove path (world env))
    ∧ match r with
      | Done _ => True
      | Failed e => ∃ e' w', e = LibraryError e' ∧ is_OSError e' = false
                             ∧ os_remove path (world env) = (Failed e', w')
      end.
Proof.
  unfold remove_file, try_catch. rewrite io_bind_eq. unfold syscall at 1. simpl.
  destruct (os_remove path (world env)) as [[[]|e] w1] eqn:E1; simpl.
  - eexists (Done ()), _. split; [reflexivity|]. simpl.
    split_and!; [|apply list_elem_of_here|done|done].
    split_and!; [done..|by eexists [_]|by eexists [_]].
  - destruct (is_OSError e) eqn:Eo.
    + eexists (Done ()), _. split; [reflexivity|]. simpl.
      split_and!; [|apply list_elem_of_here|done|done].
      split_and!; [done..|by eexists [_]|by eexists [_]].
    + eexists (Failed _), _. split; [reflexivity|]. simpl.
      split_and!; [|apply list_elem_of_here|done|by eauto].
      split_and!; [done..|by eexists []|by eexists [_]].
Qed.

Lemma remove_files_run removed not_removed lvl paths : ∀ env : Env World,
  ∃ r env',
    for_each (remove_file removed not_removed lvl) paths env = (r, env')
    ∧ loader_untouched env env'
    ∧ match r with
      | Done _ => (∀ path, path ∈ paths → Remove path ∈ syscalls env')
                  ∧ world env' = after_removals paths (world env)
      | Failed e => ∃ e', e = LibraryError e' ∧ is_OSError e' = false
                          ∧ ¬ remove_raises_OSError
      end.
Proof.
  induction paths as [|path paths IH]; intros env.
  - exists (Done ()), env. split; [done|]. split; [apply loader_untouched_refl|].
    split; [|done]. intros path Hp. by apply elem_of_nil in Hp.
  - destruct (remove_file_run removed not_removed lvl path env)
      as (r1 & env1 & E1 & U1 & Hc1 & Hw1 & Hr1).
    cbn [for_each]. rewrite io_bind_eq, E1. destruct r1 as [[]|e].
    + destruct (IH env1) as (r & env' & E & U & Hr). exists r, env'.
      split; [done|]. split; [by eapply loader_untouched_trans|].
      destruct r as [[]|e]; [|done]. destruct Hr as [Hr Hw]. split.
      * intros p [->|Hp]%elem_of_cons; [|by apply Hr].
        by eapply untouched_calls.
      * rewrite Hw, Hw1. done.
    + exists (Failed e), env1. split; [done|]. split; [done|].
      destruct Hr1 as (e' & w' & -> & Ho & Hrm). exists e'. split_and!; [done..|].
      intros Hall. by rewrite (Hall _ _ _ _ Hrm) in Ho.
Qed.

Lemma glob_xml_run self (env : Env World) :
  ∃ env', glob_xml self env = (Done (xml_files_in (cache_path self) (world env)), env')
          ∧ loader_untouched env env' ∧ world env' = world env
          ∧ syscalls env' = Glob (cache_path self) :: syscalls env.
Proof.
  eexists. split; [reflexivity|]. split_and!; try done.
  split_and!; [done..|by exists []|by eexists [_]].
Qed.


Lemma update_without_url self app (env : Env World) :
  ¬ url_configured self →
  run_update self app env
  = (Done (),
     noted INFO NoticeUpdateNotNeeded
       (noted WARNING NoticeUrlNotConfigured
          (noted INFO NoticeCheckForUpdates (noted INFO NoticeUpdateStart env)))).
Proof.
  intros Hno. unfold run_update, _check_for_updates.
  assert (negb (truthy (data_url self)) || bool_decide (data_url self = url_placeholder)
          = true) as Hc.
  { destruct (truthy (data_url self)) eqn:Et; [|done]. simpl.
    apply bool_decide_eq_true_2. destruct (decide (data_url self = url_placeholder)); [done|].
    destruct Hno. by split. }
  rewrite notify_bind, io_bind_eq, notify_bind, Hc. reflexivity.
Qed.

(** X17: without a configured URL (empty, or the placeholder),
    [run_update] returns at once: it logs four records, calls nothing
    outside the program and leaves the world, the session and the
    database as they were. *)
Theorem X17_update_needs_a_url self app (env : Env World) :
  ¬ url_configured self →
  run_update self app env
  = (Done (),
     noted INFO NoticeUpdateNotNeeded
       (noted WARNING NoticeUrlNotConfigured
          (noted INFO NoticeCheckForUpdates (noted INFO NoticeUpdateStart env)))).
Proof. apply update_without_url. Qed.

(** X18: [_download_data] and [_unpack_archive] never raise: whatever a
    library call raises, they log an error and return [False].  They
    return [True] exactly when every call succeeded (the request, the
    status check and the writing of the file; the ZIP check answering yes
    and the extraction), and they touch neither the session nor the
    database. *)
Theorem X18_download_and_unpack_never_raise self path (env : Env World) :
  (∃ downloaded env',
     _download_data self path env = (Done downloaded, env')
     ∧ loader_untouched env env'
     ∧ (downloaded = true ↔ download_succeeds self path (world env) (world env'))
     ∧ (downloaded = false ↔ ∃ n, head (notices env') = Some (mkNotice ERROR n)))
  ∧ (∃ unpacked env',
       _unpack_archive self path env = (Done unpacked, env')
       ∧ loader_untouched env env'
       ∧ (unpacked = true ↔ unpack_succeeds self path (world env) (world env'))
       ∧ (unpacked = false ↔ ∃ n, head (notices env') = Some (mkNotice ERROR n))).
Proof.
  split.
  - destruct (download_run self path env) as (d & env' & E & U & _ & Hd & He).
    exists d, env'. split_and!; [done..|]. split; [done|].
    intros [n Hn]. destruct d; [|done]. exfalso. revert E Hn.
    unfold _download_data. rewrite notify_bind. unfold try_catch.
    rewrite io_bind_eq. unfold syscall at 1. simpl.
    destruct (requests_get (data_url self) (world env)) as [[response|[]] w1]; simpl;
      try (by intros E' Hn'; simplify_eq).
    rewrite io_bind_eq. unfold syscall at 1. simpl.
    destruct (raise_for_status response w1) as [[[]|[]] w2]; simpl;
      try (by intros E' Hn'; simplify_eq).
    rewrite io_bind_eq. unfold syscall at 1. simpl.
    destruct (write_response path response w2) as [[[]|[]] w3]; simpl;
      intros E' Hn'; simplify_eq; simpl in Hn'; by simplify_eq.
  - destruct (unpack_run self path env) as (b & env' & E & U & Hb & He).
    exists b, env'. split_and!; [done..|]. split; [done|].
    intros [n Hn]. destruct b; [|done]. exfalso. revert E Hn.
    unfold _unpack_archive. rewrite notify_bind. unfold try_catch.
    rewrite io_bind_eq. unfold syscall at 1. simpl.
    destruct (zipfile_is_zipfile path (world env)) as [[[]|[]] w1]; simpl;
      try (by intros E' Hn'; simplify_eq).
    rewrite io_bind_eq. unfold syscall at 1. simpl.
    destruct (zipfile_extractall path (cache_path self) w1) as [[[]|[]] w2]; simpl;
      intros E' Hn'; simplify_eq; simpl in Hn'; by simplify_eq.
Qed.


Lemma download_run_ok self path (env : Env World) w1 :
  download_succeeds self path (world env) w1 →
  ∃ env', _download_data self path env = (Done true, env') ∧ world env' = w1.
Proof.
  intros (response & wa & wb & Ha & Hb & Hc).
  unfold _download_data. rewrite notify_bind. unfold try_catch.
  rewrite io_bind_eq. unfold syscall at 1. simpl. rewrite Ha.
  rewrite io_bind_eq. unfold syscall at 1. simpl. rewrite Hb.
  rewrite io_bind_eq. unfold syscall at 1. simpl. rewrite Hc.
  eexists. split; [reflexivity|done].
Qed.

(** [run_update], once the URL is known to be configured: the download,
    and what follows it. *)
Lemma run_update_configured self app (env : Env World) :
  url_configured self → url_parses self →
  ∃ downloaded env3,
    loader_untouched env env3
    ∧ (∃ calls, syscalls env3 = calls ++ syscalls env
                ∧ forallb download_call calls = true)
    ∧ ((downloaded = true →
        download_succeeds self (archive_path self) (world env) (world env3))
       ∧ (∀ w', download_succeeds self (archive_path self) (world env) w' →
                downloaded = true ∧ world env3 = w'))
    ∧ run_update self app env
      = (if negb downloaded then notify ERROR NoticeDownloadFailed
         else
           unpacked ←
             (if endswith (u ".zip") (lower (archive_filename self)) then
                notify INFO NoticeRemovingOldFiles;;
                existing_xml_files ← glob_xml self;
                for_each (remove_file NoticeOldFileRemoved NoticeOldFileNotRemoved DEBUG)
                  (xml_file_path <$> existing_xml_files);;
                unpacked ← _unpack_archive self (archive_path self);
                if negb unpacked then
                  notify ERROR NoticeUnpackFailed;;
                  mret false
                else
                  remove_file NoticeArchiveRemoved NoticeArchiveNotRemoved INFO
                    (archive_path self);;
                  mret true
              else
                notify WARNING (NoticeNotAnArchive (archive_filename self));;
                mret true);
           if negb unpacked then mret ()
           else
             xml_files ← glob_xml self;
             parsed_data ← lift (_parse_xml_files xml_files);
             match parsed_data with
             | [] => notify WARNING NoticeNothingParsed
             | _ => lift (_populate_db parsed_data app)
             end;;
             notify INFO NoticeUpdateDone) env3.
Proof.
  intros Hurl Hparses. unfold run_update. rewrite notify_bind.
  destruct (check_for_updates_run self (noted INFO NoticeUpdateStart env))
    as (needed & env1 & E1 & U1 & W1 & C1 & Hn).
  rewrite (io_bind_Done _ _ _ _ _ E1).
  assert (needed = true) as -> by (by apply Hn). cbn [negb].
  destruct (get_filename_run self env1 Hparses) as (env2 & E2 & U2 & W2 & C2 & Ht).
  rewrite (io_bind_Done _ _ _ _ _ E2), Ht. cbn [negb]. fold (archive_path self).
  destruct (download_run self (archive_path self) env2)
    as (downloaded & env3 & E3 & U3 & (calls & C3 & Hcalls) & Hd & _).
  rewrite (io_bind_Done _ _ _ _ _ E3).
  exists downloaded, env3. split_and!.
  - eapply loader_untouched_trans; [apply noted_untouched|].
    eapply loader_untouched_trans; [exact U1|].
    eapply loader_untouched_trans; [exact U2|exact U3].
  - exists calls. split; [|done]. by rewrite C3, C2, C1.
  - rewrite W2, W1 in Hd. exact (proj1 Hd).
  - intros w' Hw'.
    assert (world env2 = world env) as W by (by rewrite W2, W1).
    rewrite <- W in Hw'.
    destruct (download_run_ok self (archive_path self) env2 w' Hw') as (env' & E' & <-).
    rewrite E3 in E'. by injection E' as -> ->.
  - done.
Qed.




(** *** Relations that every statement of the cycle respects *)

Section IoRespects.
Context (R : Env World → Env World → Prop).
Hypothesis R_refl : ∀ env, R env env.
Hypothesis R_trans : ∀ e1 e2 e3, R e1 e2 → R e2 e3 → R e1 e3.
Hypothesis R_noted : ∀ lvl n env, R env (noted lvl n env).
Hypothesis R_called : ∀ call w env, R env (called call w env).
Hypothesis R_loaded : ∀ s env, R env (loaded_to s env).

Lemma io_respects_bind {A B} (m : IO World A) (f : A → IO World B) :
  io_respects R m → (∀ a, io_respects R (f a)) → io_respects R (m ≫= f).
Proof using R_trans.
  intros Hm Hf env r env'. rewrite io_bind_eq.
  destruct (m env) as [[a|e] env1] eqn:E.
  - intros Hfa. eapply R_trans; [by apply (Hm _ _ _ E)|by apply (Hf a _ _ _ Hfa)].
  - intros [= <- <-]. by apply (Hm _ _ _ E).
Qed.

Lemma io_respects_ret {A} (a : A) : io_respects R (mret a : IO World A).
Proof using R_refl. intros env r env' [= <- <-]. apply R_refl. Qed.

Lemma io_respects_notify lvl n : io_respects R (notify lvl n : IO World ()).
Proof using R_noted. intros env r env' [= <- <-]. apply R_noted. Qed.

Lemma io_respects_syscall {A} call (run : World → Outcome LibExn A * World) :
  io_respects R (syscall call run).
Proof using R_called.
  intros env r env'. unfold syscall. destruct (run (world env)) as [x w].
  intros [= <- <-]. apply R_called.
Qed.

Lemma io_respects_lift {A} (m : M A) : io_respects R (lift m : IO World A).
Proof using R_loaded.
  intros env r env'. unfold lift. destruct (m (loader_state env)) as [x s].
  intros [= <- <-]. apply R_loaded.
Qed.

Lemma io_respects_library_call {A} (r : Outcome LibExn A) :
  io_respects R (library_call r : IO World A).
Proof using R_refl. intros env r' env' [= <- <-]. apply R_refl. Qed.

Lemma io_respects_glob self : io_respects R (glob_xml self).
Proof using R_called. intros env r env' [= <- <-]. apply R_called. Qed.

Lemma io_respects_try_catch {A} caught (body : IO World A) handler :
  io_respects R body → (∀ e, io_respects R (handler e)) →
  io_respects R (try_catch caught body handler).
Proof using R_trans.
  intros Hb Hh env r env'. unfold try_catch.
  destruct (body env) as [[a|e] env1] eqn:E.
  - intros [= <- <-]. by apply (Hb _ _ _ E).
  - destruct (caught e).
    + intros Hr. eapply R_trans; [by apply (Hb _ _ _ E)|by apply (Hh e _ _ _ Hr)].
    + intros [= <- <-]. by apply (Hb _ _ _ E).
Qed.

Lemma io_respects_for_each {A} (body : A → IO World ()) l :
  (∀ x, io_respects R (body x)) → io_respects R (for_each body l).
Proof using R_refl R_trans.
  intros Hb. induction l as [|x l IH]; simpl.
  - apply io_respects_ret.
  - apply io_respects_bind; [apply Hb|]. intros _. apply IH.
Qed.

End IoRespects.

Ltac io_respects :=
  repeat first
    [ apply io_respects_bind; [solve [auto]| |intros ?]
    | apply io_respects_ret; solve [auto]
    | apply io_respects_notify; solve [auto]
    | apply io_respects_syscall; solve [auto]
    | apply io_respects_lift; solve [auto]
    | apply io_respects_glob; solve [auto]
    | apply io_respects_library_call; solve [auto]
    | apply io_respects_try_catch; [solve [auto]| |intros ?]
    | apply io_respects_for_each; [solve [auto]|solve [auto]|intros ?]
    | match goal with
      | |- io_respects _ (match ?x with _ => _ end) => destruct x
      | |- io_respects _ (if ?x then _ else _) => destruct x
      end ].

Lemma same_echo_refl (env : Env World) : same_echo env env.
Proof. done. Qed.

Lemma same_echo_trans (e1 e2 e3 : Env World) :
  same_echo e1 e2 → same_echo e2 e3 → same_echo e1 e3.
Proof. unfold same_echo. congruence. Qed.

Lemma calls_grow_refl (env : Env World) : calls_grow env env.
Proof. by exists []. Qed.

Lemma calls_grow_trans (e1 e2 e3 : Env World) :
  calls_grow e1 e2 → calls_grow e2 e3 → calls_grow e1 e3.
Proof. intros [c1 H1] [c2 H2]. exists (c2 ++ c1). by rewrite H2, H1, app_assoc. Qed.

Lemma calls_grow_called call w (env : Env World) : calls_grow env (called call w env).
Proof. by exists [call]. Qed.

Lemma calls_grow_elem (env env' : Env World) c :
  calls_grow env env' → c ∈ syscalls env → c ∈ syscalls env'.
Proof. intros [calls ->] Hc. apply elem_of_app. by right. Qed.

Lemma same_echo_run_update self app : io_respects same_echo (run_update self app).
Proof.
  pose proof same_echo_refl. pose proof same_echo_trans.
  assert (∀ lvl n (env : Env World), same_echo env (noted lvl n env)) by done.
  assert (∀ call w (env : Env World), same_echo env (called call w env)) by done.
  assert (∀ s (env : Env World), same_echo env (loaded_to s env)) by done.
  unfold run_update, _check_for_updates, _get_filename_from_url, _download_data,
    _unpack_archive, remove_file.
  io_respects.
Qed.


(** *** Failures before the parsing *)

(** X20: when the URL is configured and accepted by [urlparse], and the
    download fails (the request, the status check or the writing of the
    file raises), [run_update] logs the failure and returns normally,
    having made no call but those of the download: it removes no file,
    unpacks and parses nothing, and leaves the session and the database
    untouched. *)
Theorem X20_failed_download_stops_the_update self app (env : Env World) :
  url_configured self → url_parses self →
  (∀ w', ¬ download_succeeds self (archive_path self) (world env) w') →
  ∃ env',
    run_update self app env = (Done (), env')
    ∧ loader_state env' = loader_state env ∧ echoed env' = echoed env
    ∧ head (notices env') = Some (mkNotice ERROR NoticeDownloadFailed)
    ∧ ∃ calls, syscalls env' = calls ++ syscalls env
               ∧ forallb download_call calls = true.
Proof.
  intros Hurl Hparses Hfail.
  destruct (run_update_configured self app env Hurl Hparses)
    as (downloaded & env3 & U3 & Hcalls & Hd & ->).
  destruct downloaded.
  { destruct (Hfail (world env3)). by apply (proj1 Hd). }
  cbn [negb]. rewrite notify_eq. eexists. split; [reflexivity|].
  destruct U3 as (? & ? & _). by split_and!.
Qed.

(** X21: when [urlparse] accepts the URL, the archive just downloaded is
    named [*.zip] (whatever the case of its letters) and [os.remove]
    raises nothing but [OSError],
    [run_update] calls [os.remove] on every XML file that the cache holds
    after the download, and only then unpacks the archive, in the world
    that these calls leave.  So when the archive cannot be unpacked there,
    the calls on the old files are made all the same, [run_update] logs
    the failure and returns, nothing is parsed, and the session and the
    database are untouched. *)
Theorem X21_old_files_go_before_the_unpacking self app (env : Env World) w1 :
  url_configured self → url_parses self →
  download_succeeds self (archive_path self) (world env) w1 →
  endswith (u ".zip") (lower (archive_filename self)) = true →
  remove_raises_OSError →
  let run := run_update self app env in
  let old_files := xml_file_path <$> xml_files_in (cache_path self) w1 in
  (∀ path, path ∈ old_files → Remove path ∈ syscalls (snd run))
  ∧ ((∀ w', ¬ unpack_succeeds self (archive_path self) (after_removals old_files w1) w') →
     fst run = Done ()
     ∧ loader_state (snd run) = loader_state env
     ∧ head (notices (snd run)) = Some (mkNotice ERROR NoticeUnpackFailed)).
Proof.
  intros Hurl Hparses Hdown Hzip Hrm run old_files. subst run old_files.
  destruct (run_update_configured self app env Hurl Hparses)
    as (downloaded & env3 & U3 & _ & [_ Hd] & ->).
  destruct (Hd w1 Hdown) as [-> <-]. cbn [negb]. rewrite Hzip.
  rewrite io_bind_eq, notify_bind.
  destruct (glob_xml_run self (noted INFO NoticeRemovingOldFiles env3))
    as (env4 & E4 & U4 & W4 & _).
  rewrite (io_bind_Done _ _ _ _ _ E4).
  destruct (remove_files_run NoticeOldFileRemoved NoticeOldFileNotRemoved DEBUG
              (xml_file_path <$> xml_files_in (cache_path self)
                 (world (noted INFO NoticeRemovingOldFiles env3))) env4)
    as (r5 & env5 & E5 & U5 & Hr5).
  rewrite io_bind_eq, E5. destruct r5 as [[]|e].
  2:{ by destruct Hr5 as (e' & _ & _ & []). }
  destruct Hr5 as [Hcalls W5]. rewrite W4 in W5. simpl in Hcalls, W5.
  assert (loader_untouched env env5) as U05.
  { eapply loader_untouched_trans; [exact U3|].
    eapply loader_untouched_trans; [apply noted_untouched|].
    eapply loader_untouched_trans; [exact U4|exact U5]. }
  destruct (unpack_run self (archive_path self) env5)
    as (unpacked & env6 & E6 & U6 & Hu & _).
  rewrite (io_bind_Done _ _ _ _ _ E6).
  assert (io_respects calls_grow
            (xml_files ← glob_xml self;
             parsed_data ← lift (_parse_xml_files xml_files);
             match parsed_data with
             | [] => notify WARNING NoticeNothingParsed
             | _ => lift (_populate_db parsed_data app)
             end;;
             notify INFO NoticeUpdateDone)) as Hgrow.
  { pose proof calls_grow_refl. pose proof calls_grow_trans.
    assert (∀ lvl n (env : Env World), calls_grow env (noted lvl n env))
      by (intros; by exists []).
    pose proof calls_grow_called.
    assert (∀ s (env : Env World), calls_grow env (loaded_to s env))
      by (intros; by exists []).
    io_respects. }
  destruct unpacked; cbn [negb].
  - split.
    2:{ intros Hfail. destruct (Hfail (world env6)). rewrite <- W5. by apply Hu. }
    intros path Hp.
    assert (Remove path ∈ syscalls env6) as H6
      by (eapply untouched_calls; [exact U6|by apply Hcalls]).
    destruct (remove_file_run NoticeArchiveRemoved NoticeArchiveNotRemoved INFO
                (archive_path self) env6) as (r7 & env7 & E7 & U7 & _).
    rewrite io_bind_eq, E7.
    assert (Remove path ∈ syscalls env7) as H7
      by (eapply untouched_calls; [exact U7|done]).
    destruct r7 as [[]|e]; [|done].
    cbn [mret IO_ret negb]. eapply calls_grow_elem; [|exact H7].
    eapply Hgrow. apply surjective_pairing.
  - rewrite notify_bind. cbn [mret IO_ret negb]. simpl. split.
    + intros path Hp. eapply untouched_calls; [exact U6|by apply Hcalls].
    + intros _. split_and!; [done| |done].
      destruct U6 as (-> & _). by destruct U05 as (-> & _).
Qed.

(** X22: [load_data_command] raises only what the constructor of the
    loader raises, and then it has written its first line alone.  Once
    the loader is built the command returns whatever [run_update] does:
    the update writes no line itself, and the command ends with the line
    of success when the update returned, and with the exception and the
    line of failure, both on the standard error, when it raised. *)
Theorem X22_command_reports_how_the_update_ended config obj (env : Env World) :
  let run := load_data_command config obj env in
  let init := DataLoader_init config (snd (click_echo EchoStart false env)) in
  match fst init with
  | Failed e =>
      run = (Failed e, snd init)
      ∧ echoed (snd run) = mkEcho EchoStart false :: echoed env
  | Done self =>
      let update := run_update self obj (snd init) in
      fst run = Done ()
      ∧ loader_state (snd run) = loader_state (snd update)
      ∧ echoed (snd run)
        = match fst update with
          | Done _ => [mkEcho EchoFinished false]
          | Failed e => [mkEcho EchoFinishedWithErrors true;
                         mkEcho (EchoCriticalError e) true]
          end ++ mkEcho EchoStart false :: echoed env
  end.
Proof.
  intros run init. subst run init.
  set (env0 := snd (click_echo EchoStart false env)).
  assert (echoed env0 = mkEcho EchoStart false :: echoed env) as H0 by done.
  unfold load_data_command. rewrite io_bind_eq.
  change (click_echo EchoStart false env) with (@Done Error () (), env0).
  cbn iota beta. rewrite io_bind_eq.
  clearbody env0.
  assert (echoed (snd (DataLoader_init config env0)) = echoed env0) as Hinit.
  { unfold DataLoader_init, syscall. rewrite io_bind_eq. simpl.
    by destruct (os_makedirs (DATA_CACHE_PATH config) (world env0)) as [[[]|e] w]. }
  rewrite H0 in Hinit.
  destruct (DataLoader_init config env0) as [[self|e] env1];
    simpl in Hinit |- *; [|done].
  unfold try_catch. rewrite !io_bind_eq.
  pose proof (same_echo_run_update self obj env1 _ _ (surjective_pairing _)) as Hecho.
  unfold same_echo in Hecho.
  destruct (run_update self obj env1) as [[[]|e] env2]; simpl in Hecho |- *;
    by rewrite Hecho, Hinit.
Qed.

End UpdaterFacts.

(** *** The update cycle on the platform in memory *)

Lemma memory_remove_raises_OSError : remove_raises_OSError (World := MemoryWorld).
Proof.
  intros path w e w'. simpl. unfold memory_remove.
  repeat case_bool_decide; by intros [= <- _].
Qed.

Lemma sample_loader_configured : url_configured sample_loader.
Proof. split; [by vm_compute|]. intros H. by vm_compute in H. Qed.

Lemma sample_loader_parses : url_parses sample_loader.
Proof. eexists. by vm_compute. Qed.

(** The loader whose URL is configured and malformed: [run_update]
    raises the [ValueError] of [urlparse], having made no call outside
    the program. *)
Lemma malformed_url_raises :
  fst (run_update malformed_loader None (boot (mkMemoryWorld None [old_file] None)
         empty_tables))
    = Failed (LibraryError ValueError)
  ∧ syscalls (snd (run_update malformed_loader None
                     (boot (mkMemoryWorld None [old_file] None) empty_tables))) = [].
Proof. split; by vm_compute. Qed.

Lemma X17_update_needs_a_url_witness :
  run_update (mkDataLoader (mkConfig (u "cache") []) (u "cache") []
                (u "cache/metadata.json") None) None
    (boot (mkMemoryWorld (Some NotAnArchive) [old_file] None) empty_tables)
  = (Done (),
     mkEnv (mkMemoryWorld (Some NotAnArchive) [old_file] None) (fresh empty_tables [])
       [mkNotice INFO NoticeUpdateNotNeeded; mkNotice WARNING NoticeUrlNotConfigured;
        mkNotice INFO NoticeCheckForUpdates; mkNotice INFO NoticeUpdateStart] [] []).
Proof. apply X17_update_needs_a_url. by intros [? _]. Defined.

Lemma X20_failed_download_stops_the_update_witness :
  ∃ env', run_update sample_loader None
            (boot (mkMemoryWorld None [old_file] None) empty_tables) = (Done (), env')
    ∧ loader_state env' = fresh empty_tables [] ∧ echoed env' = []
    ∧ head (notices env') = Some (mkNotice ERROR NoticeDownloadFailed)
    ∧ ∃ calls, syscalls env' = calls ++ [] ∧ forallb download_call calls = true.
Proof.
  apply (X20_failed_download_stops_the_update sample_loader None
           (boot (mkMemoryWorld None [old_file] None) empty_tables)).
  - apply sample_loader_configured.
  - apply sample_loader_parses.
  - intros w' (response & w1 & w2 & H & _). by vm_compute in H.
Defined.

Lemma X21_old_files_go_before_the_unpacking_witness :
  let run := run_update sample_loader None
               (boot (mkMemoryWorld (Some NotAnArchive) [old_file] None) empty_tables) in
  Remove (u "cache/old.xml") ∈ syscalls (snd run)
  ∧ fst run = Done ()
  ∧ loader_state (snd run) = fresh empty_tables []
  ∧ head (notices (snd run)) = Some (mkNotice ERROR NoticeUnpackFailed).
Proof.
  destruct (X21_old_files_go_before_the_unpacking sample_loader None
              (boot (mkMemoryWorld (Some NotAnArchive) [old_file] None) empty_tables)
              (mkMemoryWorld (Some NotAnArchive) [old_file]
                 (Some (u "cache/data.zip", NotAnArchive))))
    as [Hremoved Hfailed].
  - apply sample_loader_configured.
  - apply sample_loader_parses.
  - by exists NotAnArchive, (mkMemoryWorld (Some NotAnArchive) [old_file] None),
      (mkMemoryWorld (Some NotAnArchive) [old_file] None).
  - by vm_compute.
  - apply memory_remove_raises_OSError.
  - split.
    + apply Hremoved. simpl. left.
    + apply Hfailed. intros w' (w1 & H & _). by vm_compute in H.
Defined.
